(** * Agentic Video RAG: a shallow embedding of the pipeline engine

    The development follows the layout of the Python package
    [agentic_video_rag]: [utils.py], [types.py], [stores.py],
    [orchestrator_contract.py], [orchestrator_runtime.py], [adapters.py]
    and [pipeline.py].  Python [int] is [Z], [str] is [string] (a UTF-8
    byte sequence, so that the order on strings is Python's code-point
    order), a [tuple] or [list] is a [list], and a [dict] is an
    insertion-ordered association list, because the engine iterates over
    its dictionaries.

    A Python [float] is a binary64 number and is represented by the
    rational it denotes, a [Q].  A literal such as [0.3] is the binary64
    number nearest to 3/10, written [float 0.3]; every arithmetic
    operation takes the exact result and rounds it to 53 significant bits,
    ties to even, as IEEE 754 prescribes; [statistics.fmean] is
    [math.fsum], the exact sum rounded once, divided by the count; and
    [round(x, 3)] rounds the exact value of [x] to three decimals, ties to
    even, and returns the binary64 number nearest to that decimal.  The
    exponent range is not bounded: the embedding agrees with the code on
    the normal binary64 numbers, [2^-1022 <= |x| < 2^1024], and says
    nothing of infinities, NaN, subnormal results, or the [OverflowError]
    that [math.fsum] raises beyond that range. *)

From Stdlib Require Import List String Ascii Bool ZArith QArith Qround Qminmax Lia.
From Stdlib Require Import Permutation Sorted DecimalString Qpower Lqa Morphisms.
Import ListNotations.

Local Open Scope string_scope.
Local Open Scope Z_scope.

(** ** Exceptions *)

Inductive exn : Type :=
| KeyError (key : string)
| ValueError (msg : string)
| IndexError.

Inductive result (A : Type) : Type :=
| Ok (a : A)
| Raise (e : exn).

Arguments Ok {A} a.
Arguments Raise {A} e.

(** A computation over a mutable object of type [S]: it returns a value or
    raises, and in both cases leaves the object in some state (a Python
    exception does not roll back earlier mutations). *)

Definition M (S A : Type) : Type := S -> result A * S.

Definition ret {S A} (a : A) : M S A := fun s => (Ok a, s).

Definition raise {S A} (e : exn) : M S A := fun s => (Raise e, s).

Definition bind {S A B} (m : M S A) (k : A -> M S B) : M S B :=
  fun s =>
    match m s with
    | (Ok a, s') => k a s'
    | (Raise e, s') => (Raise e, s')
    end.

Definition get {S} : M S S := fun s => (Ok s, s).

Definition modify {S} (f : S -> S) : M S unit := fun s => (Ok tt, f s).

Declare Scope monad_scope.
Delimit Scope monad_scope with monad.
Notation "x <- m ;; k" := (bind m (fun x => k))
  (at level 61, m at next level, right associativity) : monad_scope.
Notation "m ;;; k" := (bind m (fun _ => k))
  (at level 61, right associativity) : monad_scope.
Local Open Scope monad_scope.

(** [for x in l: body x] *)
Fixpoint for_each {S A} (l : list A) (body : A -> M S unit) : M S unit :=
  match l with
  | [] => ret tt
  | x :: l' => body x ;;; for_each l' body
  end.

(** [[f(x) for x in l]] where [f] has effects. *)
Fixpoint map_m {S A B} (f : A -> M S B) (l : list A) : M S (list B) :=
  match l with
  | [] => ret []
  | x :: l' => y <- f x ;; ys <- map_m f l' ;; ret (y :: ys)
  end.

(** ** spec_schema.py, orchestrator_contract.py *)

Inductive StageId : Type :=
| stage_1 | stage_2 | stage_3 | stage_4 | stage_5 | stage_6 | stage_7.

Definition StageId_eqb (a b : StageId) : bool :=
  match a, b with
  | stage_1, stage_1 | stage_2, stage_2 | stage_3, stage_3
  | stage_4, stage_4 | stage_5, stage_5 | stage_6, stage_6
  | stage_7, stage_7 => true
  | _, _ => false
  end.

Definition StageId_str (s : StageId) : string :=
  match s with
  | stage_1 => "stage_1" | stage_2 => "stage_2" | stage_3 => "stage_3"
  | stage_4 => "stage_4" | stage_5 => "stage_5" | stage_6 => "stage_6"
  | stage_7 => "stage_7"
  end.

Definition REQUIRED_ORCHESTRATION_STATE_KEYS : list string :=
  [ "query_id"; "normalized_query"; "candidate_windows"; "grounded_tracks";
    "entity_links"; "temporal_segments"; "evidence_package" ].

Definition TRANSITION_GRAPH (s : StageId) : list StageId :=
  match s with
  | stage_1 => [stage_2]
  | stage_2 => [stage_2; stage_3]
  | stage_3 => [stage_3; stage_4]
  | stage_4 => [stage_4; stage_5]
  | stage_5 => [stage_5; stage_6]
  | stage_6 => [stage_6; stage_7]
  | stage_7 => []
  end.

Definition HOOK_TO_STAGE : list (string * StageId) :=
  [ ("low_retrieval_confidence", stage_2);
    ("low_mask_confidence", stage_3);
    ("identity_ambiguity", stage_4);
    ("missing_evidence", stage_6) ].

Record OrchestratorContract : Type := {
  required_state_keys : list string;
  branching_hooks : list string
}.

Definition mem_string (x : string) (l : list string) : bool :=
  existsb (String.eqb x) l.

Definition can_transition (self : OrchestratorContract)
    (current_stage next_stage : StageId) : bool :=
  existsb (StageId_eqb next_stage) (TRANSITION_GRAPH current_stage).

Fixpoint assoc_get {V} (k : string) (d : list (string * V)) : option V :=
  match d with
  | [] => None
  | (k', v) :: d' => if String.eqb k k' then Some v else assoc_get k d'
  end.

Definition next_stage_for_hook (self : OrchestratorContract) (hook : string)
    : result StageId :=
  if negb (mem_string hook (branching_hooks self)) then
    Raise (ValueError ("hook '" ++ hook ++ "' is not enabled in this configuration"))
  else
    match assoc_get hook HOOK_TO_STAGE with
    | None => Raise (ValueError ("hook '" ++ hook ++ "' has no stage mapping"))
    | Some s => Ok s
    end.

(** [validate_state_snapshot]: the keys of the snapshot are what matters. *)
Definition validate_state_snapshot (self : OrchestratorContract)
    (snapshot_keys : list string) : result unit :=
  let missing :=
    filter (fun k => negb (mem_string k snapshot_keys)) (required_state_keys self) in
  match missing with
  | [] => Ok tt
  | _ => Raise (ValueError "state snapshot missing required keys")
  end.

(** ** orchestrator_runtime.py *)

Record TransitionEvent : Type := {
  from_stage : StageId;
  to_stage : StageId;
  reason : string
}.

Record OrchestrationRuntime : Type := {
  contract : OrchestratorContract;
  events : list TransitionEvent
}.

Definition append_event (ev : TransitionEvent) (rt : OrchestrationRuntime)
    : OrchestrationRuntime :=
  {| contract := contract rt; events := events rt ++ [ev] |}.

Definition transition (current_stage next_stage : StageId) (why : string)
    : M OrchestrationRuntime StageId :=
  self <- get ;;
  if negb (can_transition (contract self) current_stage next_stage) then
    raise (ValueError ("invalid transition " ++ StageId_str current_stage
                         ++ " -> " ++ StageId_str next_stage))
  else
    modify (append_event {| from_stage := current_stage;
                            to_stage := next_stage;
                            reason := why |}) ;;;
    ret next_stage.

Definition apply_branching_hook (current_stage : StageId) (hook : string)
    : M OrchestrationRuntime StageId :=
  self <- get ;;
  match next_stage_for_hook (contract self) hook with
  | Raise e => raise e
  | Ok next_stage => transition current_stage next_stage ("hook:" ++ hook)
  end.

Definition canonical_flow : list StageId :=
  [stage_1; stage_2; stage_3; stage_4; stage_5; stage_6; stage_7].

(** ** Python built-ins on [str], [list] and [float] *)

(** Ports of the embedding: library functions whose results depend on the
    Unicode database ([str.lower], [str.strip]), on a cryptographic hash
    ([hashlib.sha1]) or on IEEE arithmetic with square roots.
    [deterministic_vector] is [utils.deterministic_vector(seed, dim=16)],
    a SHA-256 driven pseudo-embedding; every vector in the stores comes
    from it, so the length check of [utils.cosine_similarity] never fires
    and the similarity is a total function of its two vectors. *)

Definition Vec : Type := list Q.

Record Ports : Type := {
  str_lower : string -> string;
  str_strip : string -> string;
  sha1_hexdigest : string -> string;
  deterministic_vector : string -> Vec;
  cosine_similarity : Vec -> Vec -> Q
}.

Definition Qgeb (x y : Q) : bool := Qle_bool y x.
Definition Qgtb (x y : Q) : bool := negb (Qle_bool x y).
Definition Qltb (x y : Q) : bool := negb (Qle_bool y x).

(** [str(n)] for an [int]. *)
Definition str_of_int (n : Z) : string := NilZero.string_of_int (Z.to_int n).

(** [sep.join(parts)] *)
Definition join (sep : string) (parts : list string) : string :=
  String.concat sep parts.

(** [s.replace(c, by)] for a one-character pattern [c]. *)
Fixpoint replace_char (c : ascii) (by_ : string) (s : string) : string :=
  match s with
  | EmptyString => EmptyString
  | String a s' =>
      if Ascii.eqb a c then by_ ++ replace_char c by_ s'
      else String a (replace_char c by_ s')
  end.

(** [needle in hay] *)
Fixpoint contains (needle hay : string) : bool :=
  prefix needle hay
  || match hay with
     | EmptyString => false
     | String _ hay' => contains needle hay'
     end.

Definition startswith (s pre : string) : bool := prefix pre s.

Fixpoint rev_string_acc (s acc : string) : string :=
  match s with
  | EmptyString => acc
  | String a s' => rev_string_acc s' (String a acc)
  end.

Definition rev_string (s : string) : string := rev_string_acc s EmptyString.

(** [s.split(sep)] for a non-empty separator.  [skip] counts the characters
    of a separator occurrence still to be passed over; [cur] is the current
    piece, reversed. *)
Fixpoint split_aux (sep : string) (skip : nat) (cur : string) (s : string)
    : list string :=
  match s with
  | EmptyString => [rev_string cur]
  | String a s' =>
      match skip with
      | S k => split_aux sep k cur s'
      | O =>
          if prefix sep s
          then rev_string cur :: split_aux sep (String.length sep - 1) EmptyString s'
          else split_aux sep O (String a cur) s'
      end
  end.

Definition split (sep s : string) : list string := split_aux sep O EmptyString s.

(** [sorted(...)], a stable sort: [insert_sorted before x l] places [x],
    which stood before every element of [l] in the input, in front of the
    first [y] with [before x y]. *)
Fixpoint insert_sorted {A} (before : A -> A -> bool) (x : A) (l : list A) : list A :=
  match l with
  | [] => [x]
  | y :: l' => if before x y then x :: l else y :: insert_sorted before x l'
  end.

Fixpoint sorted_by {A} (before : A -> A -> bool) (l : list A) : list A :=
  match l with
  | [] => []
  | x :: l' => insert_sorted before x (sorted_by before l')
  end.

(** [list(dict.fromkeys(l))]: the distinct elements, by first occurrence. *)
Fixpoint dedup_acc {A} (eqb : A -> A -> bool) (seen : list A) (l : list A) : list A :=
  match l with
  | [] => []
  | x :: l' =>
      if existsb (eqb x) seen then dedup_acc eqb seen l'
      else x :: dedup_acc eqb (x :: seen) l'
  end.

Definition dedup {A} (eqb : A -> A -> bool) (l : list A) : list A :=
  dedup_acc eqb [] l.

(** [sorted(set(l))] for strings and for integers. *)
Definition sorted_set_str (l : list string) : list string :=
  sorted_by String.leb (dedup String.eqb l).

Definition sorted_set_int (l : list Z) : list Z :=
  sorted_by Z.leb (dedup Z.eqb l).

(** An insertion-ordered [dict] with string keys. *)
Definition dict (V : Type) : Type := list (string * V).

Definition dict_get {V} (k : string) (d : dict V) : option V := assoc_get k d.

(** [d[k] = v]: an existing key keeps its position. *)
Fixpoint dict_set {V} (k : string) (v : V) (d : dict V) : dict V :=
  match d with
  | [] => [(k, v)]
  | (k', v') :: d' =>
      if String.eqb k k' then (k', v) :: d' else (k', v') :: dict_set k v d'
  end.

Definition dict_values {V} (d : dict V) : list V := map snd d.

Definition dict_keys {V} (d : dict V) : list string := map fst d.

(** [d.setdefault(k, []).append(x)] on a dict of lists. *)
Definition dict_append {V} (k : string) (x : V) (d : dict (list V)) : dict (list V) :=
  match dict_get k d with
  | Some l => dict_set k (l ++ [x])%list d
  | None => dict_set k [x] d
  end.

(** The integer nearest to [x], ties to even. *)
Definition round_half_even (x : Q) : Z :=
  let fl := Qfloor x in
  let frac := (x - inject_Z fl)%Q in
  match Qcompare frac (1 # 2) with
  | Lt => fl
  | Gt => fl + 1
  | Eq => if Z.even fl then fl else fl + 1
  end.

(** [floor(log2(x))] for a positive [x]. *)
Definition ilog2 (x : Q) : Z :=
  let e0 := Z.log2 (Qnum x) - Z.log2 (Zpos (Qden x)) in
  if Qle_bool (2 ^ e0) x then e0 else e0 - 1.

(** The binary64 number nearest to a positive [x], ties to even: a
    significand of 53 bits, [2^52 <= m <= 2^53], at the exponent of [x]. *)
Definition float_pos (x : Q) : Q :=
  let e := ilog2 x - 52 in
  Qred (inject_Z (round_half_even (x / 2 ^ e)) * 2 ^ e).

(** The binary64 number nearest to [x]: what a float literal denotes and
    what an arithmetic operation returns for the exact result [x]. *)
Definition float (x : Q) : Q :=
  match Qnum x with
  | 0 => 0%Q
  | Zpos _ => float_pos x
  | Zneg _ => Qopp (float_pos (Qopp x))
  end.

Arguments float_pos x : simpl never.
Arguments float x : simpl never.

(** [x + y], [x - y], [x * y] and [x / y] on floats. *)
Definition fadd (x y : Q) : Q := float (x + y).
Definition fsub (x y : Q) : Q := float (x - y).
Definition fmul (x y : Q) : Q := float (x * y).
Definition fdiv (x y : Q) : Q := float (x / y).

(** [a / b] on two [int]s: the quotient, correctly rounded. *)
Definition int_truediv (a b : Z) : Q := float (inject_Z a / inject_Z b).

(** [round(x, 3)] on a float. *)
Definition round3 (x : Q) : Q := float (Qmake (round_half_even (x * 1000)%Q) 1000).

Definition Qsum (l : list Q) : Q := fold_left Qplus l 0%Q.

(** [math.fsum(values)]: the exact sum, rounded once. *)
Definition fsum (values : list Q) : Q := float (Qsum values).

(** [statistics.fmean(values)] for a non-empty list: [fsum(values) / n]. *)
Definition fmean (values : list Q) : Q :=
  fdiv (fsum values) (float (inject_Z (Z.of_nat (List.length values)))).

(** ** utils.py *)

Definition is_word_char (a : ascii) : bool :=
  let n := nat_of_ascii a in
  ((97 <=? n) && (n <=? 122) || (48 <=? n) && (n <=? 57) || (n =? 95))%nat.

(** [WORD_RE.findall(s)]: the maximal runs of [[a-z0-9_]]; [cur] is the run
    being read, reversed. *)
Fixpoint findall_words (cur : string) (s : string) : list string :=
  match s with
  | EmptyString =>
      match cur with EmptyString => [] | _ => [rev_string cur] end
  | String a s' =>
      if is_word_char a then findall_words (String a cur) s'
      else match cur with
           | EmptyString => findall_words EmptyString s'
           | _ => rev_string cur :: findall_words EmptyString s'
           end
  end.

Section Utils.
Variable P : Ports.

Definition tokenize (text : string) : list string :=
  let normalized :=
    replace_char "-" " " (replace_char "_" " " (str_lower P text)) in
  findall_words EmptyString normalized.

(** [stable_id(prefix, *parts)]; the parts are passed already converted
    by [str]. *)
Definition stable_id (prefix : string) (parts : list string) : string :=
  let payload := join "|" parts in
  let digest := substring 0 10 (sha1_hexdigest P payload) in
  prefix ++ "_" ++ digest.
End Utils.

Definition overlap_score (query_tokens semantic_tokens : list string) : Q :=
  match query_tokens with
  | [] => 0
  | _ =>
      let query := dedup String.eqb query_tokens in
      let common := filter (fun t => mem_string t semantic_tokens) query in
      int_truediv (Z.of_nat (List.length common)) (Z.of_nat (List.length query))
  end.

Definition mean (values : list Q) : Q :=
  match values with
  | [] => 0
  | _ => fmean values
  end.

(** [values[start:end]] for [0 <= start]. *)
Definition slice {A} (l : list A) (start stop : nat) : list A :=
  firstn (stop - start) (skipn start l).

Definition smooth_curve (values : list Q) (window : Z) : list Q :=
  if (window <=? 1) || (List.length values <=? 1)%nat then values
  else
    let half_window := Z.to_nat (Z.max 1 (window / 2)) in
    map (fun idx =>
           let start := (idx - half_window)%nat in
           let stop := Nat.min (List.length values) (idx + half_window + 1) in
           mean (slice values start stop))
        (seq 0 (List.length values)).

(** ** types.py *)

Inductive RouteId : Type := meta_sync | sig_ex_adaptive | cv_state | bg_motion_trigger.

Definition RouteId_str (r : RouteId) : string :=
  match r with
  | meta_sync => "meta_sync"
  | sig_ex_adaptive => "sig_ex_adaptive"
  | cv_state => "cv_state"
  | bg_motion_trigger => "bg_motion_trigger"
  end.

Definition RouteId_eqb (a b : RouteId) : bool :=
  String.eqb (RouteId_str a) (RouteId_str b).

Inductive EntityType : Type := object | person.

Definition EntityType_str (e : EntityType) : string :=
  match e with object => "object" | person => "person" end.

Definition EntityType_eqb (a b : EntityType) : bool :=
  match a, b with
  | object, object | person, person => true
  | _, _ => false
  end.

Inductive CameraType : Type := static | moving.

Inductive Location : Type := exterior | interior.

Definition Location_str (l : Location) : string :=
  match l with exterior => "exterior" | interior => "interior" end.

Inductive EdgeType : Type := EXITS | MOVES_TO.

Module FrameObservation.
Record t : Type := mk {
  timestamp : Z;
  objects : list string;
  actions : list string;
  background_motion : Q
}.
End FrameObservation.
Abbreviation FrameObservation := FrameObservation.t.

(** [Clip.metadata] is a [dict[str, object]] of which the engine reads two
    keys: the truth value of ["has_motion_vectors"], and ["active_windows"],
    used when it is a list; an item of that list counts when it is a dict,
    read at ["t_start"] and ["t_end"] (integers when present). *)
Inductive RawWindow : Type :=
| RawDict (t_start t_end : option Z)
| RawOther.

Module Metadata.
Record t : Type := mk {
  has_motion_vectors : bool;
  active_windows : option (list RawWindow)
}.
End Metadata.

Module Clip.
Record t : Type := mk {
  clip_id : string;
  camera_id : string;
  camera_type : CameraType;
  location : Location;
  duration_seconds : Z;
  frames : list FrameObservation;
  metadata : Metadata.t
}.
End Clip.
Abbreviation Clip := Clip.t.

Module QueryRequest.
Record t : Type := mk {
  query_id : string;
  query_text : string;
  clips : list Clip;
  camera_topology : dict (list string)
}.
End QueryRequest.
Abbreviation QueryRequest := QueryRequest.t.

Module ActiveWindow.
Record t : Type := mk {
  window_id : string;
  clip_id : string;
  camera_id : string;
  route_id : RouteId;
  t_start : Z;
  t_end : Z;
  reason : string;
  semantic_tokens : list string
}.
End ActiveWindow.
Abbreviation ActiveWindow := ActiveWindow.t.

Module KeyframeRecord.
Record t : Type := mk {
  frame_id : string;
  window_id : string;
  clip_id : string;
  camera_id : string;
  timestamp : Z;
  embedding : Vec;
  embedding_id : string;
  semantic_tokens : list string;
  route_id : RouteId
}.
End KeyframeRecord.
Abbreviation KeyframeRecord := KeyframeRecord.t.

Module WindowFeatures.
Record t : Type := mk {
  window_id : string;
  clip_id : string;
  camera_id : string;
  t_start : Z;
  t_end : Z;
  pooled_embedding : Vec;
  per_timestep_embeddings : list Vec;
  semantic_tokens : list string
}.
End WindowFeatures.
Abbreviation WindowFeatures := WindowFeatures.t.

Module ValidatedWindow.
Record t : Type := mk {
  window_id : string;
  clip_id : string;
  camera_id : string;
  t_start : Z;
  t_end : Z;
  confidence : Q;
  query_text : string
}.
End ValidatedWindow.
Abbreviation ValidatedWindow := ValidatedWindow.t.

Module Tracklet.
Record t : Type := mk {
  track_id : string;
  clip_id : string;
  camera_id : string;
  window_id : string;
  entity_type : EntityType;
  label : string;
  t_start : Z;
  t_end : Z;
  mask_confidence : Q;
  overlay_uri : string
}.
End Tracklet.
Abbreviation Tracklet := Tracklet.t.

Module EntityLink.
Record t : Type := mk {
  entity_id : string;
  entity_type : EntityType;
  label : string;
  track_ids : list string;
  confidence : Q;
  resolved : bool
}.
End EntityLink.
Abbreviation EntityLink := EntityLink.t.

Module TemporalSegment.
Record t : Type := mk {
  segment_id : string;
  clip_id : string;
  camera_id : string;
  track_id : string;
  action : string;
  t_start : Z;
  t_end : Z;
  confidence : Q;
  failure_flags : list string
}.
End TemporalSegment.
Abbreviation TemporalSegment := TemporalSegment.t.

Module EvidenceRef.
Record t : Type := mk {
  clip_id : string;
  camera_id : string;
  frame_range : Z * Z;
  overlay_uri : string;
  embedding_id : string;
  model_version : string
}.
End EvidenceRef.
Abbreviation EvidenceRef := EvidenceRef.t.

Inductive PropValue : Type :=
| PStr (s : string)
| PFloat (x : Q)
| PBool (b : bool).

Module GraphNode.
Record t : Type := mk {
  node_id : string;
  node_type : string;
  properties : dict PropValue
}.
End GraphNode.
Abbreviation GraphNode := GraphNode.t.

Module GraphEdge.
Record t : Type := mk {
  edge_id : string;
  edge_type : EdgeType;
  source_id : string;
  target_id : string;
  t_start : Z;
  t_end : Z;
  camera_id : string;
  confidence : Q;
  evidence_refs : list EvidenceRef
}.
End GraphEdge.
Abbreviation GraphEdge := GraphEdge.t.

Module ClaimRecord.
Record t : Type := mk {
  claim_id : string;
  text : string;
  entity_ids : list string;
  camera_id : string;
  t_start : Z;
  t_end : Z;
  confidence : Q;
  evidence_refs : list EvidenceRef
}.
End ClaimRecord.
Abbreviation ClaimRecord := ClaimRecord.t.

Module SynthesisOutput.
Record t : Type := mk {
  summary : string;
  claims : list ClaimRecord;
  evidence_appendix : list string;
  redacted_claim_count : Z
}.
End SynthesisOutput.
Abbreviation SynthesisOutput := SynthesisOutput.t.

(** [stage_durations_ms] maps a stage name to a wall-clock measurement; the
    embedding keeps the names that were timed and leaves the readings of
    [time.perf_counter] out. *)
Module StageMetrics.
Record t : Type := mk {
  stage_durations_ms : list string;
  cache_hits : Z;
  cache_misses : Z
}.
End StageMetrics.
Abbreviation StageMetrics := StageMetrics.t.

Module PipelineResult.
Record t : Type := mk {
  query_id : string;
  query_text : string;
  active_windows : list ActiveWindow;
  validated_windows : list ValidatedWindow;
  tracklets : list Tracklet;
  entity_links : list EntityLink;
  temporal_segments : list TemporalSegment;
  graph_nodes : list GraphNode;
  graph_edges : list GraphEdge;
  synthesis : SynthesisOutput;
  metrics : StageMetrics
}.
End PipelineResult.
Abbreviation PipelineResult := PipelineResult.t.

(** ** stores.py *)

Module FeatureCacheStore.
Record t : Type := mk {
  l1 : dict WindowFeatures;
  l2 : dict (list string);
  hits : Z;
  misses : Z
}.
End FeatureCacheStore.

Module GraphStore.
Record t : Type := mk {
  nodes : dict GraphNode;
  edges : dict GraphEdge
}.
End GraphStore.

Module PipelineStores.
Record t : Type := mk {
  frame_index : list KeyframeRecord;
  window_index : dict Vec;
  feature_cache : FeatureCacheStore.t;
  artifact_store : dict string;
  graph_store : GraphStore.t;
  evidence_registry : dict (list EvidenceRef)
}.

(** [PipelineStores()] of a new engine. *)
Definition fresh : t :=
  {| frame_index := [];
     window_index := [];
     feature_cache := FeatureCacheStore.mk [] [] 0 0;
     artifact_store := [];
     graph_store := GraphStore.mk [] [];
     evidence_registry := [] |}.
End PipelineStores.
Abbreviation PipelineStores := PipelineStores.t.

Section Stores.
Import PipelineStores.
Variable P : Ports.

(** [FrameIndexStore.add] *)
Definition frame_index_add (record : KeyframeRecord) : M PipelineStores unit :=
  modify (fun s =>
    {| frame_index := frame_index s ++ [record];
       window_index := window_index s;
       feature_cache := feature_cache s;
       artifact_store := artifact_store s;
       graph_store := graph_store s;
       evidence_registry := evidence_registry s |}).

(** [ranked[:top_k]] *)
Definition take {A} (top_k : Z) (l : list A) : list A :=
  if top_k <? 0 then firstn (List.length l - Z.to_nat (- top_k)) l
  else firstn (Z.to_nat top_k) l.

(** [FrameIndexStore.search] *)
Definition frame_index_search (records : list KeyframeRecord)
    (query_embedding : Vec) (top_k : Z) : list (Q * KeyframeRecord) :=
  let ranked :=
    map (fun record =>
           (cosine_similarity P query_embedding (KeyframeRecord.embedding record),
            record))
        records in
  let ranked := sorted_by (fun a b => Qgeb (fst a) (fst b)) ranked in
  take top_k ranked.

(** [WindowIndexStore.upsert] *)
Definition window_index_upsert (window_id : string) (vector : Vec)
    : M PipelineStores unit :=
  modify (fun s =>
    {| frame_index := frame_index s;
       window_index := dict_set window_id vector (window_index s);
       feature_cache := feature_cache s;
       artifact_store := artifact_store s;
       graph_store := graph_store s;
       evidence_registry := evidence_registry s |}).

Definition with_feature_cache (c : FeatureCacheStore.t) (s : PipelineStores)
    : PipelineStores :=
  {| frame_index := frame_index s;
     window_index := window_index s;
     feature_cache := c;
     artifact_store := artifact_store s;
     graph_store := graph_store s;
     evidence_registry := evidence_registry s |}.

(** [FeatureCacheStore.get_l1] *)
Definition get_l1 (key : string) : M PipelineStores (option WindowFeatures) :=
  fun s =>
    let c := feature_cache s in
    match dict_get key (FeatureCacheStore.l1 c) with
    | None =>
        (Ok None,
         with_feature_cache
           (FeatureCacheStore.mk (FeatureCacheStore.l1 c) (FeatureCacheStore.l2 c)
              (FeatureCacheStore.hits c) (FeatureCacheStore.misses c + 1)) s)
    | Some item =>
        (Ok (Some item),
         with_feature_cache
           (FeatureCacheStore.mk (FeatureCacheStore.l1 c) (FeatureCacheStore.l2 c)
              (FeatureCacheStore.hits c + 1) (FeatureCacheStore.misses c)) s)
    end.

(** [FeatureCacheStore.set_l1] *)
Definition set_l1 (key : string) (value : WindowFeatures) : M PipelineStores unit :=
  modify (fun s =>
    let c := feature_cache s in
    with_feature_cache
      (FeatureCacheStore.mk (dict_set key value (FeatureCacheStore.l1 c))
         (FeatureCacheStore.l2 c) (FeatureCacheStore.hits c)
         (FeatureCacheStore.misses c)) s).

(** [FeatureCacheStore.set_l2] *)
Definition set_l2 (key : string) (value : list string) : M PipelineStores unit :=
  modify (fun s =>
    let c := feature_cache s in
    with_feature_cache
      (FeatureCacheStore.mk (FeatureCacheStore.l1 c)
         (dict_set key value (FeatureCacheStore.l2 c)) (FeatureCacheStore.hits c)
         (FeatureCacheStore.misses c)) s).

(** [ArtifactStore.put] *)
Definition artifact_put (uri payload : string) : M PipelineStores unit :=
  modify (fun s =>
    {| frame_index := frame_index s;
       window_index := window_index s;
       feature_cache := feature_cache s;
       artifact_store := dict_set uri payload (artifact_store s);
       graph_store := graph_store s;
       evidence_registry := evidence_registry s |}).

Definition with_graph_store (g : GraphStore.t) (s : PipelineStores) : PipelineStores :=
  {| frame_index := frame_index s;
     window_index := window_index s;
     feature_cache := feature_cache s;
     artifact_store := artifact_store s;
     graph_store := g;
     evidence_registry := evidence_registry s |}.

(** [GraphStore.upsert_node] *)
Definition upsert_node (node : GraphNode) : M PipelineStores unit :=
  modify (fun s =>
    let g := graph_store s in
    with_graph_store
      (GraphStore.mk (dict_set (GraphNode.node_id node) node (GraphStore.nodes g))
         (GraphStore.edges g)) s).

(** [GraphStore.add_edge] *)
Definition add_edge (edge : GraphEdge) : M PipelineStores unit :=
  modify (fun s =>
    let g := graph_store s in
    with_graph_store
      (GraphStore.mk (GraphStore.nodes g)
         (dict_set (GraphEdge.edge_id edge) edge (GraphStore.edges g))) s).

(** [GraphStore.edges_with_evidence] *)
Definition edges_with_evidence (g : GraphStore.t) : list GraphEdge :=
  filter (fun edge => match GraphEdge.evidence_refs edge with [] => false | _ => true end)
         (dict_values (GraphStore.edges g)).

(** [EvidenceRegistry.append] *)
Definition evidence_append (track_id : string) (evidence_ref : EvidenceRef)
    : M PipelineStores unit :=
  modify (fun s =>
    {| frame_index := frame_index s;
       window_index := window_index s;
       feature_cache := feature_cache s;
       artifact_store := artifact_store s;
       graph_store := graph_store s;
       evidence_registry := dict_append track_id evidence_ref (evidence_registry s) |}).

(** [EvidenceRegistry.get] *)
Definition evidence_get (track_id : string) : M PipelineStores (list EvidenceRef) :=
  fun s =>
    (Ok match dict_get track_id (evidence_registry s) with
        | Some l => l
        | None => []
        end, s).
End Stores.

(** ** adapters.py *)

(** The loop of [_contiguous_spans] over [sorted_ts[1:]]. *)
Fixpoint spans_loop (start end_ : Z) (rest : list Z) : list (Z * Z) :=
  match rest with
  | [] => [(start, end_)]
  | value :: rest' =>
      if value =? end_ + 1 then spans_loop start value rest'
      else (start, end_) :: spans_loop value value rest'
  end.

Definition _contiguous_spans (timestamps : list Z) : list (Z * Z) :=
  match timestamps with
  | [] => []
  | _ =>
      match sorted_set_int timestamps with
      | [] => []
      | first :: rest => spans_loop first first rest
      end
  end.

Definition nonempty_str (s : string) : bool :=
  match s with EmptyString => false | _ => true end.

Definition in_window (t_start t_end : Z) (frame : FrameObservation) : bool :=
  (t_start <=? FrameObservation.timestamp frame)
  && (FrameObservation.timestamp frame <=? t_end).

Section Adapters.
Variable P : Ports.

(** *** QueryDecomposer *)

Definition decompose (query_text : string) : list string :=
  let normalized := replace_char "," " and " query_text in
  let parts :=
    filter nonempty_str (map (str_strip P) (split " and " normalized)) in
  match parts with
  | [] => [query_text]
  | _ =>
      query_text ::
      filter (fun part =>
                negb (String.eqb (str_lower P part) (str_lower P query_text)))
             parts
  end.

(** *** TriggerRouter *)

Definition choose_route (clip : Clip) : RouteId :=
  if Metadata.has_motion_vectors (Clip.metadata clip) then meta_sync
  else
    match Clip.camera_type clip with
    | moving => sig_ex_adaptive
    | static =>
        let avg_bg := mean (map FrameObservation.background_motion (Clip.frames clip)) in
        if Qgtb avg_bg (float 0.55) then bg_motion_trigger else cv_state
    end.

Definition SIGNAL_TOKENS : list string := ["suv"; "person"; "vehicle"; "car"; "truck"].

Definition has_semantic_signal (frame : FrameObservation) : bool :=
  match FrameObservation.actions frame with
  | _ :: _ => true
  | [] =>
      existsb (fun token =>
                 contains token (str_lower P (join " " (FrameObservation.objects frame))))
              SIGNAL_TOKENS
  end.

Definition meaningful (route_id : RouteId) (frame : FrameObservation) : bool :=
  match route_id with
  | bg_motion_trigger =>
      has_semantic_signal frame
      && Qgtb (FrameObservation.background_motion frame) (float 0.4)
  | cv_state => has_semantic_signal frame
  | _ => has_semantic_signal frame
  end.

Definition active_timestamps (clip : Clip) (route_id : RouteId) : list Z :=
  map FrameObservation.timestamp (filter (meaningful route_id) (Clip.frames clip)).

Definition metadata_windows (predefined : list RawWindow) : list (Z * Z * string) :=
  flat_map (fun raw =>
              match raw with
              | RawOther => []
              | RawDict ts te =>
                  let start := match ts with Some v => v | None => 0 end in
                  let end_ := match te with Some v => v | None => start end in
                  [(start, end_, "metadata_window")]
              end)
           predefined.

Definition activity_windows (clip : Clip) (route_id : RouteId) : list (Z * Z * string) :=
  map (fun span => (fst span, snd span, "activity_detected"))
      (_contiguous_spans (active_timestamps clip route_id)).

Definition extract_active_windows (clip : Clip) (route_id : RouteId)
    : list (Z * Z * string) :=
  match route_id with
  | meta_sync =>
      match Metadata.active_windows (Clip.metadata clip) with
      | Some ((_ :: _) as predefined) =>
          match metadata_windows predefined with
          | [] => activity_windows clip route_id
          | windows => windows
          end
      | _ => activity_windows clip route_id
      end
  | _ => activity_windows clip route_id
  end.

(** *** SigLIP2Adapter, InternVideoNextAdapter, IVNextLiTTextHeadAdapter *)

Definition siglip_embed_text (text : string) : Vec :=
  deterministic_vector P ("siglip2:text:" ++ text).

Definition siglip_embed_frame (clip_id : string) (timestamp : Z)
    (semantic_tokens : list string) : Vec :=
  deterministic_vector P
    ("siglip2:frame:" ++ clip_id ++ ":" ++ str_of_int timestamp ++ ":"
       ++ join "|" (sorted_by String.leb semantic_tokens)).

Definition lit_head_embed_text (text : string) : Vec :=
  deterministic_vector P ("lithead:text:" ++ text).

Definition extract_window_features (window : ActiveWindow) (clip : Clip)
    : WindowFeatures :=
  let frames :=
    filter (in_window (ActiveWindow.t_start window) (ActiveWindow.t_end window))
           (Clip.frames clip) in
  let frames :=
    match frames with
    | [] => [FrameObservation.mk (ActiveWindow.t_start window) [] [] 0.0]
    | _ => frames
    end in
  let frame_tokens (frame : FrameObservation) : list string :=
    (FrameObservation.objects frame ++ FrameObservation.actions frame
       ++ [Clip.camera_id clip; Location_str (Clip.location clip)])%list in
  let semantic_tokens :=
    flat_map (fun frame => tokenize P (join " " (frame_tokens frame))) frames in
  let per_timestep_embeddings :=
    map (fun frame =>
           deterministic_vector P
             ("ivnext:frame:" ++ Clip.clip_id clip ++ ":"
                ++ str_of_int (FrameObservation.timestamp frame) ++ ":"
                ++ join "|" (frame_tokens frame)))
        frames in
  let pooled_seed :=
    "ivnext:pooled:" ++ Clip.clip_id clip ++ ":"
      ++ str_of_int (ActiveWindow.t_start window) ++ ":"
      ++ str_of_int (ActiveWindow.t_end window) ++ ":"
      ++ join "|" (sorted_set_str semantic_tokens) in
  {| WindowFeatures.window_id := ActiveWindow.window_id window;
     WindowFeatures.clip_id := ActiveWindow.clip_id window;
     WindowFeatures.camera_id := ActiveWindow.camera_id window;
     WindowFeatures.t_start := ActiveWindow.t_start window;
     WindowFeatures.t_end := ActiveWindow.t_end window;
     WindowFeatures.pooled_embedding := deterministic_vector P pooled_seed;
     WindowFeatures.per_timestep_embeddings := per_timestep_embeddings;
     WindowFeatures.semantic_tokens := sorted_set_str semantic_tokens |}.

(** *** SAM3Adapter *)

Definition clamp01_round3 (confidence : Q) : Q :=
  round3 (Qmin (Qmax confidence 0.0) 1.0).

Definition _new_tracklet (clip : Clip) (window : ValidatedWindow)
    (entity_type : EntityType) (label : string) (confidence : Q)
    : M PipelineStores Tracklet :=
  let track_id :=
    stable_id P "TRACK"
      [Clip.clip_id clip; ValidatedWindow.window_id window;
       EntityType_str entity_type; label] in
  let overlay_uri := "overlay://" ++ Clip.clip_id clip ++ "/" ++ track_id ++ ".json" in
  artifact_put overlay_uri
    ("mask_bbox_overlay:" ++ label ++ ":"
       ++ str_of_int (ValidatedWindow.t_start window) ++ "-"
       ++ str_of_int (ValidatedWindow.t_end window)) ;;;
  ret {| Tracklet.track_id := track_id;
         Tracklet.clip_id := Clip.clip_id clip;
         Tracklet.camera_id := Clip.camera_id clip;
         Tracklet.window_id := ValidatedWindow.window_id window;
         Tracklet.entity_type := entity_type;
         Tracklet.label := label;
         Tracklet.t_start := ValidatedWindow.t_start window;
         Tracklet.t_end := ValidatedWindow.t_end window;
         Tracklet.mask_confidence := clamp01_round3 confidence;
         Tracklet.overlay_uri := overlay_uri |}.

Definition window_objects (window : ValidatedWindow) (clip : Clip) : list string :=
  flat_map FrameObservation.objects
    (filter (in_window (ValidatedWindow.t_start window) (ValidatedWindow.t_end window))
            (Clip.frames clip)).

Definition ground_window (validated_window : ValidatedWindow) (clip : Clip)
    (query_variant : string) : M PipelineStores (list Tracklet) :=
  let query_tokens := tokenize P query_variant in
  let objs := window_objects validated_window clip in
  let object_labels :=
    sorted_set_str
      (filter (fun obj =>
                 existsb (fun token => contains token (str_lower P obj))
                         ["suv"; "car"; "truck"; "vehicle"])
              objs) in
  let person_labels :=
    sorted_set_str
      (filter (fun obj => startswith (str_lower P obj) "person") objs) in
  objects <-
    (if mem_string "suv" query_tokens || mem_string "vehicle" query_tokens
        || mem_string "car" query_tokens
     then
       map_m (fun label =>
                let confidence :=
                  if existsb (fun token => contains token (str_lower P label)) query_tokens
                  then float 0.88 else float 0.62 in
                _new_tracklet clip validated_window object label confidence)
             object_labels
     else ret []) ;;
  persons <-
    (if mem_string "person" query_tokens || mem_string "who" query_tokens
     then
       map_m (fun label => _new_tracklet clip validated_window person label (float 0.86))
             person_labels
     else ret []) ;;
  let tracklets := (objects ++ persons)%list in
  match tracklets with
  | [] =>
      map_m (fun label => _new_tracklet clip validated_window object label (float 0.42))
            (firstn 1 object_labels)
  | _ => ret tracklets
  end.

(** *** ReIDResolver *)

(** The grouping loop shared by both resolvers:
    [grouped.setdefault(tracklet.label.lower(), []).append(tracklet)]. *)
Definition group_by_label (kind : EntityType) (tracklets : list Tracklet)
    : dict (list Tracklet) :=
  fold_left
    (fun grouped tracklet =>
       if EntityType_eqb (Tracklet.entity_type tracklet) kind
       then dict_append (str_lower P (Tracklet.label tracklet)) tracklet grouped
       else grouped)
    tracklets [].

Definition sorted_track_ids (items : list Tracklet) : list string :=
  sorted_by String.leb (map Tracklet.track_id items).

Definition _resolve_object_links (tracklets : list Tracklet) : list EntityLink :=
  map (fun entry =>
         let '(label, items) := entry in
         {| EntityLink.entity_id := stable_id P "OBJ" [label];
            EntityLink.entity_type := object;
            EntityLink.label := label;
            EntityLink.track_ids := sorted_track_ids items;
            EntityLink.confidence := float 0.83;
            EntityLink.resolved := true |})
      (group_by_label object tracklets).

(** The sort key [(item.t_start, item.camera_id)], compared as tuples. *)
Definition track_order (a b : Tracklet) : bool :=
  (Tracklet.t_start a <? Tracklet.t_start b)
  || ((Tracklet.t_start a =? Tracklet.t_start b)
      && String.leb (Tracklet.camera_id a) (Tracklet.camera_id b)).

Definition neighbors_of (camera_topology : dict (list string)) (camera : string)
    : list string :=
  match dict_get camera camera_topology with
  | Some l => l
  | None => []
  end.

(** The test that rejects a transition from [prev] to [curr]. *)
Definition transition_rejected (camera_topology : dict (list string))
    (max_cross_camera_travel_seconds : Z) (prev curr : Tracklet) : bool :=
  let neighbors := neighbors_of camera_topology (Tracklet.camera_id prev) in
  let travel_time := Z.max 0 (Tracklet.t_start curr - Tracklet.t_end prev) in
  negb (mem_string (Tracklet.camera_id curr) neighbors)
  && (travel_time >? max_cross_camera_travel_seconds).

(** The loop over [zip(sorted_items, sorted_items[1:])]; it returns
    [(resolved, confidence)] and stops at the first rejected pair. *)
Fixpoint walk_pairs (camera_topology : dict (list string))
    (max_cross_camera_travel_seconds : Z) (sorted_items : list Tracklet)
    : bool * Q :=
  match sorted_items with
  | prev :: (curr :: _) as rest =>
      if String.eqb (Tracklet.camera_id prev) (Tracklet.camera_id curr) then
        walk_pairs camera_topology max_cross_camera_travel_seconds rest
      else if transition_rejected camera_topology max_cross_camera_travel_seconds
                prev curr then
        (false, float 0.46)
      else walk_pairs camera_topology max_cross_camera_travel_seconds rest
  | _ => (true, float 0.87)
  end.

Definition person_link (camera_topology : dict (list string))
    (max_cross_camera_travel_seconds : Z) (label : string) (items : list Tracklet)
    : EntityLink :=
  let sorted_items := sorted_by track_order items in
  let '(resolved, confidence) :=
    walk_pairs camera_topology max_cross_camera_travel_seconds sorted_items in
  {| EntityLink.entity_id := stable_id P "PER" [label];
     EntityLink.entity_type := person;
     EntityLink.label := label;
     EntityLink.track_ids := sorted_track_ids sorted_items;
     EntityLink.confidence := confidence;
     EntityLink.resolved := resolved |}.

Definition _resolve_person_links (tracklets : list Tracklet)
    (camera_topology : dict (list string)) (max_cross_camera_travel_seconds : Z)
    : list EntityLink :=
  map (fun entry =>
         person_link camera_topology max_cross_camera_travel_seconds
                     (fst entry) (snd entry))
      (group_by_label person tracklets).

Definition resolve (tracklets : list Tracklet) (camera_topology : dict (list string))
    (max_cross_camera_travel_seconds : Z) : list EntityLink :=
  let object_links := _resolve_object_links tracklets in
  let person_links :=
    _resolve_person_links tracklets camera_topology max_cross_camera_travel_seconds in
  (object_links ++ person_links)%list.
End Adapters.

(** *** TemporalGroundingAdapter *)

(** The local variables of the loop of [_extract_spans]. *)
Record SpanState : Type := {
  in_span : bool;
  current_start : Z;
  current_scores : list Q;
  spans : list (Z * Z * Q)
}.

(** One iteration of [for ts, score in zip(timestamps, scores)]. *)
Definition span_step (high low : Q) (st : SpanState) (sample : Z * Q) : SpanState :=
  let '(ts, score) := sample in
  if negb (in_span st) && Qgeb score high then
    {| in_span := true; current_start := ts;
       current_scores := [score]; spans := spans st |}
  else if in_span st then
    if Qgeb score low then
      {| in_span := true; current_start := current_start st;
         current_scores := current_scores st ++ [score]; spans := spans st |}
    else
      {| in_span := false; current_start := current_start st;
         current_scores := [];
         spans := spans st ++ [(current_start st, ts, mean (current_scores st))] |}
  else st.

Definition span_loop (high low : Q) (samples : list (Z * Q)) (st : SpanState)
    : SpanState :=
  fold_left (span_step high low) samples st.

(** What follows the loop: a span still open is closed at [timestamps[-1]]. *)
Definition span_finish (timestamps : list Z) (st : SpanState) : list (Z * Z * Q) :=
  if in_span st
  then spans st ++ [(current_start st, last timestamps 0, mean (current_scores st))]
  else spans st.

Definition _extract_spans (timestamps : list Z) (scores : list Q) (high low : Q)
    : list (Z * Z * Q) :=
  match timestamps, scores with
  | [], _ => []
  | _, [] => []
  | first :: _, _ =>
      span_finish timestamps
        (span_loop high low (combine timestamps scores)
           {| in_span := false; current_start := first;
              current_scores := []; spans := [] |})
  end.

Section Temporal.
Variable P : Ports.

(** The relevance score of one frame in [localize]. *)
Definition frame_score (query_tokens : list string) (frame : FrameObservation) : Q :=
  let action_tokens := tokenize P (join " " (FrameObservation.actions frame)) in
  let overlap := overlap_score query_tokens action_tokens in
  if Qgtb overlap 0 then 1.0
  else match FrameObservation.actions frame with
       | _ :: _ => float 0.3
       | [] => float 0.1
       end.

(** The frames of the clip inside the tracklet's time span. *)
Definition tracklet_frames (tracklet : Tracklet) (clip : Clip) : list FrameObservation :=
  filter (in_window (Tracklet.t_start tracklet) (Tracklet.t_end tracklet))
         (Clip.frames clip).

(** The smoothed relevance curve over these frames. *)
Definition smoothed_scores (query_text : string) (smoothing_window_size : Z)
    (frames : list FrameObservation) : list Q :=
  let query_tokens := dedup String.eqb (tokenize P query_text) in
  smooth_curve (map (frame_score query_tokens) frames) smoothing_window_size.

(** The spans [localize] extracts. *)
Definition localize_spans (tracklet : Tracklet) (clip : Clip) (query_text : string)
    (smoothing_window_size : Z) (hysteresis_high hysteresis_low : Q)
    : list (Z * Z * Q) :=
  let frames := tracklet_frames tracklet clip in
  let timestamps := map FrameObservation.timestamp frames in
  let smoothed := smoothed_scores query_text smoothing_window_size frames in
  _extract_spans timestamps smoothed hysteresis_high hysteresis_low.

Definition localize (tracklet : Tracklet) (clip : Clip) (query_text : string)
    (smoothing_window_size : Z) (hysteresis_high hysteresis_low : Q)
    (mask_confidence_floor : Q) : TemporalSegment :=
  let query_tokens := dedup String.eqb (tokenize P query_text) in
  let found :=
    localize_spans tracklet clip query_text smoothing_window_size
                   hysteresis_high hysteresis_low in
  let failure_flags :=
    if Qltb (Tracklet.mask_confidence tracklet) mask_confidence_floor
    then ["low_mask_confidence"] else [] in
  let '(failure_flags, t_start, t_end, confidence) :=
    match found with
    | [] =>
        ((failure_flags ++ ["low_similarity"])%list,
         Tracklet.t_start tracklet, Tracklet.t_end tracklet, float 0.35)
    | (t_start, t_end, confidence) :: _ =>
        (failure_flags, t_start, t_end, confidence)
    end in
  let action :=
    if mem_string "exit" query_tokens then "person_exits_vehicle"
    else "tracked_activity" in
  {| TemporalSegment.segment_id :=
       stable_id P "SEG"
         [Tracklet.track_id tracklet; str_of_int t_start; str_of_int t_end; action];
     TemporalSegment.clip_id := Clip.clip_id clip;
     TemporalSegment.camera_id := Clip.camera_id clip;
     TemporalSegment.track_id := Tracklet.track_id tracklet;
     TemporalSegment.action := action;
     TemporalSegment.t_start := t_start;
     TemporalSegment.t_end := t_end;
     TemporalSegment.confidence := round3 confidence;
     TemporalSegment.failure_flags := sorted_set_str failure_flags |}.
End Temporal.

(** *** MultimodalSynthesizerAdapter *)

Definition has_evidence (claim : ClaimRecord) : bool :=
  match ClaimRecord.evidence_refs claim with
  | [] => false
  | _ => true
  end.

(** The first loop of [synthesize], on [(grounded_claims, redacted)]. *)
Definition redact_step (acc : list ClaimRecord * Z) (claim : ClaimRecord)
    : list ClaimRecord * Z :=
  let '(grounded_claims, redacted) := acc in
  if negb (has_evidence claim) then (grounded_claims, redacted + 1)
  else ((grounded_claims ++ [claim])%list, redacted).

Definition CONSERVATIVE_SUMMARY : string :=
  "Insufficient verified evidence to answer confidently. "
  ++ "Returning conservative output with uncertainty.".

(** [enumerate(l)], counting from [start]. *)
Fixpoint enumerate_from {A} (start : Z) (l : list A) : list (Z * A) :=
  match l with
  | [] => []
  | x :: l' => (start, x) :: enumerate_from (start + 1) l'
  end.

Definition appendix_line (claim : ClaimRecord) : string :=
  "claim=" ++ ClaimRecord.claim_id claim ++ " camera=" ++ ClaimRecord.camera_id claim
  ++ " t=(" ++ str_of_int (ClaimRecord.t_start claim) ++ ","
  ++ str_of_int (ClaimRecord.t_end claim) ++ ") evidence="
  ++ str_of_int (Z.of_nat (List.length (ClaimRecord.evidence_refs claim))).

Definition synthesize (query_text : string) (claims : list ClaimRecord)
    : SynthesisOutput :=
  let '(grounded_claims, redacted) := fold_left redact_step claims ([], 0) in
  let '(summary, evidence_appendix) :=
    match grounded_claims with
    | [] => (CONSERVATIVE_SUMMARY, [])
    | _ =>
        let lines :=
          map (fun entry =>
                 str_of_int (fst entry + 1) ++ ". " ++ ClaimRecord.text (snd entry))
              (enumerate_from 0 grounded_claims) in
        (join " " lines, map appendix_line grounded_claims)
    end in
  {| SynthesisOutput.summary := summary;
     SynthesisOutput.claims := grounded_claims;
     SynthesisOutput.evidence_appendix := evidence_appendix;
     SynthesisOutput.redacted_claim_count := redacted |}.

(** ** pipeline.py *)

(** The fields of [RuntimeConfig] that the engine reads. *)
Record RuntimeConfig : Type := {
  spec_version : string;
  stage2_initial_top_k_windows : Z;
  stage2_validated_top_k_windows : Z;
  stage2_min_validation_confidence : Q;
  sam3_min_mask_confidence : Q;
  sam3_retry_max_attempts : Z;
  max_cross_camera_travel_seconds : Z;
  smoothing_window_size : Z;
  hysteresis_high : Q;
  hysteresis_low : Q;
  config_required_state_keys : list string;
  config_branching_hooks : list string
}.

(** [StageCatalog.as_map()]: the stage names are fixed by the schema. *)
Definition stage_catalog (s : StageId) : string :=
  match s with
  | stage_1 => "activity_ingestion"
  | stage_2 => "temporal_retrieval"
  | stage_3 => "spatial_grounding"
  | stage_4 => "entity_resolution"
  | stage_5 => "temporal_localization"
  | stage_6 => "graph_memory"
  | stage_7 => "multimodal_synthesis"
  end.

Definition from_runtime_config (config : RuntimeConfig) : OrchestratorContract :=
  {| required_state_keys := config_required_state_keys config;
     branching_hooks := config_branching_hooks config |}.

(** [{key(x): x for x in l}] *)
Definition dict_of {V} (key : V -> string) (l : list V) : dict V :=
  fold_left (fun d x => dict_set (key x) x d) l [].

(** [l[i]] with Python's negative indices. *)
Definition py_index {A} (l : list A) (i : Z) : option A :=
  let n := Z.of_nat (List.length l) in
  if i <? 0 then
    if - i <=? n then nth_error l (Z.to_nat (n + i)) else None
  else nth_error l (Z.to_nat i).

(** [state.values[key] = ...] on the key set of the orchestration state. *)
Definition state_assign (key : string) (keys : list string) : list string :=
  if mem_string key keys then keys else (keys ++ [key])%list.

(** The keys of [_new_state(request).values]. *)
Definition _new_state_keys : list string :=
  [ "query_id"; "normalized_query"; "candidate_windows"; "grounded_tracks";
    "entity_links"; "temporal_segments"; "evidence_package" ].

Definition Qmax_list (l : list Q) : Q :=
  match l with
  | [] => 0
  | x :: l' => fold_left Qmax l' x
  end.

Definition vw_order (a b : ValidatedWindow) : bool :=
  Qgeb (ValidatedWindow.confidence a) (ValidatedWindow.confidence b).

(** [best_by_clip]: the first item of each clip, in order of first
    occurrence. *)
Fixpoint first_per_clip (seen : list string) (items : list ValidatedWindow)
    : list ValidatedWindow :=
  match items with
  | [] => []
  | item :: items' =>
      if mem_string (ValidatedWindow.clip_id item) seen
      then first_per_clip seen items'
      else item :: first_per_clip (ValidatedWindow.clip_id item :: seen) items'
  end.

(** The [unique] dictionary: per window id the item of highest confidence,
    the earlier one on a tie. *)
Definition unique_step (unique : dict ValidatedWindow) (item : ValidatedWindow)
    : dict ValidatedWindow :=
  match dict_get (ValidatedWindow.window_id item) unique with
  | None => dict_set (ValidatedWindow.window_id item) item unique
  | Some existing =>
      if Qgtb (ValidatedWindow.confidence item) (ValidatedWindow.confidence existing)
      then dict_set (ValidatedWindow.window_id item) item unique
      else unique
  end.

(** The clip-diversity pass: the first loop over [ranked]. *)
Fixpoint diversity_pass (top_k : Z) (ranked selected : list ValidatedWindow)
    (seen_clips : list string) : list ValidatedWindow :=
  match ranked with
  | [] => selected
  | item :: ranked' =>
      if mem_string (ValidatedWindow.clip_id item) seen_clips
      then diversity_pass top_k ranked' selected seen_clips
      else
        let selected := (selected ++ [item])%list in
        let seen_clips := ValidatedWindow.clip_id item :: seen_clips in
        if Z.of_nat (List.length selected) >=? top_k then selected
        else diversity_pass top_k ranked' selected seen_clips
  end.

(** The second loop over [ranked], filling the remaining slots. *)
Fixpoint fill_pass (top_k : Z) (ranked selected : list ValidatedWindow)
    : list ValidatedWindow :=
  match ranked with
  | [] => selected
  | item :: ranked' =>
      if Z.of_nat (List.length selected) >=? top_k then selected
      else if mem_string (ValidatedWindow.window_id item)
                (map ValidatedWindow.window_id selected)
      then fill_pass top_k ranked' selected
      else fill_pass top_k ranked' (selected ++ [item])%list
  end.

(** Deduplication and final selection of stage 2. *)
Definition select_windows (top_k_validated : Z) (validated : list ValidatedWindow)
    : list ValidatedWindow :=
  let unique := fold_left unique_step validated [] in
  let ranked := sorted_by vw_order (dict_values unique) in
  let selected := diversity_pass top_k_validated ranked [] [] in
  let selected := fill_pass top_k_validated ranked selected in
  take top_k_validated selected.

Definition seg_overlaps (segment other : TemporalSegment) : bool :=
  negb (String.eqb (TemporalSegment.segment_id other) (TemporalSegment.segment_id segment))
  && String.eqb (TemporalSegment.clip_id other) (TemporalSegment.clip_id segment)
  && negb ((TemporalSegment.t_end other <? TemporalSegment.t_start segment)
           || (TemporalSegment.t_start other >? TemporalSegment.t_end segment)).

(** [segments[idx] = value] for [idx] in range. *)
Fixpoint list_set {A} (idx : nat) (value : A) (l : list A) : list A :=
  match l, idx with
  | [], _ => []
  | _ :: l', O => value :: l'
  | x :: l', S i => x :: list_set i value l'
  end.

(** One iteration of the ambiguity pass of stage 5 at position [idx]. *)
Definition ambiguity_step (segments : list TemporalSegment) (idx : nat)
    : list TemporalSegment :=
  match nth_error segments idx with
  | None => segments
  | Some segment =>
      match filter (seg_overlaps segment) segments with
      | [] => segments
      | _ =>
          let flags :=
            sorted_set_str
              (TemporalSegment.failure_flags segment ++ ["multi_actor_ambiguity"]) in
          list_set idx
            {| TemporalSegment.segment_id := TemporalSegment.segment_id segment;
               TemporalSegment.clip_id := TemporalSegment.clip_id segment;
               TemporalSegment.camera_id := TemporalSegment.camera_id segment;
               TemporalSegment.track_id := TemporalSegment.track_id segment;
               TemporalSegment.action := TemporalSegment.action segment;
               TemporalSegment.t_start := TemporalSegment.t_start segment;
               TemporalSegment.t_end := TemporalSegment.t_end segment;
               TemporalSegment.confidence := TemporalSegment.confidence segment;
               TemporalSegment.failure_flags := flags |}
            segments
      end
  end.

(** [next(x for x in l if p x, None)] *)
Definition first_such {A} (p : A -> bool) (l : list A) : option A := find p l.

Section Pipeline.
Variable P : Ports.
Variable config : RuntimeConfig.

(** *** Stage 1 *)

Definition window_tokens (frames : list FrameObservation) : list string :=
  sorted_set_str
    (flat_map (fun frame =>
                 tokenize P (join " " (FrameObservation.objects frame
                                         ++ FrameObservation.actions frame)))
              frames).

Definition index_frame (clip : Clip) (route_id : RouteId) (window_id : string)
    (semantic_tokens : list string) (frame : FrameObservation)
    : M PipelineStores unit :=
  let ts := FrameObservation.timestamp frame in
  let frame_id := stable_id P "FRAME" [Clip.clip_id clip; str_of_int ts] in
  let embedding := siglip_embed_frame P (Clip.clip_id clip) ts semantic_tokens in
  let embedding_id := stable_id P "EMB" [frame_id; "siglip2"] in
  frame_index_add
    {| KeyframeRecord.frame_id := frame_id;
       KeyframeRecord.window_id := window_id;
       KeyframeRecord.clip_id := Clip.clip_id clip;
       KeyframeRecord.camera_id := Clip.camera_id clip;
       KeyframeRecord.timestamp := ts;
       KeyframeRecord.embedding := embedding;
       KeyframeRecord.embedding_id := embedding_id;
       KeyframeRecord.semantic_tokens := semantic_tokens;
       KeyframeRecord.route_id := route_id |}.

(** The body of the loop over [enumerate(window_spans)]. *)
Definition ingest_window (clip : Clip) (route_id : RouteId)
    (entry : Z * (Z * Z * string)) : M PipelineStores ActiveWindow :=
  let '(idx, (t_start, t_end, reason)) := entry in
  let frames := filter (in_window t_start t_end) (Clip.frames clip) in
  let semantic_tokens := window_tokens frames in
  let window_id :=
    stable_id P "WIN"
      [Clip.clip_id clip; RouteId_str route_id; str_of_int idx;
       str_of_int t_start; str_of_int t_end] in
  for_each frames (index_frame clip route_id window_id semantic_tokens) ;;;
  ret {| ActiveWindow.window_id := window_id;
         ActiveWindow.clip_id := Clip.clip_id clip;
         ActiveWindow.camera_id := Clip.camera_id clip;
         ActiveWindow.route_id := route_id;
         ActiveWindow.t_start := t_start;
         ActiveWindow.t_end := t_end;
         ActiveWindow.reason := reason;
         ActiveWindow.semantic_tokens := semantic_tokens |}.

Definition ingest_clip (clip : Clip) : M PipelineStores (list ActiveWindow) :=
  let route_id := choose_route clip in
  let window_spans := extract_active_windows P clip route_id in
  map_m (ingest_window clip route_id) (enumerate_from 0 window_spans).

Definition _stage_1_activity_ingestion (request : QueryRequest)
    : M PipelineStores (list ActiveWindow) :=
  per_clip <- map_m ingest_clip (QueryRequest.clips request) ;;
  ret (List.concat per_clip).

(** *** Stage 2 *)

Definition unit_sim (a b : Vec) : Q := fdiv (fadd (cosine_similarity P a b) 1.0) 2.0.

Definition window_confidence (query_tokens : list string) (query_lit_embedding : Vec)
    (features : WindowFeatures) : Q :=
  let pooled_sim := unit_sim query_lit_embedding (WindowFeatures.pooled_embedding features) in
  let step_sims :=
    map (unit_sim query_lit_embedding) (WindowFeatures.per_timestep_embeddings features) in
  let step_sim := Qmax_list step_sims in
  let token_sim := overlap_score query_tokens (WindowFeatures.semantic_tokens features) in
  round3 (fadd (fadd (fmul (float 0.45) pooled_sim) (fmul (float 0.35) step_sim))
               (fmul (float 0.20) token_sim)).

(** The body of the loop of [_score_windows]; [None] is [continue]. *)
Definition score_window (windows_by_id : dict ActiveWindow) (clip_map : dict Clip)
    (query_text : string) (query_tokens : list string) (query_lit_embedding : Vec)
    (window_id : string) : M PipelineStores (option ValidatedWindow) :=
  match dict_get window_id windows_by_id with
  | None => ret None
  | Some window =>
      let cache_key := "l1:" ++ ActiveWindow.window_id window in
      cached_features <- get_l1 cache_key ;;
      features <-
        match cached_features with
        | None =>
            match dict_get (ActiveWindow.clip_id window) clip_map with
            | None => raise (KeyError (ActiveWindow.clip_id window))
            | Some clip =>
                let features := extract_window_features P window clip in
                set_l1 cache_key features ;;; ret features
            end
        | Some features => ret features
        end ;;
      window_index_upsert (ActiveWindow.window_id window)
                          (WindowFeatures.pooled_embedding features) ;;;
      ret (Some
        {| ValidatedWindow.window_id := ActiveWindow.window_id window;
           ValidatedWindow.clip_id := ActiveWindow.clip_id window;
           ValidatedWindow.camera_id := ActiveWindow.camera_id window;
           ValidatedWindow.t_start := ActiveWindow.t_start window;
           ValidatedWindow.t_end := ActiveWindow.t_end window;
           ValidatedWindow.confidence :=
             window_confidence query_tokens query_lit_embedding features;
           ValidatedWindow.query_text := query_text |})
  end.

Definition somes {A} (l : list (option A)) : list A :=
  flat_map (fun o => match o with Some x => [x] | None => [] end) l.

Definition _score_windows (candidate_ids : list string)
    (windows_by_id : dict ActiveWindow) (request : QueryRequest)
    (query_text : string) (query_tokens : list string) (query_lit_embedding : Vec)
    : M PipelineStores (list ValidatedWindow) :=
  let clip_map := dict_of Clip.clip_id (QueryRequest.clips request) in
  scores <-
    map_m (score_window windows_by_id clip_map query_text query_tokens
                        query_lit_embedding)
          (dedup String.eqb candidate_ids) ;;
  ret (sorted_by vw_order (somes scores)).

(** What one sub-query adds to [validated]. *)
Definition subquery_pass (candidate_ids : list string)
    (windows_by_id : dict ActiveWindow) (request : QueryRequest) (threshold : Q)
    (subquery : string) : M PipelineStores (list ValidatedWindow) :=
  let sub_tokens := tokenize P subquery in
  let sub_embed := lit_head_embed_text P subquery in
  rescored <-
    _score_windows candidate_ids windows_by_id request subquery sub_tokens sub_embed ;;
  let lowered := Qmax (float 0.35) (fsub threshold (float 0.15)) in
  ret (filter (fun item => Qgeb (ValidatedWindow.confidence item) lowered) rescored
         ++ firstn 1 rescored)%list.

(** The candidates of stage 2 as scored under the full query, and the
    list [validated] as it stands before deduplication. *)
Definition validated_pool (request : QueryRequest) (active_windows : list ActiveWindow)
    : M PipelineStores (list ValidatedWindow * list ValidatedWindow) :=
  let query_text := QueryRequest.query_text request in
  let query_embedding := siglip_embed_text P query_text in
  let query_lit_embedding := lit_head_embed_text P query_text in
  let query_tokens := tokenize P query_text in
  let top_k_initial := stage2_initial_top_k_windows config in
  stores <- get ;;
  let frame_hits :=
    frame_index_search P (PipelineStores.frame_index stores) query_embedding
                       top_k_initial in
  let windows_by_id := dict_of ActiveWindow.window_id active_windows in
  let candidate_ids :=
    filter (fun id => match dict_get id windows_by_id with Some _ => true | None => false end)
           (map (fun hit => KeyframeRecord.window_id (snd hit)) frame_hits) in
  scored <-
    _score_windows candidate_ids windows_by_id request query_text query_tokens
                   query_lit_embedding ;;
  let threshold := stage2_min_validation_confidence config in
  let validated :=
    filter (fun item => Qgeb (ValidatedWindow.confidence item) threshold) scored in
  added <-
    map_m (subquery_pass candidate_ids windows_by_id request threshold)
          (tl (decompose P query_text)) ;;
  let validated := (validated ++ List.concat added)%list in
  let validated :=
    match validated, scored with
    | [], _ :: _ => first_per_clip [] scored
    | _, _ => validated
    end in
  ret (scored, validated).

Definition _stage_2_temporal_retrieval (request : QueryRequest)
    (active_windows : list ActiveWindow) : M PipelineStores (list ValidatedWindow) :=
  pool <- validated_pool request active_windows ;;
  ret (select_windows (stage2_validated_top_k_windows config) (snd pool)).

(** *** Stage 3 *)

Definition _detector_tracker_fallback (window : ValidatedWindow) (clip : Clip)
    : M PipelineStores (list Tracklet) :=
  let labels :=
    sorted_set_str
      (filter (fun obj =>
                 startswith (str_lower P obj) "person"
                 || contains "suv" (str_lower P obj)
                 || contains "car" (str_lower P obj))
              (window_objects window clip)) in
  map_m (fun label =>
           let entity_type :=
             if startswith (str_lower P label) "person" then person else object in
           let track_id :=
             stable_id P "FALLBACK_TRACK"
               [Clip.clip_id clip; ValidatedWindow.window_id window; label] in
           let overlay_uri :=
             "overlay://" ++ Clip.clip_id clip ++ "/" ++ track_id ++ ".json" in
           artifact_put overlay_uri ("fallback_overlay:" ++ label) ;;;
           ret {| Tracklet.track_id := track_id;
                  Tracklet.clip_id := Clip.clip_id clip;
                  Tracklet.camera_id := Clip.camera_id clip;
                  Tracklet.window_id := ValidatedWindow.window_id window;
                  Tracklet.entity_type := entity_type;
                  Tracklet.label := label;
                  Tracklet.t_start := ValidatedWindow.t_start window;
                  Tracklet.t_end := ValidatedWindow.t_end window;
                  Tracklet.mask_confidence := float 0.51;
                  Tracklet.overlay_uri := overlay_uri |})
        (firstn 2 labels).

(** [variants[min(attempt, len(variants) - 1)]] *)
Definition variant_at (variants : list string) (attempt : Z) : option string :=
  py_index variants (Z.min attempt (Z.of_nat (List.length variants) - 1)).

(** The retry loop over [range(max_retries + 1)], on
    [(best_score, best_tracklets)]; the recursion ends at [break]. *)
Fixpoint grounding_attempts (window : ValidatedWindow) (clip : Clip)
    (variants : list string) (threshold : Q) (attempts : list Z)
    (best_score : Q) (best_tracklets : list Tracklet)
    : M PipelineStores (Q * list Tracklet) :=
  match attempts with
  | [] => ret (best_score, best_tracklets)
  | attempt :: attempts' =>
      match variant_at variants attempt with
      | None => raise IndexError
      | Some query_variant =>
          candidate_tracklets <- ground_window P window clip query_variant ;;
          match candidate_tracklets with
          | [] =>
              grounding_attempts window clip variants threshold attempts'
                                 best_score best_tracklets
          | _ =>
              let median_conf := mean (map Tracklet.mask_confidence candidate_tracklets) in
              let improved := Qgtb median_conf best_score in
              let best_score := if improved then median_conf else best_score in
              let best_tracklets :=
                if improved then candidate_tracklets else best_tracklets in
              if Qgeb median_conf threshold then ret (best_score, best_tracklets)
              else grounding_attempts window clip variants threshold attempts'
                                      best_score best_tracklets
          end
      end
  end.

(** [range(n)] *)
Definition range (n : Z) : list Z := map Z.of_nat (seq 0 (Z.to_nat n)).

Definition ground_validated_window (request : QueryRequest) (clips_by_id : dict Clip)
    (window : ValidatedWindow) : M PipelineStores (list Tracklet) :=
  let threshold := sam3_min_mask_confidence config in
  let max_retries := sam3_retry_max_attempts config in
  match dict_get (ValidatedWindow.clip_id window) clips_by_id with
  | None => raise (KeyError (ValidatedWindow.clip_id window))
  | Some clip =>
      let variants := decompose P (QueryRequest.query_text request) in
      best <- grounding_attempts window clip variants threshold
                (range (max_retries + 1)) (-1.0)%Q [] ;;
      let '(best_score, best_tracklets) := best in
      best_tracklets <-
        (if Qltb best_score threshold then
           fallback_tracklets <- _detector_tracker_fallback window clip ;;
           match fallback_tracklets with
           | [] => ret best_tracklets
           | _ => ret fallback_tracklets
           end
         else ret best_tracklets) ;;
      for_each best_tracklets
        (fun tracklet =>
           if Qgeb (Tracklet.mask_confidence tracklet) threshold
           then set_l2 ("l2:" ++ Tracklet.track_id tracklet)
                       (tokenize P (Tracklet.label tracklet))
           else ret tt) ;;;
      ret best_tracklets
  end.

Definition _stage_3_spatial_grounding (request : QueryRequest)
    (validated_windows : list ValidatedWindow) (clips_by_id : dict Clip)
    : M PipelineStores (list Tracklet) :=
  per_window <- map_m (ground_validated_window request clips_by_id) validated_windows ;;
  ret (List.concat per_window).

(** *** Stage 4 *)

Definition _stage_4_entity_resolution (request : QueryRequest)
    (tracklets : list Tracklet) : list EntityLink :=
  resolve P tracklets (QueryRequest.camera_topology request)
          (max_cross_camera_travel_seconds config).

(** *** Stage 5 *)

Definition is_person (track : Tracklet) : bool :=
  EntityType_eqb (Tracklet.entity_type track) person.

Definition _stage_5_temporal_localization (request : QueryRequest)
    (tracklets : list Tracklet) (clips_by_id : dict Clip)
    : result (list TemporalSegment) :=
  let person_tracklets := filter is_person tracklets in
  let candidate_tracklets :=
    match person_tracklets with
    | [] => tracklets
    | _ => person_tracklets
    end in
  let fix localize_all (l : list Tracklet) : result (list TemporalSegment) :=
    match l with
    | [] => Ok []
    | tracklet :: l' =>
        match dict_get (Tracklet.clip_id tracklet) clips_by_id with
        | None => Raise (KeyError (Tracklet.clip_id tracklet))
        | Some clip =>
            let segment :=
              localize P tracklet clip (QueryRequest.query_text request)
                       (smoothing_window_size config) (hysteresis_high config)
                       (hysteresis_low config) (sam3_min_mask_confidence config) in
            match localize_all l' with
            | Ok segments => Ok (segment :: segments)
            | Raise e => Raise e
            end
        end
    end in
  match localize_all candidate_tracklets with
  | Raise e => Raise e
  | Ok segments =>
      Ok (fold_left ambiguity_step (seq 0 (List.length segments)) segments)
  end.

(** *** Stage 6 *)

Definition _build_evidence_refs_for_track (request : QueryRequest) (track : Tracklet)
    (segment : TemporalSegment) : M PipelineStores (list EvidenceRef) :=
  stores <- get ;;
  let embedding_id :=
    match first_such
            (fun record =>
               String.eqb (KeyframeRecord.clip_id record) (Tracklet.clip_id track)
               && (TemporalSegment.t_start segment <=? KeyframeRecord.timestamp record)
               && (KeyframeRecord.timestamp record <=? TemporalSegment.t_end segment))
            (PipelineStores.frame_index stores) with
    | Some record => KeyframeRecord.embedding_id record
    | None => stable_id P "EMB" [Tracklet.track_id track; "fallback"]
    end in
  let evidence :=
    {| EvidenceRef.clip_id := Tracklet.clip_id track;
       EvidenceRef.camera_id := Tracklet.camera_id track;
       EvidenceRef.frame_range :=
         (TemporalSegment.t_start segment, TemporalSegment.t_end segment);
       EvidenceRef.overlay_uri := Tracklet.overlay_uri track;
       EvidenceRef.embedding_id := embedding_id;
       EvidenceRef.model_version := spec_version config |} in
  evidence_append (Tracklet.track_id track) evidence ;;;
  evidence_get (Tracklet.track_id track).

Definition entity_node (link : EntityLink) : GraphNode :=
  {| GraphNode.node_id := EntityLink.entity_id link;
     GraphNode.node_type :=
       match EntityLink.entity_type link with
       | person => "PersonEntityID"
       | object => "ObjectClusterID"
       end;
     GraphNode.properties :=
       [ ("label", PStr (EntityLink.label link));
         ("confidence", PFloat (EntityLink.confidence link));
         ("resolved", PBool (EntityLink.resolved link)) ] |}.

(** [entity_by_track], filled link by link. *)
Definition entity_by_track_of (entity_links : list EntityLink) : dict EntityLink :=
  fold_left
    (fun d link =>
       fold_left (fun d track_id => dict_set track_id link d)
                 (EntityLink.track_ids link) d)
    entity_links [].

Definition track_node (track : Tracklet) : GraphNode :=
  {| GraphNode.node_id := Tracklet.track_id track;
     GraphNode.node_type := "TrackID";
     GraphNode.properties :=
       [ ("clip_id", PStr (Tracklet.clip_id track));
         ("camera_id", PStr (Tracklet.camera_id track));
         ("label", PStr (Tracklet.label track)) ] |}.

Definition camera_node (track : Tracklet) : GraphNode :=
  {| GraphNode.node_id := Tracklet.camera_id track;
     GraphNode.node_type := "CameraID";
     GraphNode.properties := [ ("camera_id", PStr (Tracklet.camera_id track)) ] |}.

Definition upsert_track_nodes (track : Tracklet) : M PipelineStores unit :=
  upsert_node (track_node track) ;;;
  upsert_node (camera_node track).

(** The list [same_window_object_entities]; the lookup
    [track_by_id[segment.track_id]] is evaluated for each track of the
    segment's clip. *)
Fixpoint same_window_object_entities (track_by_id : dict Tracklet)
    (entity_by_track : dict EntityLink) (segment : TemporalSegment)
    (tracklets : list Tracklet) : result (list (option EntityLink)) :=
  match tracklets with
  | [] => Ok []
  | track :: tracklets' =>
      let rest :=
        same_window_object_entities track_by_id entity_by_track segment tracklets' in
      if String.eqb (Tracklet.clip_id track) (TemporalSegment.clip_id segment) then
        match dict_get (TemporalSegment.track_id segment) track_by_id with
        | None => Raise (KeyError (TemporalSegment.track_id segment))
        | Some own =>
            if String.eqb (Tracklet.window_id track) (Tracklet.window_id own)
               && EntityType_eqb (Tracklet.entity_type track) object
            then
              match rest with
              | Ok l => Ok (dict_get (Tracklet.track_id track) entity_by_track :: l)
              | Raise e => Raise e
              end
            else rest
        end
      else rest
  end.

Definition is_object_link (o : option EntityLink) : bool :=
  match o with
  | Some link => EntityType_eqb (EntityLink.entity_type link) object
  | None => false
  end.

(** The body of the EXITS loop: the edge of one segment, if any. *)
Definition exits_edge (request : QueryRequest) (tracklets : list Tracklet)
    (track_by_id : dict Tracklet) (entity_by_track : dict EntityLink)
    (segment : TemporalSegment) : M PipelineStores (list GraphEdge) :=
  match dict_get (TemporalSegment.track_id segment) entity_by_track with
  | None => ret []
  | Some person_link =>
      if negb (EntityType_eqb (EntityLink.entity_type person_link) person) then ret []
      else
        match same_window_object_entities track_by_id entity_by_track segment tracklets with
        | Raise e => raise e
        | Ok entities =>
            match first_such is_object_link entities with
            | Some (Some object_link) =>
                match dict_get (TemporalSegment.track_id segment) track_by_id with
                | None => raise (KeyError (TemporalSegment.track_id segment))
                | Some track =>
                    evidence_refs <- _build_evidence_refs_for_track request track segment ;;
                    let edge :=
                      {| GraphEdge.edge_id :=
                           stable_id P "EDGE"
                             [ "EXITS"; EntityLink.entity_id person_link;
                               EntityLink.entity_id object_link;
                               TemporalSegment.segment_id segment ];
                         GraphEdge.edge_type := EXITS;
                         GraphEdge.source_id := EntityLink.entity_id person_link;
                         GraphEdge.target_id := EntityLink.entity_id object_link;
                         GraphEdge.t_start := TemporalSegment.t_start segment;
                         GraphEdge.t_end := TemporalSegment.t_end segment;
                         GraphEdge.camera_id := TemporalSegment.camera_id segment;
                         GraphEdge.confidence := TemporalSegment.confidence segment;
                         GraphEdge.evidence_refs := evidence_refs |} in
                    add_edge edge ;;; ret [edge]
                end
            | _ => ret []
            end
        end
  end.

(** The body of the inner MOVES_TO loop, for the later track of a pair. *)
Definition moves_to_edge (request : QueryRequest) (link : EntityLink)
    (curr : Tracklet) : M PipelineStores GraphEdge :=
  evidence_refs <-
    _build_evidence_refs_for_track request curr
      {| TemporalSegment.segment_id := stable_id P "TMPSEG" [Tracklet.track_id curr];
         TemporalSegment.clip_id := Tracklet.clip_id curr;
         TemporalSegment.camera_id := Tracklet.camera_id curr;
         TemporalSegment.track_id := Tracklet.track_id curr;
         TemporalSegment.action := "moves_to_camera";
         TemporalSegment.t_start := Tracklet.t_start curr;
         TemporalSegment.t_end := Tracklet.t_end curr;
         TemporalSegment.confidence := float 0.8;
         TemporalSegment.failure_flags := [] |} ;;
  let edge :=
    {| GraphEdge.edge_id :=
         stable_id P "EDGE"
           [ "MOVES_TO"; EntityLink.entity_id link; Tracklet.camera_id curr;
             Tracklet.track_id curr ];
       GraphEdge.edge_type := MOVES_TO;
       GraphEdge.source_id := EntityLink.entity_id link;
       GraphEdge.target_id := Tracklet.camera_id curr;
       GraphEdge.t_start := Tracklet.t_start curr;
       GraphEdge.t_end := Tracklet.t_end curr;
       GraphEdge.camera_id := Tracklet.camera_id curr;
       GraphEdge.confidence := if EntityLink.resolved link then float 0.8 else float 0.45;
       GraphEdge.evidence_refs := evidence_refs |} in
  add_edge edge ;;; ret edge.

Definition moves_to_edges (request : QueryRequest) (track_by_id : dict Tracklet)
    (link : EntityLink) : M PipelineStores (list GraphEdge) :=
  match EntityLink.entity_type link with
  | object => ret []
  | person =>
      let linked_tracks :=
        somes (map (fun track_id => dict_get track_id track_by_id)
                   (EntityLink.track_ids link)) in
      let linked_tracks := sorted_by track_order linked_tracks in
      map_m (moves_to_edge request link) (tl linked_tracks)
  end.

Definition _stage_6_graph_memory (request : QueryRequest) (tracklets : list Tracklet)
    (entity_links : list EntityLink) (temporal_segments : list TemporalSegment)
    : M PipelineStores (list GraphNode * list GraphEdge) :=
  let track_by_id := dict_of Tracklet.track_id tracklets in
  let entity_by_track := entity_by_track_of entity_links in
  for_each entity_links (fun link => upsert_node (entity_node link)) ;;;
  for_each tracklets upsert_track_nodes ;;;
  exits <-
    map_m (exits_edge request tracklets track_by_id entity_by_track)
          temporal_segments ;;
  moves <- map_m (moves_to_edges request track_by_id) entity_links ;;
  stores <- get ;;
  ret (dict_values (GraphStore.nodes (PipelineStores.graph_store stores)),
       (List.concat exits ++ List.concat moves)%list).

(** *** Stage 7 *)

Definition claim_of_edge (edge : GraphEdge) : ClaimRecord :=
  let text :=
    match GraphEdge.edge_type edge with
    | EXITS =>
        "Person entity " ++ GraphEdge.source_id edge ++ " exited object entity "
        ++ GraphEdge.target_id edge ++ " at camera " ++ GraphEdge.camera_id edge
        ++ " between " ++ str_of_int (GraphEdge.t_start edge) ++ "s and "
        ++ str_of_int (GraphEdge.t_end edge) ++ "s."
    | MOVES_TO =>
        "Person entity " ++ GraphEdge.source_id edge ++ " moved to camera "
        ++ GraphEdge.target_id edge ++ " during "
        ++ str_of_int (GraphEdge.t_start edge) ++ "s to "
        ++ str_of_int (GraphEdge.t_end edge) ++ "s."
    end in
  {| ClaimRecord.claim_id := stable_id P "CLAIM" [GraphEdge.edge_id edge];
     ClaimRecord.text := text;
     ClaimRecord.entity_ids := [GraphEdge.source_id edge; GraphEdge.target_id edge];
     ClaimRecord.camera_id := GraphEdge.camera_id edge;
     ClaimRecord.t_start := GraphEdge.t_start edge;
     ClaimRecord.t_end := GraphEdge.t_end edge;
     ClaimRecord.confidence := GraphEdge.confidence edge;
     ClaimRecord.evidence_refs := GraphEdge.evidence_refs edge |}.

Definition _stage_7_multimodal_synthesis (query_text : string)
    (graph_edges : list GraphEdge) : SynthesisOutput :=
  synthesize query_text (map claim_of_edge graph_edges).

(** *** The engine *)

Definition lift {A} (r : result A) : M PipelineStores A :=
  match r with
  | Ok a => ret a
  | Raise e => raise e
  end.

(** [_run_stage]: the stage's name enters [metrics.stage_durations_ms]. *)
Definition timed (stage_id : StageId) (durations : list string) : list string :=
  state_assign (stage_catalog stage_id) durations.

Definition run (request : QueryRequest) : M PipelineStores PipelineResult :=
  let clips_by_id := dict_of Clip.clip_id (QueryRequest.clips request) in
  let durations : list string := [] in
  let state := _new_state_keys in
  active_windows <- _stage_1_activity_ingestion request ;;
  let durations := timed stage_1 durations in
  let state := state_assign "candidate_windows" state in
  validated_windows <- _stage_2_temporal_retrieval request active_windows ;;
  let durations := timed stage_2 durations in
  let state := state_assign "candidate_windows" state in
  tracklets <- _stage_3_spatial_grounding request validated_windows clips_by_id ;;
  let durations := timed stage_3 durations in
  let state := state_assign "grounded_tracks" state in
  let entity_links := _stage_4_entity_resolution request tracklets in
  let durations := timed stage_4 durations in
  let state := state_assign "entity_links" state in
  temporal_segments <- lift (_stage_5_temporal_localization request tracklets clips_by_id) ;;
  let durations := timed stage_5 durations in
  let state := state_assign "temporal_segments" state in
  graph <- _stage_6_graph_memory request tracklets entity_links temporal_segments ;;
  let durations := timed stage_6 durations in
  let synthesis :=
    _stage_7_multimodal_synthesis (QueryRequest.query_text request) (snd graph) in
  let durations := timed stage_7 durations in
  let state := state_assign "evidence_package" state in
  lift (validate_state_snapshot (from_runtime_config config) state) ;;;
  stores <- get ;;
  let cache := PipelineStores.feature_cache stores in
  ret {| PipelineResult.query_id := QueryRequest.query_id request;
         PipelineResult.query_text := QueryRequest.query_text request;
         PipelineResult.active_windows := active_windows;
         PipelineResult.validated_windows := validated_windows;
         PipelineResult.tracklets := tracklets;
         PipelineResult.entity_links := entity_links;
         PipelineResult.temporal_segments := temporal_segments;
         PipelineResult.graph_nodes := fst graph;
         PipelineResult.graph_edges := snd graph;
         PipelineResult.synthesis := synthesis;
         PipelineResult.metrics :=
           {| StageMetrics.stage_durations_ms := durations;
              StageMetrics.cache_hits := FeatureCacheStore.hits cache;
              StageMetrics.cache_misses := FeatureCacheStore.misses cache |} |}.
End Pipeline.

(** ** Stand-ins for the ports

    Used to evaluate the embedding on concrete inputs: ASCII case folding
    and stripping, a polynomial digest in place of SHA-1, an empty
    embedding, and a similarity that is constantly [0]. *)

Definition ascii_lower_char (a : ascii) : ascii :=
  let n := nat_of_ascii a in
  if ((65 <=? n) && (n <=? 90))%nat then ascii_of_nat (n + 32) else a.

Fixpoint ascii_lower (s : string) : string :=
  match s with
  | EmptyString => EmptyString
  | String a s' => String (ascii_lower_char a) (ascii_lower s')
  end.

Definition is_space (a : ascii) : bool :=
  let n := nat_of_ascii a in
  ((9 <=? n) && (n <=? 13) || (28 <=? n) && (n <=? 32))%nat.

Fixpoint lstrip (s : string) : string :=
  match s with
  | EmptyString => EmptyString
  | String a s' => if is_space a then lstrip s' else s
  end.

Definition ascii_strip (s : string) : string :=
  rev_string (lstrip (rev_string (lstrip s))).

Definition hex_digit (n : Z) : ascii :=
  ascii_of_nat (Z.to_nat (if n <? 10 then 48 + n else 87 + n)).

Fixpoint hex_digits (count : nat) (n : Z) (acc : string) : string :=
  match count with
  | O => acc
  | S count' => hex_digits count' (n / 16) (String (hex_digit (n mod 16)) acc)
  end.

Fixpoint poly_hash (s : string) (h : Z) : Z :=
  match s with
  | EmptyString => h
  | String a s' => poly_hash s' ((h * 257 + Z.of_nat (nat_of_ascii a) + 1) mod 16 ^ 10)
  end.

(** Forty hexadecimal digits; the ten that [stable_id] keeps carry the hash. *)
Definition demo_digest (s : string) : string :=
  hex_digits 10 (poly_hash s 7) "000000000000000000000000000000".

Definition demo_ports : Ports :=
  {| str_lower := ascii_lower;
     str_strip := ascii_strip;
     sha1_hexdigest := demo_digest;
     deterministic_vector := fun _ => [];
     cosine_similarity := fun _ _ => 0%Q |}.

Definition demo_contract : OrchestratorContract :=
  {| required_state_keys := REQUIRED_ORCHESTRATION_STATE_KEYS;
     branching_hooks := map fst HOOK_TO_STAGE |}.

(** ** Specification vocabulary *)

(** Every two consecutive elements of the list are related by [R]. *)
Definition consecutive {A} (R : A -> A -> Prop) (l : list A) : Prop := Sorted R l.

(** The order of the sort key [(t_start, camera_id)]. *)
Definition key_le (a b : Tracklet) : Prop :=
  Tracklet.t_start a < Tracklet.t_start b
  \/ (Tracklet.t_start a = Tracklet.t_start b
      /\ String.leb (Tracklet.camera_id a) (Tracklet.camera_id b) = true).

(** The topology declares [later] a neighbour of [earlier]: the entry of
    [earlier] lists it.  A camera without an entry has no neighbour, and
    the declaration has a direction. *)
Definition declared_neighbor (camera_topology : dict (list string))
    (earlier later : string) : Prop :=
  exists listed,
    dict_get earlier camera_topology = Some listed /\ In later listed.

(** A cross-camera transition is accepted: the later camera is a declared
    neighbour of the earlier one, or the gap is within the travel time. *)
Definition accepted (camera_topology : dict (list string)) (max_travel : Z)
    (prev curr : Tracklet) : Prop :=
  declared_neighbor camera_topology (Tracklet.camera_id prev) (Tracklet.camera_id curr)
  \/ Z.max 0 (Tracklet.t_start curr - Tracklet.t_end prev) <= max_travel.

(** A pair passes the walk: same camera, or an accepted transition. *)
Definition pair_ok (camera_topology : dict (list string)) (max_travel : Z)
    (prev curr : Tracklet) : Prop :=
  Tracklet.camera_id prev = Tracklet.camera_id curr
  \/ accepted camera_topology max_travel prev curr.

Section Grouping.
Variable P : Ports.

Definition lowered_label (t : Tracklet) : string := str_lower P (Tracklet.label t).

Definition of_kind (kind : EntityType) (t : Tracklet) : bool :=
  EntityType_eqb (Tracklet.entity_type t) kind.

(** The tracklets of a kind whose lowercased label is [label], in input
    order. *)
Definition members (kind : EntityType) (label : string) (tracklets : list Tracklet)
    : list Tracklet :=
  filter (fun t => of_kind kind t && String.eqb (lowered_label t) label) tracklets.

(** The lowercased labels of a kind, by first occurrence. *)
Definition labels_of (kind : EntityType) (tracklets : list Tracklet) : list string :=
  dedup String.eqb (map lowered_label (filter (of_kind kind) tracklets)).

Definition object_link (tracklets : list Tracklet) (label : string) : EntityLink :=
  {| EntityLink.entity_id := stable_id P "OBJ" [label];
     EntityLink.entity_type := object;
     EntityLink.label := label;
     EntityLink.track_ids := sorted_track_ids (members object label tracklets);
     EntityLink.confidence := float 0.83;
     EntityLink.resolved := true |}.
End Grouping.


Section FrameSignals.
Variable P : Ports.

(** The tokens one frame contributes to a window's semantic tokens in
    stage 1: [tokenize(" ".join([*frame.objects, *frame.actions]))]. *)
Definition frame_tokens (frame : FrameObservation) : list string :=
  tokenize P (join " " (FrameObservation.objects frame ++ FrameObservation.actions frame)).

End FrameSignals.





(** A clip with two seconds of walking followed by one of sitting, and a
    person tracklet over the three seconds. *)
Definition action_frame (ts : Z) (action : string) : FrameObservation :=
  {| FrameObservation.timestamp := ts;
     FrameObservation.objects := ["person_1"];
     FrameObservation.actions := [action];
     FrameObservation.background_motion := float 0.1 |}.

Definition walk_sit_clip : Clip :=
  {| Clip.clip_id := "clip_ws";
     Clip.camera_id := "cam_a";
     Clip.camera_type := static;
     Clip.location := exterior;
     Clip.duration_seconds := 3;
     Clip.frames := [action_frame 0 "walk"; action_frame 1 "walk"; action_frame 2 "sit"];
     Clip.metadata := Metadata.mk false None |}.

Definition walker : Tracklet :=
  {| Tracklet.track_id := "TRACK_walker";
     Tracklet.clip_id := "clip_ws";
     Tracklet.camera_id := "cam_a";
     Tracklet.window_id := "WIN_ws";
     Tracklet.entity_type := person;
     Tracklet.label := "person_1";
     Tracklet.t_start := 0;
     Tracklet.t_end := 2;
     Tracklet.mask_confidence := float 0.86;
     Tracklet.overlay_uri := "overlay://clip_ws/TRACK_walker.json" |}.

(** Five seconds with one second of walking in the middle, and a person
    tracklet over them. *)
Definition idle_frame (ts : Z) : FrameObservation :=
  {| FrameObservation.timestamp := ts;
     FrameObservation.objects := ["person_1"];
     FrameObservation.actions := [];
     FrameObservation.background_motion := float 0.1 |}.

Definition spike_clip : Clip :=
  {| Clip.clip_id := "clip_spike";
     Clip.camera_id := "cam_a";
     Clip.camera_type := static;
     Clip.location := exterior;
     Clip.duration_seconds := 5;
     Clip.frames :=
       [idle_frame 0; idle_frame 1; action_frame 2 "walk"; idle_frame 3; idle_frame 4];
     Clip.metadata := Metadata.mk false None |}.

Definition spike_walker : Tracklet :=
  {| Tracklet.track_id := "TRACK_spike";
     Tracklet.clip_id := "clip_spike";
     Tracklet.camera_id := "cam_a";
     Tracklet.window_id := "WIN_spike";
     Tracklet.entity_type := person;
     Tracklet.label := "person_1";
     Tracklet.t_start := 0;
     Tracklet.t_end := 4;
     Tracklet.mask_confidence := float 0.86;
     Tracklet.overlay_uri := "overlay://clip_spike/TRACK_spike.json" |}.

Section LocalizeSamples.
Variable P : Ports.

(** The series [zip(timestamps, smoothed)] that [localize] hands to
    [_extract_spans]. *)
Definition localize_samples (tracklet : Tracklet) (clip : Clip) (query_text : string)
    (smoothing_window_size : Z) : list (Z * Q) :=
  let frames := tracklet_frames tracklet clip in
  combine (map FrameObservation.timestamp frames)
          (smoothed_scores P query_text smoothing_window_size frames).
End LocalizeSamples.

(** A configuration and two requests over one exterior clip. *)
Definition demo_config : RuntimeConfig :=
  {| spec_version := "1.0";
     stage2_initial_top_k_windows := 8;
     stage2_validated_top_k_windows := 4;
     stage2_min_validation_confidence := float 0.9;
     sam3_min_mask_confidence := float 0.5;
     sam3_retry_max_attempts := 1;
     max_cross_camera_travel_seconds := 30;
     smoothing_window_size := 1;
     hysteresis_high := float 0.6;
     hysteresis_low := float 0.2;
     config_required_state_keys := REQUIRED_ORCHESTRATION_STATE_KEYS;
     config_branching_hooks := map fst HOOK_TO_STAGE |}.

Definition suv_clip : Clip :=
  {| Clip.clip_id := "clip_ext";
     Clip.camera_id := "cam_a";
     Clip.camera_type := static;
     Clip.location := exterior;
     Clip.duration_seconds := 1;
     Clip.frames :=
       [ {| FrameObservation.timestamp := 10;
            FrameObservation.objects := ["red_suv"; "person_1"];
            FrameObservation.actions := ["exits"];
            FrameObservation.background_motion := float 0.1 |} ];
     Clip.metadata := Metadata.mk false None |}.

Definition suv_request : QueryRequest :=
  {| QueryRequest.query_id := "query_suv";
     QueryRequest.query_text := "who exits the suv";
     QueryRequest.clips := [suv_clip];
     QueryRequest.camera_topology := [("cam_a", [])] |}.

Definition zebra_request : QueryRequest :=
  {| QueryRequest.query_id := "query_zebra";
     QueryRequest.query_text := "zebra and yak";
     QueryRequest.clips := [suv_clip];
     QueryRequest.camera_topology := [("cam_a", [])] |}.


(** An object tracklet in the window of [walker]. *)
Definition parked_suv : Tracklet :=
  {| Tracklet.track_id := "TRACK_suv";
     Tracklet.clip_id := "clip_ws";
     Tracklet.camera_id := "cam_a";
     Tracklet.window_id := "WIN_ws";
     Tracklet.entity_type := object;
     Tracklet.label := "red_suv";
     Tracklet.t_start := 0;
     Tracklet.t_end := 2;
     Tracklet.mask_confidence := float 0.88;
     Tracklet.overlay_uri := "overlay://clip_ws/TRACK_suv.json" |}.

Section PoolOfARun.
Variable P : Ports.
Variable config : RuntimeConfig.

(** Stage 1 followed by the first half of stage 2, as [run] executes them:
    the scored candidates and the list [validated] before deduplication. *)
Definition stage_2_pool (request : QueryRequest)
    : M PipelineStores (list ValidatedWindow * list ValidatedWindow) :=
  active_windows <- _stage_1_activity_ingestion P request ;;
  validated_pool P config request active_windows.
End PoolOfARun.

(** [item] is a best-scoring element of its clip among [scored]. *)
Definition best_of_clip (scored : list ValidatedWindow) (item : ValidatedWindow) : Prop :=
  In item scored
  /\ forall other,
       In other scored ->
       ValidatedWindow.clip_id other = ValidatedWindow.clip_id item ->
       (ValidatedWindow.confidence other <= ValidatedWindow.confidence item)%Q.

(** The list is in descending order of confidence. *)
Definition ranked_desc (l : list ValidatedWindow) : Prop :=
  StronglySorted
    (fun a b => (ValidatedWindow.confidence b <= ValidatedWindow.confidence a)%Q) l.

(** The id names one of the active windows. *)
Definition present (windows_by_id : dict ActiveWindow) (id : string) : bool :=
  match dict_get id windows_by_id with Some _ => true | None => false end.

Definition edge_has_evidence (edge : GraphEdge) : Prop :=
  GraphEdge.evidence_refs edge <> [].

(** The result of the computation, value or exception, does not depend on
    the state it starts from. *)
Definition oblivious {S A} (m : M S A) : Prop :=
  forall s s', fst (m s) = fst (m s').

(** The cache counters of [s'] are at least those of [s]. *)
Definition cache_le (s s' : PipelineStores) : Prop :=
  FeatureCacheStore.hits (PipelineStores.feature_cache s)
    <= FeatureCacheStore.hits (PipelineStores.feature_cache s')
  /\ FeatureCacheStore.misses (PipelineStores.feature_cache s)
    <= FeatureCacheStore.misses (PipelineStores.feature_cache s').

(** The state the computation ends in is related by [R] to the one it
    starts from. *)
Definition keeps {S A} (R : S -> S -> Prop) (m : M S A) : Prop :=
  forall s, R s (snd (m s)).

(** The graph nodes of [s'] are those of [s]. *)
Definition same_nodes (s s' : PipelineStores) : Prop :=
  GraphStore.nodes (PipelineStores.graph_store s')
  = GraphStore.nodes (PipelineStores.graph_store s).

(** Two results agree: both values, related by [R], or the same exception. *)
Definition result_rel {A B} (R : A -> B -> Prop) (x : result A) (y : result B) : Prop :=
  match x, y with
  | Ok a, Ok b => R a b
  | Raise e, Raise e' => e = e'
  | _, _ => False
  end.

(** Whatever states the two computations start from, their results agree. *)
Definition related {S A B} (R : A -> B -> Prop) (m : M S A) (m' : M S B) : Prop :=
  forall s s', result_rel R (fst (m s)) (fst (m' s')).

(** The edge without its evidence list. *)
Definition without_evidence (edge : GraphEdge) : GraphEdge :=
  {| GraphEdge.edge_id := GraphEdge.edge_id edge;
     GraphEdge.edge_type := GraphEdge.edge_type edge;
     GraphEdge.source_id := GraphEdge.source_id edge;
     GraphEdge.target_id := GraphEdge.target_id edge;
     GraphEdge.t_start := GraphEdge.t_start edge;
     GraphEdge.t_end := GraphEdge.t_end edge;
     GraphEdge.camera_id := GraphEdge.camera_id edge;
     GraphEdge.confidence := GraphEdge.confidence edge;
     GraphEdge.evidence_refs := [] |}.

(** Two edges agree in everything but their evidence. *)
Definition same_shape (e e' : GraphEdge) : Prop :=
  without_evidence e = without_evidence e'.

(** The claim without its evidence list. *)
Definition claim_without_evidence (claim : ClaimRecord) : ClaimRecord :=
  {| ClaimRecord.claim_id := ClaimRecord.claim_id claim;
     ClaimRecord.text := ClaimRecord.text claim;
     ClaimRecord.entity_ids := ClaimRecord.entity_ids claim;
     ClaimRecord.camera_id := ClaimRecord.camera_id claim;
     ClaimRecord.t_start := ClaimRecord.t_start claim;
     ClaimRecord.t_end := ClaimRecord.t_end claim;
     ClaimRecord.confidence := ClaimRecord.confidence claim;
     ClaimRecord.evidence_refs := [] |}.

(** A similarity that ranks: one-component stand-in vectors, the closer
    the more similar. *)
Definition ranking_ports : Ports :=
  {| str_lower := ascii_lower;
     str_strip := ascii_strip;
     sha1_hexdigest := demo_digest;
     deterministic_vector := fun seed => [inject_Z (poly_hash seed 7 mod 1000)];
     cosine_similarity := fun a b =>
       match a, b with
       | x :: _, y :: _ => fdiv 1 (1 + inject_Z (Z.abs (Qnum x - Qnum y)))
       | _, _ => 0%Q
       end |}.

Definition interior_clip : Clip :=
  {| Clip.clip_id := "clip_int";
     Clip.camera_id := "cam_b";
     Clip.camera_type := static;
     Clip.location := interior;
     Clip.duration_seconds := 1;
     Clip.frames :=
       [ {| FrameObservation.timestamp := 20;
            FrameObservation.objects := ["person_1"];
            FrameObservation.actions := ["walks"];
            FrameObservation.background_motion := float 0.1 |} ];
     Clip.metadata := Metadata.mk false None |}.

Definition two_clip_request : QueryRequest :=
  {| QueryRequest.query_id := "query_two";
     QueryRequest.query_text := "who exits the suv";
     QueryRequest.clips := [suv_clip; interior_clip];
     QueryRequest.camera_topology := [] |}.

(** [demo_config] with an initial top-K of two frame hits. *)
Definition narrow_config : RuntimeConfig :=
  {| spec_version := "1.0";
     stage2_initial_top_k_windows := 2;
     stage2_validated_top_k_windows := 4;
     stage2_min_validation_confidence := float 0.9;
     sam3_min_mask_confidence := float 0.5;
     sam3_retry_max_attempts := 1;
     max_cross_camera_travel_seconds := 30;
     smoothing_window_size := 1;
     hysteresis_high := float 0.6;
     hysteresis_low := float 0.2;
     config_required_state_keys := REQUIRED_ORCHESTRATION_STATE_KEYS;
     config_branching_hooks := map fst HOOK_TO_STAGE |}.

(** [d.update(entries)] *)
Definition dict_update {V} (entries : list (string * V)) (d : dict V) : dict V :=
  fold_left (fun d entry => dict_set (fst entry) (snd entry) d) entries d.

Definition keyed (node : GraphNode) : string * GraphNode :=
  (GraphNode.node_id node, node).

(** The nodes stage 6 upserts, in order. *)
Definition stage_6_nodes (entity_links : list EntityLink) (tracklets : list Tracklet)
    : list GraphNode :=
  map entity_node entity_links
  ++ flat_map (fun track => [track_node track; camera_node track]) tracklets.

Definition nodes_of_store (s : PipelineStores) : dict GraphNode :=
  GraphStore.nodes (PipelineStores.graph_store s).

(** The computation returns and upserts exactly the nodes [ns]. *)
Definition upserts (ns : list GraphNode) (m : M PipelineStores unit) : Prop :=
  forall s, exists s',
    m s = (Ok tt, s')
    /\ nodes_of_store s' = dict_update (map keyed ns) (nodes_of_store s).

(** ** Vocabulary of the further properties *)

(** The position of a stage in the pipeline. *)
Definition stage_index (s : StageId) : Z :=
  match s with
  | stage_1 => 1 | stage_2 => 2 | stage_3 => 3 | stage_4 => 4
  | stage_5 => 5 | stage_6 => 6 | stage_7 => 7
  end.

(** A call of one of the two mutating methods of [OrchestrationRuntime]. *)
Inductive RuntimeCall : Type :=
| CallTransition (current_stage next_stage : StageId) (why : string)
| CallHook (current_stage : StageId) (hook : string).

Definition perform (call : RuntimeCall) : M OrchestrationRuntime StageId :=
  match call with
  | CallTransition current_stage next_stage why =>
      transition current_stage next_stage why
  | CallHook current_stage hook => apply_branching_hook current_stage hook
  end.

(** A client makes the calls one after the other on the same runtime and
    catches the exceptions; the outcomes are returned in order. *)
Fixpoint perform_all (calls : list RuntimeCall) (rt : OrchestrationRuntime)
    : list (result StageId) * OrchestrationRuntime :=
  match calls with
  | [] => ([], rt)
  | call :: calls' =>
      let '(outcome, rt1) := perform call rt in
      let '(outcomes, rt2) := perform_all calls' rt1 in
      (outcome :: outcomes, rt2)
  end.

Definition is_ok {A} (r : result A) : bool :=
  match r with Ok _ => true | Raise _ => false end.

(** The event records an edge of the transition graph. *)
Definition permitted_event (ev : TransitionEvent) : Prop :=
  In (to_stage ev) (TRANSITION_GRAPH (from_stage ev)).

(** The characters of a string. *)
Definition chars (s : string) : list ascii := list_ascii_of_string s.

(** A lower-case ASCII letter or a digit. *)
Definition is_lower_alnum (a : ascii) : bool :=
  let n := nat_of_ascii a in
  ((97 <=? n) && (n <=? 122) || (48 <=? n) && (n <=? 57))%nat.

(** Every value lies between the two bounds. *)
Definition within (lo hi : Q) (values : list Q) : Prop :=
  Forall (fun v => (lo <= v /\ v <= hi)%Q) values.

(** The relative error that the three roundings of [fmean] (of the sum, of
    the count and of the quotient, each within [2^-53]) can add to the
    bounds of the values. *)
Definition mean_slack : Q := 1 # 2 ^ 51.

(** A non-negative lower bound, lowered by that error, and an upper bound,
    raised by it. *)
Definition lowered (lo : Q) : Q := (lo * (1 - mean_slack))%Q.
Definition raised (hi : Q) : Q := (hi * (1 + mean_slack))%Q.

Section StoresVocabulary.
Import PipelineStores.

(** [FeatureCacheStore.get_l2] *)
Definition get_l2 (key : string) : M PipelineStores (option (list string)) :=
  fun s =>
    let c := feature_cache s in
    match dict_get key (FeatureCacheStore.l2 c) with
    | None =>
        (Ok None,
         with_feature_cache
           (FeatureCacheStore.mk (FeatureCacheStore.l1 c) (FeatureCacheStore.l2 c)
              (FeatureCacheStore.hits c) (FeatureCacheStore.misses c + 1)) s)
    | Some item =>
        (Ok (Some item),
         with_feature_cache
           (FeatureCacheStore.mk (FeatureCacheStore.l1 c) (FeatureCacheStore.l2 c)
              (FeatureCacheStore.hits c + 1) (FeatureCacheStore.misses c)) s)
    end.

(** The counters of the feature cache. *)
Definition cache_hits (s : PipelineStores) : Z :=
  FeatureCacheStore.hits (feature_cache s).

Definition cache_misses (s : PipelineStores) : Z :=
  FeatureCacheStore.misses (feature_cache s).

(** What the evidence registry holds for a track. *)
Definition evidence_of (s : PipelineStores) (track_id : string) : list EvidenceRef :=
  match dict_get track_id (evidence_registry s) with
  | Some l => l
  | None => []
  end.
End StoresVocabulary.

(** The state a computation leaves, and the value it returns. *)
Definition state_after {S A} (m : M S A) (s : S) : S := snd (m s).
Definition value_of {S A} (m : M S A) (s : S) : result A := fst (m s).

(** The record of the frame index is a frame of the track's clip inside
    the segment's time range. *)
Definition indexed_in_segment (track : Tracklet) (segment : TemporalSegment)
    (record : KeyframeRecord) : Prop :=
  KeyframeRecord.clip_id record = Tracklet.clip_id track
  /\ TemporalSegment.t_start segment <= KeyframeRecord.timestamp record
     <= TemporalSegment.t_end segment.

(** The computation returns, whatever the state it starts from, and its
    value satisfies [Q]. *)
Definition ensures {S A} (Q : A -> Prop) (m : M S A) : Prop :=
  forall s, exists a s', m s = (Ok a, s') /\ Q a.

(** The tracklet describes an object label seen in the window of the clip,
    with a confidence between 0 and 1. *)
Definition grounded_in (window : ValidatedWindow) (clip : Clip) (t : Tracklet) : Prop :=
  Tracklet.clip_id t = Clip.clip_id clip
  /\ Tracklet.camera_id t = Clip.camera_id clip
  /\ Tracklet.window_id t = ValidatedWindow.window_id window
  /\ Tracklet.t_start t = ValidatedWindow.t_start window
  /\ Tracklet.t_end t = ValidatedWindow.t_end window
  /\ In (Tracklet.label t) (window_objects window clip)
  /\ (0 <= Tracklet.mask_confidence t /\ Tracklet.mask_confidence t <= 1)%Q.

(** The labels the detector/tracker fallback looks for. *)
Definition fallback_label (P : Ports) (obj : string) : bool :=
  startswith (str_lower P obj) "person"
  || contains "suv" (str_lower P obj)
  || contains "car" (str_lower P obj).

(** The tracklet is grounded in one of the windows, in the clip that the
    window's clip id is mapped to. *)
Definition grounded_in_some (windows : list ValidatedWindow) (clips_by_id : dict Clip)
    (t : Tracklet) : Prop :=
  exists window clip,
    In window windows
    /\ dict_get (ValidatedWindow.clip_id window) clips_by_id = Some clip
    /\ grounded_in window clip t.

(** A validated window over the one frame of [suv_clip]. *)
Definition suv_window : ValidatedWindow :=
  {| ValidatedWindow.window_id := "WIN_ext";
     ValidatedWindow.clip_id := "clip_ext";
     ValidatedWindow.camera_id := "cam_a";
     ValidatedWindow.t_start := 10;
     ValidatedWindow.t_end := 10;
     ValidatedWindow.confidence := float 0.9;
     ValidatedWindow.query_text := "who exits the suv" |}.

(** The span starts and ends at samples of the series, and its confidence
    lies between the bounds. *)
Definition span_within (timestamps : list Z) (lo hi : Q) (span : Z * Z * Q) : Prop :=
  In (fst (fst span)) timestamps
  /\ In (snd (fst span)) timestamps
  /\ (lo <= snd span /\ snd span <= hi)%Q.

(** The invariant of the loop of [_extract_spans]: the spans closed so far
    have a confidence between [clo] and [chi], and the scores of the span
    that is open lie between [lo] and [hi]. *)
Definition span_state_within (timestamps : list Z) (lo hi clo chi : Q) (st : SpanState)
    : Prop :=
  Forall (span_within timestamps clo chi) (spans st)
  /\ (in_span st = true ->
      In (current_start st) timestamps
      /\ current_scores st <> []
      /\ within lo hi (current_scores st)).

(** The segment with other failure flags. *)
Definition with_flags (segment : TemporalSegment) (flags : list string)
    : TemporalSegment :=
  {| TemporalSegment.segment_id := TemporalSegment.segment_id segment;
     TemporalSegment.clip_id := TemporalSegment.clip_id segment;
     TemporalSegment.camera_id := TemporalSegment.camera_id segment;
     TemporalSegment.track_id := TemporalSegment.track_id segment;
     TemporalSegment.action := TemporalSegment.action segment;
     TemporalSegment.t_start := TemporalSegment.t_start segment;
     TemporalSegment.t_end := TemporalSegment.t_end segment;
     TemporalSegment.confidence := TemporalSegment.confidence segment;
     TemporalSegment.failure_flags := flags |}.

(** The segment as the ambiguity pass of stage 5 leaves it, among
    [segments]: flagged when another segment of its clip overlaps it. *)
Definition flag_ambiguity (segments : list TemporalSegment) (segment : TemporalSegment)
    : TemporalSegment :=
  if existsb (seg_overlaps segment) segments
  then with_flags segment
         (sorted_set_str (TemporalSegment.failure_flags segment
                            ++ ["multi_actor_ambiguity"]))
  else segment.

(** The tracklets stage 5 localizes: the person tracklets if there are
    any, else all. *)
Definition stage_5_candidates (tracklets : list Tracklet) : list Tracklet :=
  let person_tracklets := filter is_person tracklets in
  match person_tracklets with
  | [] => tracklets
  | _ => person_tracklets
  end.

(** The clip is known to the engine under the tracklet's clip id. *)
Definition clip_known (clips_by_id : dict Clip) (t : Tracklet) : Prop :=
  exists clip, dict_get (Tracklet.clip_id t) clips_by_id = Some clip.

(** An entry of the [unique] dictionary of stage 2: a validated item filed
    under its window id. *)
Definition unique_entry (validated : list ValidatedWindow)
    (entry : string * ValidatedWindow) : Prop :=
  ValidatedWindow.window_id (snd entry) = fst entry /\ In (snd entry) validated.

(** The dictionary holds, under the window id of [item], an item at least
    as confident. *)
Definition covered (unique : dict ValidatedWindow) (item : ValidatedWindow) : Prop :=
  exists kept,
    dict_get (ValidatedWindow.window_id item) unique = Some kept
    /\ (ValidatedWindow.confidence item <= ValidatedWindow.confidence kept)%Q.



(** What a call leads to, whatever the state it starts from. *)
Definition outcome {S A} (Q : result A -> Prop) (m : M S A) : Prop :=
  forall s, Q (fst (m s)).

(** The edge connects entities and tracks that stage 6 was given: an EXITS
    edge runs from a person link to an object link over the time range of
    a segment; a MOVES_TO edge runs from a person link to the camera of one
    of the tracks the link lists, over that track's time range. *)
Definition edge_of_links (entity_links : list EntityLink) (tracklets : list Tracklet)
    (temporal_segments : list TemporalSegment) (edge : GraphEdge) : Prop :=
  match GraphEdge.edge_type edge with
  | EXITS =>
      exists person_link object_link segment,
        In person_link entity_links /\ In object_link entity_links
        /\ In segment temporal_segments
        /\ EntityLink.entity_type person_link = person
        /\ EntityLink.entity_type object_link = object
        /\ In (TemporalSegment.track_id segment) (EntityLink.track_ids person_link)
        /\ GraphEdge.source_id edge = EntityLink.entity_id person_link
        /\ GraphEdge.target_id edge = EntityLink.entity_id object_link
        /\ GraphEdge.t_start edge = TemporalSegment.t_start segment
        /\ GraphEdge.t_end edge = TemporalSegment.t_end segment
        /\ GraphEdge.camera_id edge = TemporalSegment.camera_id segment
        /\ GraphEdge.confidence edge = TemporalSegment.confidence segment
  | MOVES_TO =>
      exists person_link track,
        In person_link entity_links /\ In track tracklets
        /\ EntityLink.entity_type person_link = person
        /\ In (Tracklet.track_id track) (EntityLink.track_ids person_link)
        /\ GraphEdge.source_id edge = EntityLink.entity_id person_link
        /\ GraphEdge.target_id edge = Tracklet.camera_id track
        /\ GraphEdge.camera_id edge = Tracklet.camera_id track
        /\ GraphEdge.t_start edge = Tracklet.t_start track
        /\ GraphEdge.t_end edge = Tracklet.t_end track
        /\ GraphEdge.confidence edge
           = (if EntityLink.resolved person_link then float 0.8 else float 0.45)
  end.

(** The segment belongs to a track that stage 6 was given. *)
Definition track_known (tracklets : list Tracklet) (segment : TemporalSegment) : Prop :=
  exists track,
    dict_get (TemporalSegment.track_id segment) (dict_of Tracklet.track_id tracklets)
    = Some track.


(** The active window over the one frame of [suv_clip]. *)
Definition suv_active_window : ActiveWindow :=
  {| ActiveWindow.window_id := "WIN_ext";
     ActiveWindow.clip_id := "clip_ext";
     ActiveWindow.camera_id := "cam_a";
     ActiveWindow.route_id := cv_state;
     ActiveWindow.t_start := 10;
     ActiveWindow.t_end := 10;
     ActiveWindow.reason := "activity_detected";
     ActiveWindow.semantic_tokens := ["1"; "exits"; "person"; "red"; "suv"] |}.

(** * Properties *)

Local Open Scope list_scope.

(** ** Binary64 rounding *)

Section FloatingPoint.
Local Open Scope Q_scope.

Lemma Qfloor_spec (x : Q) : inject_Z (Qfloor x) <= x < inject_Z (Qfloor x) + 1.
Proof.
  split; [apply Qfloor_le |].
  pose proof (Qlt_floor x) as H. rewrite inject_Z_plus in H. exact H.
Qed.

Lemma round_half_even_near (x : Q) :
  x - (1 # 2) <= inject_Z (round_half_even x) <= x + (1 # 2).
Proof.
  unfold round_half_even. pose proof (Qfloor_spec x) as [Hlo Hhi].
  set (fl := Qfloor x) in *.
  destruct (Qcompare_spec (x - inject_Z fl) (1 # 2)) as [E | E | E];
    [destruct (Z.even fl) | |]; rewrite ?inject_Z_plus;
    change (inject_Z 1) with 1; lra.
Qed.

Lemma round_half_even_le (x y : Q) : x <= y -> (round_half_even x <= round_half_even y)%Z.
Proof.
  intros Hxy. unfold round_half_even.
  pose proof (Qfloor_spec x) as [Hxl Hxh]. pose proof (Qfloor_spec y) as [Hyl Hyh].
  assert (Hfl : (Qfloor x <= Qfloor y)%Z) by now apply Qfloor_resp_le.
  set (fx := Qfloor x) in *. set (fy := Qfloor y) in *.
  destruct (Z.eq_dec fx fy) as [Heq | Hne].
  - rewrite <- Heq in *.
    destruct (Qcompare_spec (x - inject_Z fx) (1 # 2)) as [Ex | Ex | Ex];
      destruct (Qcompare_spec (y - inject_Z fx) (1 # 2)) as [Ey | Ey | Ey];
      try (destruct (Z.even fx)); try lia; exfalso; lra.
  - assert (fx + 1 <= fy)%Z by lia.
    destruct (x - inject_Z fx ?= 1 # 2); destruct (y - inject_Z fy ?= 1 # 2);
      try destruct (Z.even fx); try destruct (Z.even fy); lia.
Qed.

Lemma round_half_even_Z (n : Z) : round_half_even (inject_Z n) = n.
Proof.
  unfold round_half_even. rewrite Qfloor_Z.
  destruct (Qcompare_spec (inject_Z n - inject_Z n) (1 # 2)) as [E | E | E];
    [exfalso; lra | reflexivity | exfalso; lra].
Qed.

Lemma pow2_pos (e : Z) : 0 < 2 ^ e.
Proof. apply Qpower_0_lt. reflexivity. Qed.

Lemma pow2_succ (e : Z) : 2 ^ (e + 1) == 2 * 2 ^ e.
Proof. rewrite Qpower_plus by discriminate. cbn. ring. Qed.

Lemma pow2_le (a b : Z) : (a <= b)%Z -> 2 ^ a <= 2 ^ b.
Proof.
  intros H. apply Qpower_le_compat_l; [exact H | discriminate].
Qed.

Lemma pow2_inject (n : Z) : (0 <= n)%Z -> inject_Z (2 ^ n) == 2 ^ n.
Proof. intros H. now rewrite Zpower_Qpower. Qed.

Lemma Q_as_fraction (x : Q) : x * inject_Z (Zpos (Qden x)) == inject_Z (Qnum x).
Proof.
  destruct x as [n d]. unfold Qeq, Qmult, inject_Z. cbn. lia.
Qed.

Lemma log2_bounds (n : Z) :
  (0 < n)%Z -> 2 ^ Z.log2 n <= inject_Z n /\ inject_Z n < 2 ^ (Z.log2 n + 1).
Proof.
  intros Hn. pose proof (Z.log2_spec n Hn) as [Hlo Hhi].
  pose proof (Z.log2_nonneg n) as Hnn.
  rewrite <- !pow2_inject by lia. rewrite <- Zle_Qle, <- Zlt_Qlt.
  replace (Z.succ (Z.log2 n)) with (Z.log2 n + 1)%Z in Hhi by lia. now split.
Qed.

Lemma ilog2_spec (x : Q) : 0 < x -> 2 ^ ilog2 x <= x /\ x < 2 ^ (ilog2 x + 1).
Proof.
  intros Hx. unfold ilog2.
  assert (Hn : (0 < Qnum x)%Z).
  { destruct x as [n d]. unfold Qlt in Hx. cbn in *. lia. }
  pose proof (log2_bounds (Qnum x) Hn) as [Hnl Hnh].
  pose proof (log2_bounds (Zpos (Qden x)) eq_refl) as [Hdl Hdh].
  pose proof (Q_as_fraction x) as Hfrac.
  set (a := Z.log2 (Qnum x)) in *. set (b := Z.log2 (Zpos (Qden x))) in *.
  set (N := inject_Z (Qnum x)) in *. set (D := inject_Z (Zpos (Qden x))) in *.
  pose proof (pow2_pos b) as Hb. pose proof (pow2_pos (a - b)) as Hab.
  assert (Ea : 2 ^ a == 2 ^ (a - b) * 2 ^ b).
  { rewrite <- Qpower_plus by discriminate. now replace (a - b + b)%Z with a by lia. }
  assert (Hup : x < 2 ^ (a - b + 1)).
  { rewrite pow2_succ. rewrite pow2_succ in Hnh, Hdh. nra. }
  assert (Hdown : 2 ^ (a - b - 1) <= x).
  { assert (E1 : 2 ^ (a - b) == 2 * 2 ^ (a - b - 1)).
    { rewrite <- pow2_succ. now replace (a - b - 1 + 1)%Z with (a - b)%Z by lia. }
    rewrite pow2_succ in Hdh. nra. }
  destruct (Qle_bool (2 ^ (a - b)) x) eqn:E.
  - apply Qle_bool_iff in E. now split.
  - split; [exact Hdown |].
    replace (a - b - 1 + 1)%Z with (a - b)%Z by lia.
    apply Qnot_le_lt. intros Hle. apply Qle_bool_iff in Hle. congruence.
Qed.

Lemma ilog2_unique (x : Q) (e : Z) : 2 ^ e <= x -> x < 2 ^ (e + 1) -> ilog2 x = e.
Proof.
  intros Hlo Hhi.
  assert (Hx : 0 < x) by (pose proof (pow2_pos e); lra).
  destruct (ilog2_spec x Hx) as [Hl Hh].
  destruct (Z.lt_trichotomy (ilog2 x) e) as [Hlt | [Heq | Hgt]]; [| exact Heq |].
  - pose proof (pow2_le (ilog2 x + 1) e ltac:(lia)). lra.
  - pose proof (pow2_le (e + 1) (ilog2 x) ltac:(lia)). lra.
Qed.

Lemma ilog2_le (x y : Q) : 0 < x -> x <= y -> (ilog2 x <= ilog2 y)%Z.
Proof.
  intros Hx Hxy.
  destruct (ilog2_spec x Hx) as [Hxl Hxh].
  destruct (ilog2_spec y ltac:(lra)) as [Hyl Hyh].
  destruct (Z_le_gt_dec (ilog2 x) (ilog2 y)) as [H | H]; [exact H |].
  pose proof (pow2_le (ilog2 y + 1) (ilog2 x) ltac:(lia)). lra.
Qed.

(** The significand and exponent of [float_pos x]. *)
Lemma float_pos_spec (x : Q) :
  0 < x ->
  let e := (ilog2 x - 52)%Z in
  let m := round_half_even (x / 2 ^ e) in
  float_pos x == inject_Z m * 2 ^ e
  /\ (2 ^ 52 <= m <= 2 ^ 53)%Z
  /\ x - (1 # 2) * 2 ^ e <= float_pos x <= x + (1 # 2) * 2 ^ e
  /\ 2 ^ (e + 52) <= x < 2 ^ (e + 53).
Proof.
  intros Hx e m.
  destruct (ilog2_spec x Hx) as [Hlo Hhi].
  pose proof (pow2_pos e) as He.
  assert (E52 : 2 ^ ilog2 x == 2 ^ 52 * 2 ^ e).
  { rewrite <- Qpower_plus by discriminate. unfold e.
    now replace (52 + (ilog2 x - 52))%Z with (ilog2 x) by lia. }
  assert (E53 : 2 ^ (ilog2 x + 1) == 2 ^ 53 * 2 ^ e).
  { rewrite <- Qpower_plus by discriminate. unfold e.
    now replace (53 + (ilog2 x - 52))%Z with (ilog2 x + 1)%Z by lia. }
  assert (Hq : 2 ^ 52 <= x / 2 ^ e /\ x / 2 ^ e < 2 ^ 53).
  { split.
    - apply Qle_shift_div_l; [exact He | lra].
    - apply Qlt_shift_div_r; [exact He | lra]. }
  assert (Hm : (2 ^ 52 <= m <= 2 ^ 53)%Z).
  { split.
    - rewrite <- (round_half_even_Z (2 ^ 52)). apply round_half_even_le.
      rewrite pow2_inject by lia. apply Hq.
    - rewrite <- (round_half_even_Z (2 ^ 53)). apply round_half_even_le.
      rewrite pow2_inject by lia. apply Qlt_le_weak, Hq. }
  assert (Hf : float_pos x == inject_Z m * 2 ^ e) by (unfold float_pos; apply Qred_correct).
  split; [exact Hf |]. split; [exact Hm |]. split.
  - pose proof (round_half_even_near (x / 2 ^ e)) as [Hn1 Hn2]. fold m in Hn1, Hn2.
    assert (Ex : x == (x / 2 ^ e) * 2 ^ e) by (field; lra).
    rewrite Hf. set (q := x / 2 ^ e) in *. set (p := 2 ^ e) in *.
    set (mq := inject_Z m) in *.
    assert (H1 : (q - (1 # 2)) * p <= mq * p) by (apply Qmult_le_compat_r; lra).
    assert (H2 : mq * p <= (q + (1 # 2)) * p) by (apply Qmult_le_compat_r; lra).
    split; lra.
  - replace (e + 52)%Z with (ilog2 x) by (unfold e; lia).
    replace (e + 53)%Z with (ilog2 x + 1)%Z by (unfold e; lia). now split.
Qed.

Lemma inject_le_pow2 (m n : Z) : (0 <= n)%Z -> (m <= 2 ^ n)%Z -> inject_Z m <= 2 ^ n.
Proof. intros Hn H. rewrite <- pow2_inject by exact Hn. now rewrite <- Zle_Qle. Qed.

Lemma pow2_le_inject (m n : Z) : (0 <= n)%Z -> (2 ^ n <= m)%Z -> 2 ^ n <= inject_Z m.
Proof. intros Hn H. rewrite <- pow2_inject by exact Hn. now rewrite <- Zle_Qle. Qed.

Lemma Qnum_sign (x : Q) :
  match Qnum x with
  | 0%Z => x == 0
  | Zpos _ => 0 < x
  | Zneg _ => x < 0
  end.
Proof.
  destruct x as [[| p | p] d]; unfold Qeq, Qlt; cbn; lia.
Qed.

Lemma float_pos_positive (x : Q) : 0 < x -> 0 < float_pos x.
Proof.
  intros Hx. destruct (float_pos_spec x Hx) as [Hf [[Hm _] _]].
  rewrite Hf. apply Qmult_lt_0_compat; [| apply pow2_pos].
  change 0 with (inject_Z 0). rewrite <- Zlt_Qlt. lia.
Qed.

Lemma float_pos_le (x y : Q) : 0 < x -> x <= y -> float_pos x <= float_pos y.
Proof.
  intros Hx Hxy. assert (Hy : 0 < y) by lra.
  destruct (float_pos_spec x Hx) as [Hfx [[_ Hmx] [_ [_ Hxh]]]].
  destruct (float_pos_spec y Hy) as [Hfy [[Hmy _] [_ [Hyl _]]]].
  pose proof (ilog2_le x y Hx Hxy) as Hle.
  rewrite Hfx, Hfy.
  destruct (Z.eq_dec (ilog2 x) (ilog2 y)) as [Heq | Hne].
  - rewrite <- Heq. apply Qmult_le_compat_r; [| apply Qlt_le_weak, pow2_pos].
    rewrite <- Zle_Qle. apply round_half_even_le.
    apply Qmult_le_compat_r; [exact Hxy |].
    apply Qlt_le_weak, Qinv_lt_0_compat, pow2_pos.
  - set (ex := (ilog2 x - 52)%Z) in *. set (ey := (ilog2 y - 52)%Z) in *.
    apply Qle_trans with (2 ^ 53 * 2 ^ ex).
    + apply Qmult_le_compat_r; [| apply Qlt_le_weak, pow2_pos].
      apply inject_le_pow2; lia.
    + apply Qle_trans with (2 ^ 52 * 2 ^ ey).
      * rewrite <- !Qpower_plus by discriminate. apply pow2_le. unfold ex, ey. lia.
      * apply Qmult_le_compat_r; [| apply Qlt_le_weak, pow2_pos].
        apply pow2_le_inject; lia.
Qed.

Lemma float_sign (x : Q) :
  (x == 0 -> float x = 0) /\ (0 < x -> float x = float_pos x)
  /\ (x < 0 -> float x = - float_pos (- x)).
Proof.
  unfold float. pose proof (Qnum_sign x) as H.
  destruct (Qnum x); repeat split; intros; try reflexivity; exfalso; lra.
Qed.

Lemma float_le (x y : Q) : x <= y -> float x <= float y.
Proof.
  intros Hxy.
  destruct (float_sign x) as [Hx0 [Hxp Hxn]]. destruct (float_sign y) as [Hy0 [Hyp Hyn]].
  destruct (Qlt_le_dec 0 x) as [Hx | Hx].
  - rewrite Hxp, Hyp by lra. now apply float_pos_le.
  - destruct (Qlt_le_dec x 0) as [Hx' | Hx'].
    + rewrite Hxn by exact Hx'.
      pose proof (float_pos_positive (- x) ltac:(lra)) as Hpx.
      destruct (Qlt_le_dec 0 y) as [Hy | Hy].
      * rewrite Hyp by exact Hy. pose proof (float_pos_positive y Hy). lra.
      * destruct (Qlt_le_dec y 0) as [Hy' | Hy'].
        -- rewrite Hyn by exact Hy'.
           pose proof (float_pos_le (- y) (- x) ltac:(lra) ltac:(lra)). lra.
        -- rewrite Hy0 by lra. lra.
    + rewrite Hx0 by lra.
      destruct (Qlt_le_dec 0 y) as [Hy | Hy].
      * rewrite Hyp by exact Hy. pose proof (float_pos_positive y Hy). lra.
      * rewrite Hy0 by lra. lra.
Qed.

(** The rounding error is at most [2^-53] of the value. *)
Lemma float_pos_error (x : Q) :
  0 < x -> x * (1 - (1 # 2 ^ 53)) <= float_pos x <= x * (1 + (1 # 2 ^ 53)).
Proof.
  intros Hx. destruct (float_pos_spec x Hx) as [_ [_ [[Hlo Hhi] [Hxl _]]]].
  set (e := (ilog2 x - 52)%Z) in *.
  assert (E : 2 ^ (e + 52) == 2 ^ e * 2 ^ 52) by (apply Qpower_plus; discriminate).
  assert (E52 : (2 : Q) ^ 52 == 4503599627370496) by reflexivity.
  assert (Hu : (1 # 2) * 2 ^ e <= x * (1 # 2 ^ 53)).
  { setoid_replace (1 # 2 ^ 53) with ((1 # 2) * (1 # 2 ^ 52)) by reflexivity.
    set (p := 2 ^ e) in *. rewrite E, E52 in Hxl.
    setoid_replace (1 # 2 ^ 52) with (1 # 4503599627370496) by reflexivity. lra. }
  split; lra.
Qed.

Lemma float_error (x : Q) :
  0 <= x -> x * (1 - (1 # 2 ^ 53)) <= float x <= x * (1 + (1 # 2 ^ 53)).
Proof.
  intros Hx. destruct (float_sign x) as [H0 [Hp _]].
  destruct (Qlt_le_dec 0 x) as [Hlt | Hle].
  - rewrite Hp by exact Hlt. now apply float_pos_error.
  - assert (E : x == 0) by lra. rewrite H0 by exact E. rewrite E. split; lra.
Qed.

Lemma float_nonneg (x : Q) : 0 <= x -> 0 <= float x.
Proof. intros H. apply (float_le 0 x) in H. exact H. Qed.

Lemma float_positive (x : Q) : 0 < x -> 0 < float x.
Proof.
  intros H. destruct (float_sign x) as [_ [Hp _]]. rewrite Hp by exact H.
  now apply float_pos_positive.
Qed.

Lemma float_opp (x : Q) : float (- x) == - float x.
Proof.
  destruct (float_sign x) as [H0 [Hp Hn]]. destruct (float_sign (- x)) as [H0' [Hp' Hn']].
  destruct (Qlt_le_dec 0 x) as [Hlt | Hle].
  - rewrite Hp by exact Hlt. rewrite Hn' by lra.
    assert (E : - - x = x) by (destruct x as [[| p | p] d]; reflexivity). now rewrite E.
  - destruct (Qlt_le_dec x 0) as [Hlt' | Hle'].
    + rewrite Hn by exact Hlt'. rewrite Hp' by lra. ring.
    + rewrite H0, H0' by lra. reflexivity.
Qed.

Lemma round_half_even_compat (x y : Q) : x == y -> round_half_even x = round_half_even y.
Proof.
  intros E. apply Z.le_antisymm; apply round_half_even_le; lra.
Qed.

Lemma float_pos_compat (x y : Q) : 0 < x -> x == y -> float_pos x = float_pos y.
Proof.
  intros Hx E. unfold float_pos.
  assert (He : ilog2 y = ilog2 x).
  { destruct (ilog2_spec x Hx). apply ilog2_unique; lra. }
  rewrite He. apply Qred_complete.
  rewrite (round_half_even_compat (x / 2 ^ (ilog2 x - 52)) (y / 2 ^ (ilog2 x - 52)));
    [reflexivity | apply Qdiv_comp; [exact E | reflexivity]].
Qed.

Lemma float_compat (x y : Q) : x == y -> float x = float y.
Proof.
  intros E.
  destruct (float_sign x) as [Hx0 [Hxp Hxn]]. destruct (float_sign y) as [Hy0 [Hyp Hyn]].
  destruct (Qlt_le_dec 0 x) as [Hx | Hx].
  - rewrite Hxp, Hyp by lra. now apply float_pos_compat.
  - destruct (Qlt_le_dec x 0) as [Hx' | Hx'].
    + rewrite Hxn, Hyn by lra. f_equal. apply float_pos_compat; lra.
    + rewrite Hx0, Hy0 by lra. reflexivity.
Qed.

#[global] Instance float_Proper : Proper (Qeq ==> Qeq) float.
Proof. intros x y E. now rewrite (float_compat x y E). Qed.

Lemma float_positive_iff (x : Q) : 0 < float x <-> 0 < x.
Proof.
  split; [| apply float_positive].
  intros H. apply Qnot_le_lt. intros Hle. apply float_le in Hle.
  change (float 0) with 0 in Hle. lra.
Qed.

Lemma float_le_1 (x : Q) : x <= 1 -> float x <= 1.
Proof. intros H. apply float_le in H. exact H. Qed.
End FloatingPoint.

(** ** The orchestration contract and runtime *)

(** C4, as the code has it: in the static transition graph exactly the
    stages 2 to 6 permit a self-loop; stage 1 and the terminal stage 7 do
    not. *)
Theorem self_loop_stages (self : OrchestratorContract) (s : StageId) :
  can_transition self s s =
  match s with
  | stage_1 | stage_7 => false
  | _ => true
  end.
Proof. destruct s; reflexivity. Qed.

(** C4, counterexample: stage 7 has no outgoing transition, so it has no
    self-loop either. *)
Lemma stage_7_has_no_self_loop :
  can_transition demo_contract stage_7 stage_7 = false.
Proof. reflexivity. Qed.

(** C5: a transition the graph does not permit raises and leaves the
    runtime, hence its event log, as it was; a permitted one appends exactly
    one event with the pair and the reason and returns the next stage. *)
Theorem transition_enforces_contract
    (rt : OrchestrationRuntime) (current next : StageId) (why : string) :
  (can_transition (contract rt) current next = false ->
   exists msg, transition current next why rt = (Raise (ValueError msg), rt))
  /\
  (can_transition (contract rt) current next = true ->
   transition current next why rt =
   (Ok next,
    {| contract := contract rt;
       events := events rt ++ [ {| from_stage := current;
                                   to_stage := next;
                                   reason := why |} ] |})).
Proof.
  unfold transition, bind, get. cbn.
  destruct (can_transition (contract rt) current next); cbn; split; intro H;
    try discriminate.
  - reflexivity.
  - eexists. reflexivity.
Qed.

(** ** Query decomposition and the variant lookup of stage 3 *)

Section Decomposition.
Variable P : Ports.

Lemma decompose_head (query_text : string) :
  exists rest, decompose P query_text = query_text :: rest.
Proof.
  unfold decompose.
  destruct (filter nonempty_str _); eexists; reflexivity.
Qed.

Lemma py_index_in_range {A} (l : list A) (i : Z) :
  0 <= i < Z.of_nat (List.length l) -> exists x, py_index l i = Some x.
Proof.
  intros [Hlo Hhi]. unfold py_index.
  destruct (Z.ltb_spec i 0) as [Hneg | _]; [lia |].
  destruct (nth_error l (Z.to_nat i)) as [x |] eqn:E.
  - now exists x.
  - apply nth_error_None in E. lia.
Qed.

(** C10: the decomposition is never empty and starts with the query
    itself, so the index [min(attempt, len(variants) - 1)] is in range for
    every attempt of [range(max_retries + 1)] and the lookup succeeds. *)
Theorem decompose_variant_lookup (query_text : string) (attempt : nat) :
  let variants := decompose P query_text in
  let idx := Z.min (Z.of_nat attempt) (Z.of_nat (List.length variants) - 1) in
  (exists rest, variants = query_text :: rest)
  /\ 0 <= idx < Z.of_nat (List.length variants)
  /\ (exists variant, variant_at variants (Z.of_nat attempt) = Some variant)
  /\ variant_at variants 0 = Some query_text.
Proof.
  intros variants idx.
  destruct (decompose_head query_text) as [rest Hrest].
  assert (Hlen : 0 <= idx < Z.of_nat (List.length variants)).
  { subst idx variants. rewrite Hrest. cbn [List.length]. lia. }
  split; [now exists rest |].
  split; [exact Hlen |].
  split.
  - unfold variant_at. now apply py_index_in_range.
  - subst variants. rewrite Hrest. unfold variant_at, py_index.
    cbn [List.length].
    replace (Z.min 0 (Z.of_nat (S (List.length rest)) - 1)) with 0 by lia.
    reflexivity.
Qed.
End Decomposition.

(** ** Sorting, dictionaries and grouping *)

Section SortedBy.
Context {A : Type} (before : A -> A -> bool).

Lemma insert_sorted_perm (x : A) (l : list A) :
  Permutation (insert_sorted before x l) (x :: l).
Proof.
  induction l as [| y l IH]; cbn; [reflexivity |].
  destruct (before x y); [reflexivity |].
  rewrite IH. apply perm_swap.
Qed.

Lemma sorted_by_perm (l : list A) : Permutation (sorted_by before l) l.
Proof.
  induction l as [| x l IH]; cbn; [constructor |].
  rewrite insert_sorted_perm. now constructor.
Qed.

Hypothesis before_total : forall a b, before a b = true \/ before b a = true.

Lemma insert_sorted_hd (a x : A) (l : list A) :
  before a x = true ->
  HdRel (fun a b => before a b = true) a l ->
  HdRel (fun a b => before a b = true) a (insert_sorted before x l).
Proof.
  intros Hax Hal. destruct l as [| y l]; cbn.
  - now constructor.
  - destruct (before x y); constructor; [exact Hax |].
    now apply HdRel_inv in Hal.
Qed.

Lemma insert_sorted_sorted (x : A) (l : list A) :
  Sorted (fun a b => before a b = true) l ->
  Sorted (fun a b => before a b = true) (insert_sorted before x l).
Proof.
  induction 1 as [| y l Hs IH Hhd]; cbn.
  - repeat constructor.
  - destruct (before x y) eqn:E.
    + constructor; [now constructor | now constructor].
    + constructor; [exact IH |].
      apply insert_sorted_hd; [| exact Hhd].
      destruct (before_total x y) as [H | H]; [congruence | exact H].
Qed.

Lemma sorted_by_sorted (l : list A) :
  Sorted (fun a b => before a b = true) (sorted_by before l).
Proof.
  induction l as [| x l IH]; cbn; [constructor |].
  now apply insert_sorted_sorted.
Qed.
End SortedBy.

Lemma track_order_key_le (a b : Tracklet) : track_order a b = true <-> key_le a b.
Proof.
  unfold track_order, key_le.
  rewrite orb_true_iff, andb_true_iff, Z.ltb_lt, Z.eqb_eq. reflexivity.
Qed.

Lemma track_order_total (a b : Tracklet) :
  track_order a b = true \/ track_order b a = true.
Proof.
  rewrite !track_order_key_le. unfold key_le.
  destruct (Z.lt_trichotomy (Tracklet.t_start a) (Tracklet.t_start b)) as [H | [H | H]].
  - left. now left.
  - destruct (String.leb_total (Tracklet.camera_id a) (Tracklet.camera_id b)) as [L | L].
    + left. right. now split.
    + right. right. now split.
  - right. now left.
Qed.

Lemma sorted_by_track_order (items : list Tracklet) :
  Permutation (sorted_by track_order items) items
  /\ consecutive key_le (sorted_by track_order items).
Proof.
  split; [apply sorted_by_perm |].
  unfold consecutive.
  pose proof (sorted_by_sorted track_order track_order_total items) as H.
  induction H as [| a l Hs IH Hhd]; constructor; [exact IH |].
  destruct Hhd; constructor. now apply track_order_key_le.
Qed.

Section Dedup.
Context {A : Type} (eqb : A -> A -> bool).
Hypothesis eqb_spec : forall x y, reflect (x = y) (eqb x y).

Lemma existsb_eqb_In (x : A) (l : list A) : existsb (eqb x) l = true <-> In x l.
Proof.
  rewrite existsb_exists. split.
  - intros [y [Hin Heq]]. destruct (eqb_spec x y); [now subst | discriminate].
  - intros Hin. exists x. split; [exact Hin |].
    destruct (eqb_spec x x); [reflexivity | contradiction].
Qed.

Lemma existsb_eqb_false (x : A) (l : list A) : existsb (eqb x) l = false <-> ~ In x l.
Proof.
  rewrite <- existsb_eqb_In. destruct (existsb (eqb x) l); split; intuition congruence.
Qed.

Lemma dedup_acc_In (seen l : list A) (x : A) :
  In x (dedup_acc eqb seen l) <-> In x l /\ ~ In x seen.
Proof.
  revert seen. induction l as [| y l IH]; intros seen; cbn.
  - tauto.
  - destruct (existsb (eqb y) seen) eqn:E.
    + apply existsb_eqb_In in E. rewrite IH. split.
      * intros [H1 H2]. auto.
      * intros [[-> | H1] H2]; [contradiction | auto].
    + apply existsb_eqb_false in E. cbn. rewrite IH. cbn. split.
      * intros [-> | [H1 H2]]; [auto | split; [auto | tauto]].
      * intros [[-> | H1] H2]; [auto |].
        destruct (eqb_spec y x) as [-> | Hne]; [auto |].
        right. split; [exact H1 |]. intros [H | H]; [congruence | contradiction].
Qed.

Lemma dedup_acc_NoDup (seen l : list A) : NoDup (dedup_acc eqb seen l).
Proof.
  revert seen. induction l as [| y l IH]; intros seen; cbn; [constructor |].
  destruct (existsb (eqb y) seen); [apply IH |].
  constructor; [| apply IH].
  rewrite dedup_acc_In. cbn. tauto.
Qed.

Lemma dedup_In (l : list A) (x : A) : In x (dedup eqb l) <-> In x l.
Proof. unfold dedup. rewrite dedup_acc_In. cbn. tauto. Qed.

Lemma dedup_NoDup (l : list A) : NoDup (dedup eqb l).
Proof. apply dedup_acc_NoDup. Qed.

Lemma dedup_acc_snoc (seen l : list A) (x : A) :
  dedup_acc eqb seen (l ++ [x]) =
  dedup_acc eqb seen l
    ++ (if existsb (eqb x) seen || existsb (eqb x) l then [] else [x]).
Proof.
  revert seen. induction l as [| y l IH]; intros seen; cbn.
  - rewrite orb_false_r. destruct (existsb (eqb x) seen); reflexivity.
  - destruct (existsb (eqb y) seen) eqn:E.
    + rewrite IH. f_equal.
      destruct (eqb_spec x y) as [-> | Hne]; cbn; [| reflexivity].
      rewrite E. reflexivity.
    + rewrite IH. cbn. f_equal. f_equal.
      destruct (eqb_spec x y); cbn; [| reflexivity].
      now rewrite orb_true_r.
Qed.

Lemma dedup_snoc (l : list A) (x : A) :
  dedup eqb (l ++ [x]) = dedup eqb l ++ (if existsb (eqb x) l then [] else [x]).
Proof. unfold dedup. now rewrite dedup_acc_snoc. Qed.
End Dedup.

Lemma mem_string_In (x : string) (l : list string) : mem_string x l = true <-> In x l.
Proof. apply (existsb_eqb_In String.eqb String.eqb_spec). Qed.

Lemma mem_string_false (x : string) (l : list string) : mem_string x l = false <-> ~ In x l.
Proof. apply (existsb_eqb_false String.eqb String.eqb_spec). Qed.

Section Dict.
Context {V : Type}.

Lemma dict_get_keyed (f : string -> V) (keys : list string) (k : string) :
  dict_get k (map (fun k' => (k', f k')) keys) =
  if mem_string k keys then Some (f k) else None.
Proof.
  induction keys as [| k' keys IH]; cbn; [reflexivity |].
  destruct (String.eqb_spec k k') as [-> | Hne]; cbn; [reflexivity | exact IH].
Qed.

Lemma dict_set_fresh (d : dict V) (k : string) (v : V) :
  dict_get k d = None -> dict_set k v d = d ++ [(k, v)].
Proof.
  induction d as [| [k' v'] d IH]; cbn; [reflexivity |].
  destruct (String.eqb k k'); [discriminate |].
  intros H. now rewrite IH.
Qed.

Lemma dict_set_keyed (f : string -> V) (keys : list string) (k : string) (v : V) :
  NoDup keys -> In k keys ->
  dict_set k v (map (fun k' => (k', f k')) keys) =
  map (fun k' => (k', if String.eqb k' k then v else f k')) keys.
Proof.
  induction 1 as [| k' keys Hnotin Hnd IH]; cbn; [contradiction |].
  destruct (String.eqb_spec k k') as [-> | Hne].
  - intros _. rewrite String.eqb_refl. f_equal.
    apply map_ext_in. intros a Ha.
    destruct (String.eqb_spec a k'); [subst; contradiction | reflexivity].
  - intros [-> | Hin]; [contradiction |].
    destruct (String.eqb_spec k' k); [congruence |].
    now rewrite IH.
Qed.

Lemma dict_get_after_append (d : dict (list V)) (k : string) (x : V) :
  exists l, dict_get k (dict_append k x d) = Some (l ++ [x]).
Proof.
  unfold dict_append.
  destruct (dict_get k d) as [l |] eqn:E.
  - exists l. revert E.
    induction d as [| [k' v'] d IH]; cbn; [discriminate |].
    destruct (String.eqb k k') eqn:Ek; cbn; rewrite Ek; [reflexivity | exact IH].
  - exists []. revert E.
    induction d as [| [k' v'] d IH]; cbn.
    + now rewrite String.eqb_refl.
    + destruct (String.eqb k k') eqn:Ek; cbn; rewrite Ek; [discriminate | exact IH].
Qed.
End Dict.

(** ** Entity resolution (stage 4) *)

Section Resolution.
Variable P : Ports.

Lemma members_absent (kind : EntityType) (label : string) (ts : list Tracklet) :
  ~ In label (map (lowered_label P) (filter (of_kind kind) ts)) ->
  members P kind label ts = [].
Proof.
  unfold members. induction ts as [| u us IH]; cbn [filter map]; [reflexivity |].
  destruct (of_kind kind u); cbn [andb map].
  - intros Hnot. destruct (String.eqb_spec (lowered_label P u) label) as [Heq | Hne].
    + exfalso. apply Hnot. now left.
    + apply IH. intros Hin. apply Hnot. now right.
  - exact IH.
Qed.

(** The groups as the specification sees them: one entry per lowercased
    label, in order of first occurrence, holding the label's tracklets in
    input order. *)
Lemma group_by_label_members (kind : EntityType) (tracklets : list Tracklet) :
  group_by_label P kind tracklets =
  map (fun label => (label, members P kind label tracklets))
      (labels_of P kind tracklets).
Proof.
  unfold group_by_label.
  induction tracklets as [| t ts IH] using rev_ind; [reflexivity |].
  rewrite fold_left_app. cbn [fold_left]. rewrite IH. clear IH.
  unfold labels_of, members. rewrite !filter_app. cbn [filter].
  fold (of_kind kind t).
  destruct (of_kind kind t) eqn:Hk; cbn [andb].
  - cbn [map]. rewrite map_app. cbn [map]. rewrite (dedup_snoc String.eqb String.eqb_spec).
    fold (lowered_label P t). set (k0 := lowered_label P t).
    set (L := map (lowered_label P) (filter (of_kind kind) ts)).
    unfold dict_append. rewrite dict_get_keyed.
    fold (mem_string k0 L).
    assert (Hmem : mem_string k0 (dedup String.eqb L) = mem_string k0 L).
    { destruct (mem_string k0 L) eqn:E.
      - apply mem_string_In. apply (dedup_In String.eqb String.eqb_spec).
        now apply mem_string_In.
      - apply mem_string_false. rewrite (dedup_In String.eqb String.eqb_spec).
        now apply mem_string_false. }
    rewrite Hmem.
    destruct (mem_string k0 L) eqn:E.
    + rewrite app_nil_r.
      rewrite dict_set_keyed.
      * apply map_ext. intros k. f_equal. rewrite filter_app. cbn [filter].
        rewrite Hk. cbn [andb]. fold k0.
        rewrite (String.eqb_sym k k0).
        destruct (String.eqb_spec k0 k) as [Heq | Hne];
          [rewrite <- Heq; reflexivity | now rewrite app_nil_r].
      * apply (dedup_NoDup String.eqb String.eqb_spec).
      * apply (dedup_In String.eqb String.eqb_spec). now apply mem_string_In.
    + rewrite dict_set_fresh by (rewrite dict_get_keyed, Hmem; reflexivity).
      rewrite map_app. cbn [map]. f_equal.
      * apply map_ext_in. intros k Hin. f_equal. rewrite filter_app. cbn [filter].
        rewrite Hk. cbn [andb]. fold k0.
        destruct (String.eqb_spec k0 k) as [Heq | Hne]; [| now rewrite app_nil_r].
        exfalso. rewrite <- Heq in Hin.
        apply (proj1 (dedup_In String.eqb String.eqb_spec _ _)) in Hin.
        apply mem_string_false in E. exact (E Hin).
      * f_equal. f_equal. rewrite filter_app. cbn [filter]. rewrite Hk. cbn [andb].
        fold k0. rewrite String.eqb_refl.
        apply mem_string_false in E.
        fold (members P kind k0 ts). now rewrite (members_absent kind k0 ts E).
  - rewrite ?app_nil_r. cbn [map].
    apply map_ext. intros k. f_equal. rewrite ?filter_app. cbn [filter].
    rewrite ?Hk. cbn [andb]. now rewrite ?app_nil_r.
Qed.
Lemma transition_rejected_false (topo : dict (list string)) (maxt : Z)
    (prev curr : Tracklet) :
  transition_rejected topo maxt prev curr = false <-> accepted topo maxt prev curr.
Proof.
  unfold transition_rejected, accepted, declared_neighbor, neighbors_of.
  rewrite andb_false_iff, negb_false_iff, mem_string_In.
  rewrite Z.gtb_ltb, Z.ltb_ge.
  destruct (dict_get (Tracklet.camera_id prev) topo) as [listed |]; split.
  - intros [Hin | Hgap]; [left; now exists listed | now right].
  - intros [[l [Heq Hin]] | Hgap]; [left; congruence | now right].
  - intros [[] | Hgap]. now right.
  - intros [[l [Heq _]] | Hgap]; [discriminate | now right].
Qed.

Lemma walk_pairs_resolved (topo : dict (list string)) (maxt : Z) (l : list Tracklet) :
  fst (walk_pairs topo maxt l) = true <-> consecutive (pair_ok topo maxt) l.
Proof.
  unfold consecutive.
  induction l as [| prev l IH]; [cbn; split; [constructor | reflexivity] |].
  destruct l as [| curr rest]; [cbn; split; [repeat constructor | reflexivity] |].
  cbn [walk_pairs].
  destruct (String.eqb_spec (Tracklet.camera_id prev) (Tracklet.camera_id curr)) as [Hc | Hc].
  - rewrite IH. split.
    + intros Hs. constructor; [exact Hs |]. constructor. now left.
    + intros Hs. now apply Sorted_inv in Hs.
  - destruct (transition_rejected topo maxt prev curr) eqn:Hr.
    + cbn [fst]. split; [discriminate |].
      intros Hs. apply Sorted_inv in Hs. destruct Hs as [_ Hhd].
      apply HdRel_inv in Hhd. destruct Hhd as [Hsame | Hacc]; [contradiction |].
      apply transition_rejected_false in Hacc. congruence.
    + rewrite IH. split.
      * intros Hs. constructor; [exact Hs |]. constructor. right.
        now apply transition_rejected_false.
      * intros Hs. now apply Sorted_inv in Hs.
Qed.

Lemma walk_pairs_confidence (topo : dict (list string)) (maxt : Z) (l : list Tracklet) :
  walk_pairs topo maxt l = (true, float 0.87) \/ walk_pairs topo maxt l = (false, float 0.46).
Proof.
  induction l as [| prev l IH]; [now left |].
  destruct l as [| curr rest]; [now left |].
  cbn [walk_pairs].
  destruct (String.eqb _ _); [exact IH |].
  destruct (transition_rejected topo maxt prev curr); [now right | exact IH].
Qed.

Lemma walk_pairs_first_rejection (topo : dict (list string)) (maxt : Z)
    (pre : list Tracklet) (prev curr : Tracklet) (rest : list Tracklet) :
  consecutive (pair_ok topo maxt) (pre ++ [prev]) ->
  Tracklet.camera_id prev <> Tracklet.camera_id curr ->
  ~ accepted topo maxt prev curr ->
  walk_pairs topo maxt (pre ++ prev :: curr :: rest) = (false, float 0.46).
Proof.
  unfold consecutive. intros Hpre Hcam Hrej.
  induction pre as [| a pre IH].
  - cbn. destruct (String.eqb_spec (Tracklet.camera_id prev) (Tracklet.camera_id curr));
      [contradiction |].
    destruct (transition_rejected topo maxt prev curr) eqn:Hr; [reflexivity |].
    apply transition_rejected_false in Hr. contradiction.
  - cbn [app] in Hpre. apply Sorted_inv in Hpre. destruct Hpre as [Hs Hhd].
    specialize (IH Hs).
    assert (Hab : exists b tail, pre ++ prev :: curr :: rest = b :: tail
                                 /\ pair_ok topo maxt a b).
    { destruct pre as [| b pre']; cbn in *.
      - exists prev, (curr :: rest). split; [reflexivity | now apply HdRel_inv in Hhd].
      - exists b, (pre' ++ prev :: curr :: rest). split; [reflexivity |].
        now apply HdRel_inv in Hhd. }
    destruct Hab as [b [tail [Heq Hok]]].
    cbn [app]. rewrite Heq in *. cbn [walk_pairs].
    destruct (String.eqb_spec (Tracklet.camera_id a) (Tracklet.camera_id b)); [exact IH |].
    destruct Hok as [Hsame | Hacc]; [contradiction |].
    apply transition_rejected_false in Hacc. rewrite Hacc. exact IH.
Qed.

(** C1: [resolve] returns the object links followed by the person links,
    one per lowercased label.  Every object link is resolved with
    confidence 0.83.  A person group is sorted by (start time, camera id)
    and walked pairwise: a pair on two cameras passes iff the later camera
    is a declared neighbour of the earlier one or the gap
    [max(0, curr.t_start - prev.t_end)] does not exceed the travel time;
    the link is resolved with confidence 0.87 iff every pair passes, and
    the first rejected pair decides [resolved = false], confidence 0.46,
    whatever follows it. *)
Theorem resolve_topology_walk (tracklets : list Tracklet)
    (camera_topology : dict (list string)) (max_travel : Z) :
  resolve P tracklets camera_topology max_travel =
    map (object_link P tracklets) (labels_of P object tracklets)
    ++ map (fun label =>
              person_link P camera_topology max_travel label
                          (members P person label tracklets))
           (labels_of P person tracklets)
  /\ (forall link, In link (_resolve_object_links P tracklets) ->
        EntityLink.resolved link = true /\ EntityLink.confidence link = float 0.83)
  /\ (forall label items,
        let link := person_link P camera_topology max_travel label items in
        let sorted_items := sorted_by track_order items in
        Permutation sorted_items items
        /\ consecutive key_le sorted_items
        /\ (EntityLink.resolved link = true <->
            consecutive (pair_ok camera_topology max_travel) sorted_items)
        /\ EntityLink.confidence link =
             (if EntityLink.resolved link then float 0.87 else float 0.46))
  /\ (forall pre prev curr rest,
        consecutive (pair_ok camera_topology max_travel) (pre ++ [prev]) ->
        Tracklet.camera_id prev <> Tracklet.camera_id curr ->
        ~ accepted camera_topology max_travel prev curr ->
        walk_pairs camera_topology max_travel (pre ++ prev :: curr :: rest)
        = (false, float 0.46)).
Proof.
  split; [| split; [| split]].
  - unfold resolve, _resolve_object_links, _resolve_person_links.
    rewrite !group_by_label_members, !map_map. reflexivity.
  - unfold _resolve_object_links. intros link Hin.
    apply in_map_iff in Hin. destruct Hin as [[label items] [<- _]]. now split.
  - intros label items link sorted_items.
    destruct (sorted_by_track_order items) as [Hperm Hsorted].
    split; [exact Hperm |]. split; [exact Hsorted |].
    subst link. unfold person_link. fold sorted_items.
    pose proof (walk_pairs_resolved camera_topology max_travel sorted_items) as Hres.
    destruct (walk_pairs_confidence camera_topology max_travel sorted_items) as [E | E];
      rewrite E in *; cbn in *; split; (exact Hres || reflexivity).
  - apply walk_pairs_first_rejection.
Qed.
End Resolution.

(** ** Activity windows (stage 1) *)





Lemma Qgtb_lt (x y : Q) : Qgtb x y = true <-> (y < x)%Q.
Proof.
  unfold Qgtb. rewrite negb_true_iff. split.
  - intros H. apply Qnot_le_lt. intros Hle. apply Qle_bool_iff in Hle. congruence.
  - intros H. destruct (Qle_bool x y) eqn:E; [| reflexivity].
    apply Qle_bool_iff in E. exfalso. now apply (Qlt_not_le y x).
Qed.

Section ActivityWindows.
Variable P : Ports.



End ActivityWindows.



(** ** Temporal localization (stage 5) *)

Lemma Qgeb_le (x y : Q) : Qgeb x y = true <-> (y <= x)%Q.
Proof. unfold Qgeb. apply Qle_bool_iff. Qed.

Lemma Qgeb_lt (x y : Q) : Qgeb x y = false <-> (x < y)%Q.
Proof.
  unfold Qgeb. split.
  - intros H. apply Qnot_le_lt. intros Hle. apply Qle_bool_iff in Hle. congruence.
  - intros H. destruct (Qle_bool y x) eqn:E; [| reflexivity].
    apply Qle_bool_iff in E. exfalso. now apply (Qlt_not_le x y).
Qed.

Lemma combine_fst_snd {A B} (l : list (A * B)) : combine (map fst l) (map snd l) = l.
Proof. induction l as [| [a b] l IH]; cbn; [reflexivity | now rewrite IH]. Qed.

Lemma map_fst_combine {A B} (l : list A) (l' : list B) :
  List.length l = List.length l' -> map fst (combine l l') = l.
Proof.
  revert l'. induction l as [| a l IH]; intros [| b l'] H; cbn in *;
    try discriminate; [reflexivity |].
  f_equal. apply IH. now injection H.
Qed.

Lemma map_snd_combine {A B} (l : list A) (l' : list B) :
  List.length l = List.length l' -> map snd (combine l l') = l'.
Proof.
  revert l'. induction l as [| a l IH]; intros [| b l'] H; cbn in *;
    try discriminate; [reflexivity |].
  f_equal. apply IH. now injection H.
Qed.

Lemma smooth_curve_length (values : list Q) (window : Z) :
  List.length (smooth_curve values window) = List.length values.
Proof.
  unfold smooth_curve. destruct (_ || _); [reflexivity |].
  now rewrite length_map, length_seq.
Qed.

Section Hysteresis.
Variables high low : Q.

Lemma span_step_opens (st : SpanState) (ts : Z) (score : Q) :
  in_span st = false -> (high <= score)%Q ->
  span_step high low st (ts, score) =
  {| in_span := true; current_start := ts;
     current_scores := [score]; spans := spans st |}.
Proof.
  intros Hin Hs. unfold span_step. rewrite Hin. cbn.
  apply Qgeb_le in Hs. now rewrite Hs.
Qed.

Lemma span_step_idle (st : SpanState) (ts : Z) (score : Q) :
  in_span st = false -> (score < high)%Q -> span_step high low st (ts, score) = st.
Proof.
  intros Hin Hs. unfold span_step. rewrite Hin. cbn.
  apply Qgeb_lt in Hs. now rewrite Hs.
Qed.

Lemma span_step_keeps (st : SpanState) (ts : Z) (score : Q) :
  in_span st = true -> (low <= score)%Q ->
  span_step high low st (ts, score) =
  {| in_span := true; current_start := current_start st;
     current_scores := current_scores st ++ [score]; spans := spans st |}.
Proof.
  intros Hin Hs. unfold span_step. rewrite Hin. cbn.
  apply Qgeb_le in Hs. now rewrite Hs.
Qed.

Lemma span_step_closes (st : SpanState) (ts : Z) (score : Q) :
  in_span st = true -> (score < low)%Q ->
  span_step high low st (ts, score) =
  {| in_span := false; current_start := current_start st;
     current_scores := [];
     spans := spans st ++ [(current_start st, ts, mean (current_scores st))] |}.
Proof.
  intros Hin Hs. unfold span_step. rewrite Hin. cbn.
  apply Qgeb_lt in Hs. now rewrite Hs.
Qed.

Lemma span_loop_idle (samples : list (Z * Q)) (st : SpanState) :
  in_span st = false ->
  Forall (fun sample => (snd sample < high)%Q) samples ->
  span_loop high low samples st = st.
Proof.
  intros Hin Hall. unfold span_loop.
  induction Hall as [| [ts score] samples Hs _ IH]; cbn [fold_left]; [reflexivity |].
  now rewrite span_step_idle.
Qed.

Lemma span_loop_keeps (samples : list (Z * Q)) : forall st,
  in_span st = true ->
  Forall (fun sample => (low <= snd sample)%Q) samples ->
  span_loop high low samples st =
  {| in_span := true; current_start := current_start st;
     current_scores := current_scores st ++ map snd samples; spans := spans st |}.
Proof.
  unfold span_loop.
  induction samples as [| [ts score] samples IH]; intros st Hin Hall; cbn [fold_left map].
  - rewrite app_nil_r. destruct st; cbn in *. now subst.
  - inversion Hall as [| ? ? Hs Hall']; subst.
    rewrite span_step_keeps by assumption.
    rewrite IH by (cbn; auto). cbn. now rewrite <- app_assoc.
Qed.

Lemma span_loop_spans_grow (samples : list (Z * Q)) : forall st,
  exists more, spans (span_loop high low samples st) = spans st ++ more.
Proof.
  unfold span_loop.
  induction samples as [| [ts score] samples IH]; intros st; cbn [fold_left].
  - exists []. now rewrite app_nil_r.
  - destruct (IH (span_step high low st (ts, score))) as [more Hmore].
    rewrite Hmore. unfold span_step.
    destruct (negb (in_span st) && Qgeb score high); cbn; [now exists more |].
    destruct (in_span st); [| now exists more].
    destruct (Qgeb score low); cbn; [now exists more |].
    rewrite <- app_assoc. eexists. reflexivity.
Qed.

Lemma span_finish_grows (timestamps : list Z) (st : SpanState) :
  exists more, span_finish timestamps st = spans st ++ more.
Proof.
  unfold span_finish. destruct (in_span st); [eexists; reflexivity |].
  exists []. now rewrite app_nil_r.
Qed.

(** No sample reaches [high]: no span. *)
Lemma extract_spans_none (samples : list (Z * Q)) :
  Forall (fun sample => (snd sample < high)%Q) samples ->
  _extract_spans (map fst samples) (map snd samples) high low = [].
Proof.
  intros Hall. unfold _extract_spans.
  destruct samples as [| [t0 s0] samples]; [reflexivity |].
  cbn [map fst snd]. change (combine (t0 :: map fst samples) (s0 :: map snd samples))
    with (combine (map fst ((t0, s0) :: samples)) (map snd ((t0, s0) :: samples))).
  rewrite combine_fst_snd, span_loop_idle by (assumption || reflexivity).
  reflexivity.
Qed.

Lemma extract_spans_unfold (samples : list (Z * Q)) (first : Z) :
  samples <> [] ->
  hd 0 (map fst samples) = first ->
  _extract_spans (map fst samples) (map snd samples) high low =
  span_finish (map fst samples)
    (span_loop high low samples
       {| in_span := false; current_start := first;
          current_scores := []; spans := [] |}).
Proof.
  intros Hne Hfirst. unfold _extract_spans.
  destruct samples as [| [t0 s0] samples]; [contradiction |].
  cbn [map fst snd hd] in *. subst first.
  change (combine (t0 :: map fst samples) (s0 :: map snd samples))
    with (combine (map fst ((t0, s0) :: samples)) (map snd ((t0, s0) :: samples))).
  now rewrite combine_fst_snd.
Qed.

(** The first span when the opening sample is followed by a run of samples
    at or above [low] and then by one strictly below [low]. *)
Lemma extract_spans_closed (pre mid rest : list (Z * Q)) (ti tj : Z) (si sj : Q) :
  Forall (fun sample => (snd sample < high)%Q) pre ->
  (high <= si)%Q ->
  Forall (fun sample => (low <= snd sample)%Q) mid ->
  (sj < low)%Q ->
  let samples := pre ++ (ti, si) :: mid ++ (tj, sj) :: rest in
  exists more,
    _extract_spans (map fst samples) (map snd samples) high low =
    (ti, tj, mean (si :: map snd mid)) :: more.
Proof.
  intros Hpre Hsi Hmid Hsj samples.
  rewrite (extract_spans_unfold samples (hd 0 (map fst samples)))
    by (subst samples; destruct pre; (discriminate || reflexivity)).
  set (st0 := {| in_span := false; current_start := hd 0 (map fst samples);
                 current_scores := []; spans := [] |}).
  subst samples. unfold span_loop. rewrite fold_left_app. fold (span_loop high low pre st0).
  rewrite span_loop_idle by (assumption || reflexivity).
  cbn [fold_left]. rewrite span_step_opens by (assumption || reflexivity).
  rewrite fold_left_app.
  match goal with |- context [fold_left _ mid ?s] =>
    fold (span_loop high low mid s); rewrite (span_loop_keeps mid s) by (assumption || reflexivity)
  end.
  cbn [fold_left current_start current_scores spans].
  rewrite span_step_closes by (assumption || reflexivity).
  cbn [current_start current_scores spans app].
  match goal with |- context [fold_left _ rest ?s] =>
    fold (span_loop high low rest s);
    destruct (span_loop_spans_grow rest s) as [more1 H1];
    destruct (span_finish_grows (map fst (pre ++ (ti, si) :: mid ++ (tj, sj) :: rest))
                                (span_loop high low rest s)) as [more2 H2]
  end.
  rewrite H2, H1. cbn. eexists. reflexivity.
Qed.

(** The first span when the run at or above [low] lasts to the end of the
    series: it is closed at the last timestamp. *)
Lemma extract_spans_open_end (pre mid : list (Z * Q)) (ti : Z) (si : Q) :
  Forall (fun sample => (snd sample < high)%Q) pre ->
  (high <= si)%Q ->
  Forall (fun sample => (low <= snd sample)%Q) mid ->
  let samples := pre ++ (ti, si) :: mid in
  _extract_spans (map fst samples) (map snd samples) high low =
  [(ti, last (map fst samples) 0, mean (si :: map snd mid))].
Proof.
  intros Hpre Hsi Hmid samples.
  rewrite (extract_spans_unfold samples (hd 0 (map fst samples)))
    by (subst samples; destruct pre; (discriminate || reflexivity)).
  set (st0 := {| in_span := false; current_start := hd 0 (map fst samples);
                 current_scores := []; spans := [] |}).
  subst samples. unfold span_loop. rewrite fold_left_app. fold (span_loop high low pre st0).
  rewrite span_loop_idle by (assumption || reflexivity).
  cbn [fold_left]. rewrite span_step_opens by (assumption || reflexivity).
  match goal with |- context [fold_left _ mid ?s] =>
    fold (span_loop high low mid s); rewrite (span_loop_keeps mid s) by (assumption || reflexivity)
  end.
  reflexivity.
Qed.
End Hysteresis.

Lemma sorted_set_str_In (l : list string) (x : string) :
  In x (sorted_set_str l) <-> In x l.
Proof.
  unfold sorted_set_str. rewrite <- (dedup_In String.eqb String.eqb_spec l x). split.
  - apply Permutation_in, sorted_by_perm.
  - apply Permutation_in. symmetry. apply sorted_by_perm.
Qed.

Section Localization.
Variable P : Ports.

Lemma localize_spans_samples (tracklet : Tracklet) (clip : Clip) (query_text : string)
    (window : Z) (high low : Q) :
  let samples := localize_samples P tracklet clip query_text window in
  localize_spans P tracklet clip query_text window high low =
  _extract_spans (map fst samples) (map snd samples) high low.
Proof.
  unfold localize_spans, localize_samples. cbn zeta.
  rewrite map_fst_combine, map_snd_combine; [reflexivity | |];
    unfold smoothed_scores; now rewrite smooth_curve_length, !length_map.
Qed.

(** The first extracted span gives the segment its time range and, rounded
    to three decimals, its confidence; without a span the segment covers
    the tracklet, flagged "low_similarity". *)
Lemma localize_takes_first_span (tracklet : Tracklet) (clip : Clip)
    (query_text : string) (window : Z) (high low floor : Q) :
  let segment := localize P tracklet clip query_text window high low floor in
  match localize_spans P tracklet clip query_text window high low with
  | (t_start, t_end, score) :: _ =>
      TemporalSegment.t_start segment = t_start
      /\ TemporalSegment.t_end segment = t_end
      /\ TemporalSegment.confidence segment = round3 score
  | [] =>
      TemporalSegment.t_start segment = Tracklet.t_start tracklet
      /\ TemporalSegment.t_end segment = Tracklet.t_end tracklet
      /\ TemporalSegment.confidence segment = round3 (float 0.35)
      /\ In "low_similarity"%string (TemporalSegment.failure_flags segment)
  end.
Proof.
  unfold localize.
  destruct (localize_spans P tracklet clip query_text window high low)
    as [| [[a b] c] more]; cbn.
  - repeat split. apply sorted_set_str_In, in_or_app. right. now left.
  - repeat split.
Qed.

(** C2, as the code has it.  Per sample: with no span open, a score at or
    above [high] (so also one equal to it) opens a span at that timestamp
    and a lower one changes nothing; with a span open, a score at or above
    [low] (so also one equal to it) keeps it open, and only a score
    strictly below [low] closes it, at that sample's timestamp.  Over the
    series of [localize]: the first sample at or above [high] opens the
    first span, which runs to the first later sample below [low] or else to
    the last timestamp; the segment takes this span's time range, and its
    confidence is the mean of the span's scores rounded to three
    decimals. *)
Theorem hysteresis_localization (tracklet : Tracklet) (clip : Clip)
    (query_text : string) (window : Z) (high low floor : Q) :
  let samples := localize_samples P tracklet clip query_text window in
  let segment := localize P tracklet clip query_text window high low floor in
  (forall st ts score, in_span st = false ->
     ((high <= score)%Q ->
      span_step high low st (ts, score) =
      {| in_span := true; current_start := ts;
         current_scores := [score]; spans := spans st |})
     /\ ((score < high)%Q -> span_step high low st (ts, score) = st))
  /\ (forall st ts score, in_span st = true ->
        ((low <= score)%Q ->
         span_step high low st (ts, score) =
         {| in_span := true; current_start := current_start st;
            current_scores := current_scores st ++ [score]; spans := spans st |})
        /\ ((score < low)%Q ->
            span_step high low st (ts, score) =
            {| in_span := false; current_start := current_start st;
               current_scores := [];
               spans := spans st
                          ++ [(current_start st, ts, mean (current_scores st))] |}))
  /\ (forall st ts,
        (in_span st = false -> in_span (span_step high low st (ts, high)) = true)
        /\ (in_span st = true -> in_span (span_step high low st (ts, low)) = true))
  /\ (forall pre mid rest ti tj si sj,
        samples = pre ++ (ti, si) :: mid ++ (tj, sj) :: rest ->
        Forall (fun sample => (snd sample < high)%Q) pre ->
        (high <= si)%Q ->
        Forall (fun sample => (low <= snd sample)%Q) mid ->
        (sj < low)%Q ->
        TemporalSegment.t_start segment = ti
        /\ TemporalSegment.t_end segment = tj
        /\ TemporalSegment.confidence segment = round3 (mean (si :: map snd mid)))
  /\ (forall pre mid ti si,
        samples = pre ++ (ti, si) :: mid ->
        Forall (fun sample => (snd sample < high)%Q) pre ->
        (high <= si)%Q ->
        Forall (fun sample => (low <= snd sample)%Q) mid ->
        TemporalSegment.t_start segment = ti
        /\ TemporalSegment.t_end segment = last (map fst samples) 0
        /\ TemporalSegment.confidence segment = round3 (mean (si :: map snd mid)))
  /\ (Forall (fun sample => (snd sample < high)%Q) samples ->
        TemporalSegment.t_start segment = Tracklet.t_start tracklet
        /\ TemporalSegment.t_end segment = Tracklet.t_end tracklet
        /\ TemporalSegment.confidence segment = round3 (float 0.35)
        /\ In "low_similarity"%string (TemporalSegment.failure_flags segment)).
Proof.
  intros samples segment.
  pose proof (localize_takes_first_span tracklet clip query_text window high low floor)
    as Hseg.
  cbn zeta in Hseg. fold segment in Hseg.
  rewrite localize_spans_samples in Hseg. cbn zeta in Hseg. fold samples in Hseg.
  split; [| split; [| split; [| split; [| split]]]].
  - intros st ts score Hin. split; intros Hs.
    + now apply span_step_opens.
    + now apply span_step_idle.
  - intros st ts score Hin. split; intros Hs.
    + now apply span_step_keeps.
    + now apply span_step_closes.
  - intros st ts. split; intros Hin.
    + rewrite span_step_opens by (exact Hin || apply Qle_refl). reflexivity.
    + rewrite span_step_keeps by (exact Hin || apply Qle_refl). reflexivity.
  - intros pre mid rest ti tj si sj Heq Hpre Hsi Hmid Hsj.
    destruct (extract_spans_closed high low pre mid rest ti tj si sj Hpre Hsi Hmid Hsj)
      as [more Hspans].
    cbn zeta in Hspans. rewrite <- Heq in Hspans. rewrite Hspans in Hseg. exact Hseg.
  - intros pre mid ti si Heq Hpre Hsi Hmid.
    pose proof (extract_spans_open_end high low pre mid ti si Hpre Hsi Hmid) as Hspans.
    cbn zeta in Hspans. rewrite <- Heq in Hspans. rewrite Hspans in Hseg. exact Hseg.
  - intros Hall. rewrite (extract_spans_none high low samples Hall) in Hseg. exact Hseg.
Qed.
End Localization.

(** C2, instance.  Two seconds of walking followed by one of sitting,
    unsmoothed, with thresholds 0.6 and 0.2: the span opens at second 0
    and is still open at the end of the series.  And one second of walking
    among idle ones, smoothed over three samples, with thresholds 0.4 and
    0.2: the smoothed scores around the spike are
    [fmean([0.1, 0.1, 1.0]) = 0.39999999999999997], below 0.4, so no span
    opens and the segment is the whole tracklet with confidence 0.35. *)
Lemma hysteresis_walker :
  (let segment :=
     localize demo_ports walker walk_sit_clip "walk" 1 (float 0.6) (float 0.2)
              (float 0.5) in
   TemporalSegment.t_start segment = 0
   /\ TemporalSegment.t_end segment = 2
   /\ TemporalSegment.confidence segment = round3 (mean [1.0; 1.0; float 0.3]%Q))
  /\ map snd (localize_samples demo_ports spike_walker spike_clip "walk" 3)
     = [float 0.1; float 0.39999999999999997; float 0.39999999999999997;
        float 0.39999999999999997; float 0.1]
  /\ (let segment :=
        localize demo_ports spike_walker spike_clip "walk" 3 (float 0.4) (float 0.2)
                 (float 0.5) in
      TemporalSegment.t_start segment = 0
      /\ TemporalSegment.t_end segment = 4
      /\ TemporalSegment.confidence segment = round3 (float 0.35)
      /\ In "low_similarity"%string (TemporalSegment.failure_flags segment)).
Proof.
  split; [| split; [vm_compute; reflexivity |]].
  - pose proof (hysteresis_localization demo_ports walker walk_sit_clip "walk"
                  1 (float 0.6) (float 0.2) (float 0.5)) as H.
    cbn zeta in H. destruct H as [_ [_ [_ [_ [H _]]]]].
    apply (H [] [(1, 1.0%Q); (2, float 0.3)] 0 1.0%Q).
    + vm_compute. reflexivity.
    + constructor.
    + vm_compute. discriminate.
    + repeat constructor; vm_compute; discriminate.
  - pose proof (hysteresis_localization demo_ports spike_walker spike_clip "walk"
                  3 (float 0.4) (float 0.2) (float 0.5)) as H.
    cbn zeta in H. destruct H as [_ [_ [_ [_ [_ H]]]]].
    apply H. vm_compute. repeat constructor.
Defined.

(** C2, counterexample: on the series of walking and sitting the first
    span has the mean score [fmean([1.0, 1.0, 0.3]) = 0.7666666666666666],
    and the segment's confidence is 0.767, the mean rounded to three
    decimals, not the mean itself. *)
Lemma confidence_is_rounded :
  localize_spans demo_ports walker walk_sit_clip "walk" 1 (float 0.6) (float 0.2)
    = [(0, 2, mean [1.0; 1.0; float 0.3]%Q)]
  /\ mean [1.0; 1.0; float 0.3]%Q = float 0.7666666666666666
  /\ TemporalSegment.confidence
       (localize demo_ports walker walk_sit_clip "walk" 1 (float 0.6) (float 0.2)
                 (float 0.5))
     = float 0.767
  /\ TemporalSegment.confidence
       (localize demo_ports walker walk_sit_clip "walk" 1 (float 0.6) (float 0.2)
                 (float 0.5))
     <> mean [1.0; 1.0; float 0.3]%Q.
Proof.
  split; [vm_compute; reflexivity |]. split; [vm_compute; reflexivity |].
  split; [vm_compute; reflexivity |].
  intros H. vm_compute in H. discriminate.
Qed.

(** ** Reasoning about computations on the stores *)

Section Monad.
Context {S : Type}.

Lemma bind_Ok_inv {A B} (m : M S A) (k : A -> M S B) (s s' : S) (b : B) :
  bind m k s = (Ok b, s') ->
  exists a s1, m s = (Ok a, s1) /\ k a s1 = (Ok b, s').
Proof.
  unfold bind. destruct (m s) as [[a | e] s1]; [| discriminate].
  intros H. now exists a, s1.
Qed.

Lemma map_m_Ok_inv {A B} (f : A -> M S B) (l : list A) :
  forall s s' ys,
    map_m f l s = (Ok ys, s') ->
    Forall2 (fun x y => exists s1 s2, f x s1 = (Ok y, s2)) l ys.
Proof.
  induction l as [| x l IH]; intros s s' ys H; cbn in H.
  - injection H as <- _. constructor.
  - apply bind_Ok_inv in H. destruct H as [y [s1 [Hy H]]].
    apply bind_Ok_inv in H. destruct H as [ys' [s2 [Hys H]]].
    injection H as <- _. constructor; [now exists s, s1 | eapply IH; eassumption].
Qed.

Lemma map_m_Ok_Forall {A B} (f : A -> M S B) (Q : B -> Prop) (l : list A) :
  (forall x s y s', f x s = (Ok y, s') -> Q y) ->
  forall s s' ys, map_m f l s = (Ok ys, s') -> Forall Q ys.
Proof.
  intros Hf s s' ys H. apply map_m_Ok_inv in H.
  induction H as [| x y l ys [s1 [s2 Hxy]] _ IH]; constructor; [| exact IH].
  eapply Hf. eassumption.
Qed.

End Monad.

Ltac bind_inv H :=
  let a := fresh "a" in
  let s := fresh "s" in
  let Ha := fresh "H" in
  apply bind_Ok_inv in H; destruct H as [a [s [Ha H]]].

Lemma Forall_concat {A} (Q : A -> Prop) (ls : list (list A)) :
  Forall (Forall Q) ls -> Forall Q (List.concat ls).
Proof.
  induction 1 as [| l ls Hl _ IH]; cbn; [constructor |].
  apply Forall_app. now split.
Qed.

(** ** Evidence completeness (stages 6 and 7) *)

Lemma redact_fold (claims : list ClaimRecord) : forall grounded redacted,
  fold_left redact_step claims (grounded, redacted) =
  (grounded ++ filter has_evidence claims,
   redacted + Z.of_nat (List.length (filter (fun c => negb (has_evidence c)) claims))).
Proof.
  induction claims as [| c claims IH]; intros grounded redacted; cbn [fold_left filter].
  - rewrite app_nil_r. cbn. f_equal. lia.
  - unfold redact_step at 2. destruct (has_evidence c); cbn [negb].
    + rewrite IH, <- app_assoc. reflexivity.
    + rewrite IH. f_equal. cbn [List.length]. lia.
Qed.

Lemma has_evidence_iff (claim : ClaimRecord) :
  has_evidence claim = true <-> ClaimRecord.evidence_refs claim <> [].
Proof.
  unfold has_evidence. destruct (ClaimRecord.evidence_refs claim); split;
    congruence.
Qed.

Lemma synthesize_claims (query_text : string) (claims : list ClaimRecord) :
  SynthesisOutput.claims (synthesize query_text claims) = filter has_evidence claims.
Proof.
  unfold synthesize. rewrite redact_fold. cbn [app].
  destruct (filter has_evidence claims); reflexivity.
Qed.

Lemma synthesize_redacted (query_text : string) (claims : list ClaimRecord) :
  SynthesisOutput.redacted_claim_count (synthesize query_text claims) =
  Z.of_nat (List.length (filter (fun c => negb (has_evidence c)) claims)).
Proof.
  unfold synthesize. rewrite redact_fold. cbn [app].
  destruct (filter has_evidence claims); reflexivity.
Qed.

Lemma synthesize_nothing_grounded (query_text : string) (claims : list ClaimRecord) :
  filter has_evidence claims = [] ->
  SynthesisOutput.summary (synthesize query_text claims) = CONSERVATIVE_SUMMARY
  /\ SynthesisOutput.evidence_appendix (synthesize query_text claims) = [].
Proof.
  intros H. unfold synthesize. rewrite redact_fold. cbn [app]. rewrite H.
  now split.
Qed.

Lemma synthesize_redacts (query_text : string) (claims : list ClaimRecord) :
  let out := synthesize query_text claims in
  SynthesisOutput.claims out = filter has_evidence claims
  /\ Forall (fun c => ClaimRecord.evidence_refs c <> []) (SynthesisOutput.claims out)
  /\ SynthesisOutput.redacted_claim_count out =
     Z.of_nat (List.length
                 (filter (fun c => match ClaimRecord.evidence_refs c with
                                   | [] => true
                                   | _ => false
                                   end) claims)).
Proof.
  cbn zeta. rewrite synthesize_claims, synthesize_redacted.
  split; [reflexivity |]. split.
  - apply Forall_forall. intros c Hin.
    apply filter_In in Hin. now apply has_evidence_iff.
  - f_equal. f_equal. apply filter_ext. intros c. unfold has_evidence.
    destruct (ClaimRecord.evidence_refs c); reflexivity.
Qed.

Section EvidenceCompleteness.
Variable P : Ports.
Variable config : RuntimeConfig.

(** The registry returns at least the reference that was just appended. *)
Lemma append_then_get (track_id : string) (evidence : EvidenceRef) (s : PipelineStores) :
  exists refs s',
    (evidence_append track_id evidence ;;; evidence_get track_id) s = (Ok refs, s')
    /\ refs <> [].
Proof.
  unfold bind, evidence_append, modify, evidence_get.
  cbn [PipelineStores.evidence_registry].
  destruct (dict_get_after_append (PipelineStores.evidence_registry s) track_id evidence)
    as [l Hl].
  rewrite Hl. eexists. eexists. split; [reflexivity |]. now destruct l.
Qed.

Lemma build_evidence_nonempty (request : QueryRequest) (track : Tracklet)
    (segment : TemporalSegment) (s : PipelineStores) :
  exists refs s',
    _build_evidence_refs_for_track P config request track segment s = (Ok refs, s')
    /\ refs <> [].
Proof.
  unfold _build_evidence_refs_for_track. unfold bind at 1. unfold get.
  cbv beta iota zeta. apply append_then_get.
Qed.

Lemma moves_to_edge_evidence (request : QueryRequest) (link : EntityLink)
    (curr : Tracklet) (s s' : PipelineStores) (edge : GraphEdge) :
  moves_to_edge P config request link curr s = (Ok edge, s') ->
  edge_has_evidence edge.
Proof.
  unfold moves_to_edge. intros H. bind_inv H.
  match type of H0 with
  | _build_evidence_refs_for_track _ _ ?r ?t ?g ?st = _ =>
      destruct (build_evidence_nonempty r t g st) as [refs [s1 [Hb Hne]]]
  end.
  rewrite Hb in H0. injection H0 as <- <-.
  bind_inv H. injection H as <- _. exact Hne.
Qed.

Lemma exits_edge_evidence (request : QueryRequest) (tracklets : list Tracklet)
    (track_by_id : dict Tracklet) (entity_by_track : dict EntityLink)
    (segment : TemporalSegment) (s s' : PipelineStores) (edges : list GraphEdge) :
  exits_edge P config request tracklets track_by_id entity_by_track segment s
    = (Ok edges, s') ->
  Forall edge_has_evidence edges.
Proof.
  unfold exits_edge. intros H.
  destruct (dict_get _ entity_by_track) as [person_link |];
    [| injection H as <- _; constructor].
  destruct (negb _); [injection H as <- _; constructor |].
  destruct (same_window_object_entities _ _ _ _) as [entities | e]; [| discriminate].
  destruct (first_such is_object_link entities) as [[object_link |] |];
    try (injection H as <- _; constructor).
  destruct (dict_get _ track_by_id) as [track |]; [| discriminate].
  bind_inv H.
  destruct (build_evidence_nonempty request track segment s) as [refs [s1 [Hb Hne]]].
  rewrite Hb in H0. injection H0 as <- <-.
  bind_inv H. injection H as <- _.
  constructor; [exact Hne | constructor].
Qed.

Lemma moves_to_edges_evidence (request : QueryRequest) (track_by_id : dict Tracklet)
    (link : EntityLink) (s s' : PipelineStores) (edges : list GraphEdge) :
  moves_to_edges P config request track_by_id link s = (Ok edges, s') ->
  Forall edge_has_evidence edges.
Proof.
  unfold moves_to_edges.
  destruct (EntityLink.entity_type link); [intros H; injection H as <- _; constructor |].
  apply map_m_Ok_Forall. intros curr s1 edge s2. apply moves_to_edge_evidence.
Qed.

Lemma stage_6_edges_evidence (request : QueryRequest) (tracklets : list Tracklet)
    (entity_links : list EntityLink) (temporal_segments : list TemporalSegment)
    (s s' : PipelineStores) (nodes : list GraphNode) (edges : list GraphEdge) :
  _stage_6_graph_memory P config request tracklets entity_links temporal_segments s
    = (Ok (nodes, edges), s') ->
  Forall edge_has_evidence edges.
Proof.
  unfold _stage_6_graph_memory. intros H.
  bind_inv H. bind_inv H. bind_inv H. bind_inv H. bind_inv H.
  injection H as _ <- _.
  apply Forall_app. split; apply Forall_concat.
  - eapply map_m_Ok_Forall; [| eassumption].
    intros segment sa es sb. apply exits_edge_evidence.
  - eapply map_m_Ok_Forall; [| eassumption].
    intros link sa es sb. apply moves_to_edges_evidence.
Qed.

Lemma claim_of_edge_evidence (edges : list GraphEdge) :
  Forall edge_has_evidence edges ->
  filter has_evidence (map (claim_of_edge P) edges) = map (claim_of_edge P) edges
  /\ filter (fun c => negb (has_evidence c)) (map (claim_of_edge P) edges) = [].
Proof.
  induction 1 as [| edge edges He _ [IH1 IH2]]; [now split |].
  cbn [map filter].
  assert (Hc : has_evidence (claim_of_edge P edge) = true).
  { apply has_evidence_iff. exact He. }
  rewrite Hc. cbn [negb]. split; [now rewrite IH1 | exact IH2].
Qed.

(** C6: the edges stage 6 returns all carry evidence; [synthesize] keeps
    exactly the claims with evidence and counts the others as redacted;
    for the claims stage 7 builds from the edges of stage 6 every claim is
    kept and the count is 0.  The same holds of the edges and the synthesis
    of a run. *)
Theorem evidence_completeness (request : QueryRequest) (tracklets : list Tracklet)
    (entity_links : list EntityLink) (temporal_segments : list TemporalSegment)
    (s s' : PipelineStores) (nodes : list GraphNode) (edges : list GraphEdge) :
  _stage_6_graph_memory P config request tracklets entity_links temporal_segments s
    = (Ok (nodes, edges), s') ->
  Forall (fun edge => GraphEdge.evidence_refs edge <> []) edges
  /\ (forall query_text claims,
        let out := synthesize query_text claims in
        SynthesisOutput.claims out = filter has_evidence claims
        /\ Forall (fun c => ClaimRecord.evidence_refs c <> []) (SynthesisOutput.claims out)
        /\ SynthesisOutput.redacted_claim_count out =
           Z.of_nat (List.length
                       (filter (fun c => match ClaimRecord.evidence_refs c with
                                         | [] => true
                                         | _ => false
                                         end) claims)))
  /\ (forall query_text,
        let out := _stage_7_multimodal_synthesis P query_text edges in
        SynthesisOutput.claims out = map (claim_of_edge P) edges
        /\ Forall (fun c => ClaimRecord.evidence_refs c <> []) (SynthesisOutput.claims out)
        /\ SynthesisOutput.redacted_claim_count out = 0).
Proof.
  intros H. apply stage_6_edges_evidence in H.
  split; [exact H |]. split; [intros; apply synthesize_redacts |].
  intros query_text out. subst out. unfold _stage_7_multimodal_synthesis.
  destruct (claim_of_edge_evidence edges H) as [Hkeep Hdrop].
  rewrite synthesize_claims, synthesize_redacted, Hkeep, Hdrop.
  split; [reflexivity |]. split; [| reflexivity].
  rewrite <- Hkeep. apply Forall_forall. intros c Hin.
  apply filter_In in Hin. now apply has_evidence_iff.
Qed.
End EvidenceCompleteness.

(** C6, instance: a person tracklet and an object tracklet of one window;
    stage 6 emits one EXITS edge, with one evidence reference. *)
Lemma evidence_walker_exits :
  let tracklets := [parked_suv; walker] in
  let links := resolve demo_ports tracklets [] 30 in
  let segments := [localize demo_ports walker walk_sit_clip "walk" 1 (float 0.6) (float 0.2) (float 0.5)] in
  exists nodes edge s',
    _stage_6_graph_memory demo_ports demo_config suv_request tracklets links segments
      PipelineStores.fresh = (Ok (nodes, [edge]), s')
    /\ GraphEdge.edge_type edge = EXITS
    /\ Forall (fun e => GraphEdge.evidence_refs e <> []) [edge].
Proof.
  cbn zeta. eexists. eexists. eexists.
  match goal with
  | |- ?lhs = _ /\ _ /\ _ =>
      let v := eval vm_compute in lhs in
      match v with
      | (Ok (?nodes, [?edge]), ?s') =>
          assert (E : lhs = (Ok (nodes, [edge]), s')) by (vm_compute; reflexivity)
      end
  end.
  split; [exact E |]. split; [reflexivity |].
  exact (proj1 (evidence_completeness demo_ports demo_config _ _ _ _ _ _ _ _ E)).
Defined.

(** ** The empty request *)

Lemma bind_Ok {S A B} (m : M S A) (k : A -> M S B) (s s1 : S) (a : A) :
  m s = (Ok a, s1) -> bind m k s = k a s1.
Proof. intros H. unfold bind. now rewrite H. Qed.


Section EmptyRequest.
Variable P : Ports.
Variable config : RuntimeConfig.






End EmptyRequest.


(** ** Validation and fallback (stage 2) *)

Lemma sorted_by_vw_order (l : list ValidatedWindow) : ranked_desc (sorted_by vw_order l).
Proof.
  unfold ranked_desc.
  apply Sorted_StronglySorted.
  - intros a b c Hab Hbc. eapply Qle_trans; eassumption.
  - pose proof (sorted_by_sorted vw_order) as H.
    assert (Htotal : forall a b, vw_order a b = true \/ vw_order b a = true).
    { intros a b. unfold vw_order. rewrite !Qgeb_le.
      destruct (Qlt_le_dec (ValidatedWindow.confidence a) (ValidatedWindow.confidence b));
        [right; now apply Qlt_le_weak | now left]. }
    specialize (H Htotal l).
    induction H as [| a l0 Hs IH Hhd]; constructor; [exact IH |].
    destruct Hhd; constructor. now apply Qgeb_le.
Qed.

Lemma first_per_clip_best (l : list ValidatedWindow) :
  ranked_desc l ->
  forall seen item,
    In item (first_per_clip seen l) ->
    best_of_clip l item /\ ~ In (ValidatedWindow.clip_id item) seen.
Proof.
  unfold ranked_desc, best_of_clip.
  induction 1 as [| x l Hs IH Hx]; intros seen item Hin; cbn in Hin; [contradiction |].
  rewrite Forall_forall in Hx.
  destruct (mem_string (ValidatedWindow.clip_id x) seen) eqn:E.
  - destruct (IH seen item Hin) as [[Hi Hbest] Hseen].
    split; [| exact Hseen]. split; [now right |].
    intros other [<- | Ho] Hclip; [| now apply Hbest].
    apply mem_string_In in E. rewrite Hclip in E. contradiction.
  - apply mem_string_false in E. destruct Hin as [<- | Hin].
    + split; [| exact E]. split; [now left |].
      intros other [<- | Ho] _; [apply Qle_refl | now apply Hx].
    + destruct (IH _ item Hin) as [[Hi Hbest] Hseen].
      split; [| intros Hs'; apply Hseen; now right].
      split; [now right |].
      intros other [<- | Ho] Hclip; [| now apply Hbest].
      exfalso. apply Hseen. left. exact Hclip.
Qed.

Lemma first_per_clip_covers (l : list ValidatedWindow) : forall seen x,
  In x l -> ~ In (ValidatedWindow.clip_id x) seen ->
  exists item, In item (first_per_clip seen l)
               /\ ValidatedWindow.clip_id item = ValidatedWindow.clip_id x.
Proof.
  induction l as [| y l IH]; intros seen x Hin Hseen; [contradiction |].
  cbn [first_per_clip].
  destruct (mem_string (ValidatedWindow.clip_id y) seen) eqn:E.
  - destruct Hin as [-> | Hin]; [apply mem_string_In in E; contradiction |].
    now apply IH.
  - destruct (String.eqb_spec (ValidatedWindow.clip_id y) (ValidatedWindow.clip_id x))
      as [Heq | Hne].
    + exists y. split; [now left | exact Heq].
    + destruct Hin as [-> | Hin]; [contradiction |].
      destruct (IH (ValidatedWindow.clip_id y :: seen) x Hin) as [item [Hi Hc]].
      * intros [H | H]; [contradiction | contradiction].
      * exists item. split; [now right | exact Hc].
Qed.

Lemma first_per_clip_distinct (l : list ValidatedWindow) : forall seen,
  NoDup (map ValidatedWindow.clip_id (first_per_clip seen l))
  /\ forall item, In item (first_per_clip seen l) ->
                  ~ In (ValidatedWindow.clip_id item) seen.
Proof.
  induction l as [| y l IH]; intros seen; cbn [first_per_clip].
  - split; [constructor | contradiction].
  - destruct (mem_string (ValidatedWindow.clip_id y) seen) eqn:E; [apply IH |].
    apply mem_string_false in E.
    destruct (IH (ValidatedWindow.clip_id y :: seen)) as [Hnd Hout].
    split.
    + cbn [map]. constructor; [| exact Hnd].
      intros Hin. apply in_map_iff in Hin. destruct Hin as [item [Hc Hi]].
      apply (Hout item Hi). left. now symmetry.
    + intros item [<- | Hi]; [exact E |].
      intros Hs. apply (Hout item Hi). now right.
Qed.

Section Validation.
Variable P : Ports.
Variable config : RuntimeConfig.

Lemma score_window_inv (windows_by_id : dict ActiveWindow) (clip_map : dict Clip)
    (query_text : string) (tokens : list string) (embedding : Vec) (id : string)
    (s s' : PipelineStores) (o : option ValidatedWindow) :
  score_window P windows_by_id clip_map query_text tokens embedding id s = (Ok o, s') ->
  match o with
  | None => present windows_by_id id = false
  | Some v => present windows_by_id id = true /\ ValidatedWindow.query_text v = query_text
  end.
Proof.
  unfold score_window, present.
  destruct (dict_get id windows_by_id) as [window |].
  - intros H. bind_inv H. bind_inv H. bind_inv H. injection H as <- _. now split.
  - intros H. injection H as <- _. reflexivity.
Qed.

Lemma score_windows_inv (candidate_ids : list string) (windows_by_id : dict ActiveWindow)
    (request : QueryRequest) (query_text : string) (tokens : list string)
    (embedding : Vec) (s s' : PipelineStores) (scores : list ValidatedWindow) :
  _score_windows P candidate_ids windows_by_id request query_text tokens embedding s
    = (Ok scores, s') ->
  ranked_desc scores
  /\ Forall (fun v => ValidatedWindow.query_text v = query_text) scores
  /\ List.length scores =
     List.length (filter (present windows_by_id) (dedup String.eqb candidate_ids)).
Proof.
  unfold _score_windows. intros H. bind_inv H. injection H as <- _.
  split; [apply sorted_by_vw_order |].
  apply map_m_Ok_inv in H0.
  assert (Hsomes :
    Forall (fun v => ValidatedWindow.query_text v = query_text) (somes a)
    /\ List.length (somes a) =
       List.length (filter (present windows_by_id) (dedup String.eqb candidate_ids))).
  { induction H0 as [| id o ids os [s1 [s2 Hid]] _ [IH1 IH2]]; [now split |].
    apply score_window_inv in Hid. unfold somes. cbn [flat_map filter].
    destruct o as [v |].
    - destruct Hid as [Hp Hq]. rewrite Hp. cbn [app List.length]. split.
      + constructor; [exact Hq | exact IH1].
      + f_equal. exact IH2.
    - rewrite Hid. cbn [app]. now split. }
  destruct Hsomes as [Hq Hlen]. split.
  - rewrite Forall_forall in *. intros v Hv. apply Hq.
    eapply Permutation_in; [apply sorted_by_perm | exact Hv].
  - rewrite <- Hlen. apply Permutation_length, sorted_by_perm.
Qed.

Lemma decompose_tail_differs (query_text subquery : string) :
  In subquery (tl (decompose P query_text)) -> subquery <> query_text.
Proof.
  unfold decompose. destruct (filter nonempty_str _) as [| part parts];
    [contradiction |].
  cbn [tl]. intros Hin. apply filter_In in Hin. destruct Hin as [_ Hne].
  intros ->. rewrite String.eqb_refl in Hne. discriminate.
Qed.

Lemma subquery_pass_inv (candidate_ids : list string) (windows_by_id : dict ActiveWindow)
    (request : QueryRequest) (threshold : Q) (subquery : string)
    (s s' : PipelineStores) (added : list ValidatedWindow) :
  subquery_pass P candidate_ids windows_by_id request threshold subquery s
    = (Ok added, s') ->
  Forall (fun v => ValidatedWindow.query_text v = subquery) added
  /\ (filter (present windows_by_id) (dedup String.eqb candidate_ids) <> [] ->
      added <> []).
Proof.
  unfold subquery_pass. intros H. bind_inv H. injection H as <- _.
  apply score_windows_inv in H0. destruct H0 as [_ [Hq Hlen]]. split.
  - apply Forall_app. split.
    + rewrite Forall_forall in *. intros v Hv. apply filter_In in Hv. now apply Hq.
    + destruct a as [| v rest]; [constructor |]. cbn [firstn].
      constructor; [now inversion Hq | constructor].
  - intros Hne. destruct a as [| v rest].
    + cbn in Hlen. destruct (filter _ _); [contradiction | discriminate].
    + intros Happ. apply app_eq_nil in Happ. destruct Happ as [_ Hf]. discriminate.
Qed.
Lemma subquery_contributions (candidate_ids : list string)
    (windows_by_id : dict ActiveWindow) (request : QueryRequest) (threshold : Q)
    (subqueries : list string) (added : list (list ValidatedWindow)) :
  Forall2
    (fun subquery contribution =>
       exists s1 s2,
         subquery_pass P candidate_ids windows_by_id request threshold subquery s1
         = (Ok contribution, s2))
    subqueries added ->
  (forall v, In v (List.concat added) -> In (ValidatedWindow.query_text v) subqueries)
  /\ (filter (present windows_by_id) (dedup String.eqb candidate_ids) <> [] ->
      subqueries <> [] -> List.concat added <> []).
Proof.
  induction 1 as [| sub contribution subs contributions [sa [sb Hsub]] _ [IH1 IH2]].
  - split; [contradiction | congruence].
  - apply subquery_pass_inv in Hsub. destruct Hsub as [Hsubq Hsubne]. split.
    + cbn [List.concat]. intros v Hv. apply in_app_or in Hv.
      destruct Hv as [Hv | Hv]; [| right; now apply IH1].
      left. rewrite Forall_forall in Hsubq. symmetry. now apply Hsubq.
    + intros Hne _. cbn [List.concat]. intros Happ.
      apply app_eq_nil in Happ. destruct Happ as [Hc _]. revert Hc. now apply Hsubne.
Qed.

Lemma filter_below_threshold (threshold : Q) (scored : list ValidatedWindow) :
  Forall (fun v => (ValidatedWindow.confidence v < threshold)%Q) scored ->
  filter (fun item => Qgeb (ValidatedWindow.confidence item) threshold) scored = [].
Proof.
  induction 1 as [| v l Hv _ IH]; [reflexivity |].
  cbn [filter]. apply Qgeb_lt in Hv. now rewrite Hv.
Qed.

(** C3, as the code has it.  [scored] holds the candidates ranked under
    the full query and [validated] is the list handed to deduplication and
    final selection.  The fallback is taken when [validated] is still empty
    after the sub-query passes: if no candidate reaches the threshold and
    the query has no sub-query, [validated] is the first, hence
    best-scoring, candidate of every clip.  If the query has sub-queries
    and there is a candidate, every sub-query retains its best match, so
    [validated] is not empty and the fallback is not taken: the only items
    scored under the full query in it are those at or above the
    threshold. *)
Theorem fallback_after_subqueries (request : QueryRequest)
    (active_windows : list ActiveWindow) (s s' : PipelineStores)
    (scored validated : list ValidatedWindow) :
  validated_pool P config request active_windows s = (Ok (scored, validated), s') ->
  let query_text := QueryRequest.query_text request in
  let threshold := stage2_min_validation_confidence config in
  let subqueries := tl (decompose P query_text) in
  _stage_2_temporal_retrieval P config request active_windows s =
    (Ok (select_windows (stage2_validated_top_k_windows config) validated), s')
  /\ ranked_desc scored
  /\ Forall (fun v => ValidatedWindow.query_text v = query_text) scored
  /\ (Forall (fun v => (ValidatedWindow.confidence v < threshold)%Q) scored ->
      subqueries = [] ->
      validated = first_per_clip [] scored)
  /\ (forall item, In item (first_per_clip [] scored) -> best_of_clip scored item)
  /\ NoDup (map ValidatedWindow.clip_id (first_per_clip [] scored))
  /\ (forall v, In v scored ->
        exists item, In item (first_per_clip [] scored)
                     /\ ValidatedWindow.clip_id item = ValidatedWindow.clip_id v)
  /\ (scored <> [] -> subqueries <> [] ->
      validated <> []
      /\ forall v, In v validated ->
           (ValidatedWindow.query_text v = query_text
            /\ (threshold <= ValidatedWindow.confidence v)%Q)
           \/ In (ValidatedWindow.query_text v) subqueries).
Proof.
  intros Hpool query_text threshold subqueries.
  split.
  { unfold _stage_2_temporal_retrieval. now rewrite (bind_Ok _ _ _ _ _ Hpool). }
  unfold validated_pool in Hpool.
  apply bind_Ok_inv in Hpool. destruct Hpool as [stores [s0 [Hget Hpool]]].
  injection Hget as <- <-.
  apply bind_Ok_inv in Hpool. destruct Hpool as [scored0 [s1 [Hscore Hpool]]].
  apply bind_Ok_inv in Hpool. destruct Hpool as [added [s2 [Hadded Hpool]]].
  injection Hpool as <- Hval _.
  fold query_text in Hadded, Hval, Hscore. fold threshold in Hadded, Hval.
  fold subqueries in Hadded.
  apply score_windows_inv in Hscore. destruct Hscore as [Hranked [Hq Hlen]].
  apply map_m_Ok_inv in Hadded.
  rewrite <- Hval. clear Hval validated.
  set (full := filter (fun item => Qgeb (ValidatedWindow.confidence item) threshold)
                      scored0) in *.
  assert (Hfull : forall v, In v full ->
            ValidatedWindow.query_text v = query_text
            /\ (threshold <= ValidatedWindow.confidence v)%Q).
  { intros v Hv. apply filter_In in Hv. destruct Hv as [Hin Hge].
    rewrite Forall_forall in Hq. split; [now apply Hq | now apply Qgeb_le]. }
  apply subquery_contributions in Hadded. destruct Hadded as [Hadd1 Hadd2'].
  assert (Hadd2 : scored0 <> [] -> subqueries <> [] -> List.concat added <> []).
  { intros Hne Hsub. apply Hadd2'; [| exact Hsub].
    intros Hcount. rewrite Hcount in Hlen. destruct scored0; [contradiction | discriminate]. }
  assert (Hnosubs : subqueries = [] -> List.concat added = []).
  { intros Hs. destruct (List.concat added) as [| v rest] eqn:E; [reflexivity |].
    exfalso. specialize (Hadd1 v (or_introl eq_refl)). rewrite Hs in Hadd1. exact Hadd1. }
  split; [exact Hranked |]. split; [exact Hq |]. split; [| split; [| split; [| split]]].
  - intros Hbelow Hnosub.
    rewrite (Hnosubs Hnosub).
    subst full. rewrite (filter_below_threshold threshold scored0 Hbelow). cbn [app].
    destruct scored0; reflexivity.
  - intros item Hin. now apply (first_per_clip_best scored0 Hranked [] item).
  - apply first_per_clip_distinct.
  - intros v Hv. apply first_per_clip_covers; [exact Hv | intros []].
  - intros Hne Hsub. specialize (Hadd2 Hne Hsub).
    assert (Hval' : match full ++ List.concat added with
                    | [] => match scored0 with
                            | [] => full ++ List.concat added
                            | _ :: _ => first_per_clip [] scored0
                            end
                    | _ :: _ => full ++ List.concat added
                    end = full ++ List.concat added).
    { destruct (full ++ List.concat added) eqn:E; [| reflexivity].
      apply app_eq_nil in E. destruct E as [_ E]. contradiction. }
    rewrite Hval'. split.
    + intros Happ. apply app_eq_nil in Happ. destruct Happ as [_ E]. contradiction.
    + intros v Hv. apply in_app_or in Hv. destruct Hv as [Hv | Hv];
        [left; now apply Hfull | right; now apply Hadd1].
Qed.
End Validation.

(** C3, instance: "who exits the suv" has no sub-query and its one
    candidate scores 0.5, below the threshold 0.9: the fallback supplies
    it. *)
Lemma fallback_taken_without_subqueries :
  exists scored validated s',
    stage_2_pool demo_ports demo_config suv_request PipelineStores.fresh
      = (Ok (scored, validated), s')
    /\ scored <> []
    /\ Forall (fun v => (ValidatedWindow.confidence v < float 0.9)%Q) scored
    /\ validated = first_per_clip [] scored.
Proof.
  unfold stage_2_pool.
  destruct (_stage_1_activity_ingestion demo_ports suv_request PipelineStores.fresh)
    as [[windows | e] s1] eqn:E1; [| vm_compute in E1; discriminate].
  rewrite (bind_Ok _ _ _ _ _ E1).
  destruct (validated_pool demo_ports demo_config suv_request windows s1)
    as [[[scored validated] | e] s2] eqn:E2;
    [| vm_compute in E1; injection E1 as <- <-; vm_compute in E2; discriminate].
  exists scored, validated, s2. split; [reflexivity |].
  pose proof (fallback_after_subqueries demo_ports demo_config suv_request windows
                s1 s2 scored validated E2) as H.
  cbn zeta in H. destruct H as [_ [_ [_ [Hfall _]]]].
  assert (Hscored : scored <> []
                    /\ Forall (fun v => (ValidatedWindow.confidence v < float 0.9)%Q) scored).
  { vm_compute in E1. injection E1 as <- <-. vm_compute in E2.
    injection E2 as <- _ _. split; [discriminate | repeat constructor]. }
  destruct Hscored as [Hne Hbelow].
  split; [exact Hne |]. split; [exact Hbelow |].
  apply Hfall; [exact Hbelow | reflexivity].
Defined.

(** C3, counterexample: "zebra and yak" has two sub-queries.  Its one
    candidate scores 0.4 under the full query, below the threshold 0.9, and
    is the best-scoring window of its clip; yet [validated] consists of the
    best matches of the two sub-queries, and the candidate as scored under
    the full query is not added. *)
Lemma no_fallback_with_subqueries :
  exists scored validated s',
    stage_2_pool demo_ports demo_config zebra_request PipelineStores.fresh
      = (Ok (scored, validated), s')
    /\ Forall (fun v => (ValidatedWindow.confidence v < float 0.9)%Q) scored
    /\ List.length (first_per_clip [] scored) = 1%nat
    /\ map ValidatedWindow.query_text validated = ["zebra"; "yak"]%string
    /\ forall item, In item (first_per_clip [] scored) -> ~ In item validated.
Proof.
  eexists. eexists. eexists. split; [vm_compute; reflexivity |].
  split; [repeat constructor |]. split; [reflexivity |]. split; [reflexivity |].
  intros item [<- | []] [H | [H | []]]; discriminate.
Qed.

(** ** Repeated runs on one engine *)

Section Oblivious.
Context {S : Type}.

Lemma oblivious_ret {A} (a : A) : oblivious (@ret S A a).
Proof. intros s s'. reflexivity. Qed.

Lemma oblivious_raise {A} (e : exn) : oblivious (@raise S A e).
Proof. intros s s'. reflexivity. Qed.

Lemma oblivious_modify (f : S -> S) : oblivious (modify f).
Proof. intros s s'. reflexivity. Qed.

Lemma oblivious_bind {A B} (m : M S A) (k : A -> M S B) :
  oblivious m -> (forall a, oblivious (k a)) -> oblivious (bind m k).
Proof.
  intros Hm Hk s s'. unfold bind. specialize (Hm s s').
  destruct (m s) as [[a | e] s1], (m s') as [[a' | e'] s1']; cbn in Hm;
    try discriminate.
  - injection Hm as <-. apply Hk.
  - cbn. now injection Hm as <-.
Qed.

Lemma oblivious_map_m {A B} (f : A -> M S B) (l : list A) :
  (forall x, oblivious (f x)) -> oblivious (map_m f l).
Proof.
  intros Hf. induction l as [| x l IH]; cbn [map_m].
  - apply oblivious_ret.
  - apply oblivious_bind; [apply Hf |]. intros y.
    apply oblivious_bind; [exact IH |]. intros ys. apply oblivious_ret.
Qed.

Lemma oblivious_for_each {A} (body : A -> M S unit) (l : list A) :
  (forall x, oblivious (body x)) -> oblivious (for_each l body).
Proof.
  intros Hf. induction l as [| x l IH]; cbn [for_each].
  - apply oblivious_ret.
  - apply oblivious_bind; [apply Hf | intros _; exact IH].
Qed.
End Oblivious.

Ltac oblivious_step :=
  first
    [ apply oblivious_ret
    | apply oblivious_raise
    | apply oblivious_modify
    | apply oblivious_bind
    | apply oblivious_map_m
    | apply oblivious_for_each
    | match goal with
      | |- oblivious (match ?x with _ => _ end) => destruct x
      end
    | intro ].

Section ObliviousStages.
Variable P : Ports.
Variable config : RuntimeConfig.

Lemma stage_1_oblivious (request : QueryRequest) :
  oblivious (_stage_1_activity_ingestion P request).
Proof.
  unfold _stage_1_activity_ingestion, ingest_clip, ingest_window, index_frame,
    frame_index_add.
  repeat oblivious_step.
Qed.

Lemma new_tracklet_oblivious (clip : Clip) (window : ValidatedWindow)
    (entity_type : EntityType) (label : string) (confidence : Q) :
  oblivious (_new_tracklet P clip window entity_type label confidence).
Proof. unfold _new_tracklet, artifact_put. repeat oblivious_step. Qed.

Lemma ground_window_oblivious (window : ValidatedWindow) (clip : Clip)
    (query_variant : string) :
  oblivious (ground_window P window clip query_variant).
Proof.
  unfold ground_window.
  repeat first [apply new_tracklet_oblivious | oblivious_step].
Qed.

Lemma fallback_oblivious (window : ValidatedWindow) (clip : Clip) :
  oblivious (_detector_tracker_fallback P window clip).
Proof. unfold _detector_tracker_fallback, artifact_put. repeat oblivious_step. Qed.

Lemma grounding_attempts_oblivious (window : ValidatedWindow) (clip : Clip)
    (variants : list string) (threshold : Q) (attempts : list Z) :
  forall best_score best_tracklets,
    oblivious (grounding_attempts P window clip variants threshold attempts
                                  best_score best_tracklets).
Proof.
  induction attempts as [| attempt attempts IH]; intros best_score best_tracklets;
    cbn [grounding_attempts].
  - apply oblivious_ret.
  - destruct (variant_at variants attempt); [| apply oblivious_raise].
    apply oblivious_bind; [apply ground_window_oblivious |].
    intros [| t ts]; [apply IH |].
    cbv zeta. destruct (Qgeb _ threshold); [apply oblivious_ret | apply IH].
Qed.

Lemma stage_3_oblivious (request : QueryRequest)
    (validated_windows : list ValidatedWindow) (clips_by_id : dict Clip) :
  oblivious (_stage_3_spatial_grounding P config request validated_windows clips_by_id).
Proof.
  unfold _stage_3_spatial_grounding, ground_validated_window, set_l2.
  repeat first
    [ apply grounding_attempts_oblivious | apply fallback_oblivious | oblivious_step ].
Qed.
End ObliviousStages.

Lemma cache_le_refl (s : PipelineStores) : cache_le s s.
Proof. unfold cache_le. lia. Qed.

Lemma cache_le_trans (s1 s2 s3 : PipelineStores) :
  cache_le s1 s2 -> cache_le s2 s3 -> cache_le s1 s3.
Proof. unfold cache_le. lia. Qed.

Lemma same_nodes_refl (s : PipelineStores) : same_nodes s s.
Proof. reflexivity. Qed.

Lemma same_nodes_trans (s1 s2 s3 : PipelineStores) :
  same_nodes s1 s2 -> same_nodes s2 s3 -> same_nodes s1 s3.
Proof. unfold same_nodes. congruence. Qed.

Section Keeps.
Context {S : Type} (R : S -> S -> Prop).
Hypothesis R_refl : forall s, R s s.
Hypothesis R_trans : forall s1 s2 s3, R s1 s2 -> R s2 s3 -> R s1 s3.

Lemma keeps_ret {A} (a : A) : keeps R (ret a).
Proof. intros s. apply R_refl. Qed.

Lemma keeps_raise {A} (e : exn) : keeps R (@raise S A e).
Proof. intros s. apply R_refl. Qed.

Lemma keeps_get : keeps R get.
Proof. intros s. apply R_refl. Qed.

Lemma keeps_modify (f : S -> S) : (forall s, R s (f s)) -> keeps R (modify f).
Proof. intros Hf s. apply Hf. Qed.

Lemma keeps_bind {A B} (m : M S A) (k : A -> M S B) :
  keeps R m -> (forall a, keeps R (k a)) -> keeps R (bind m k).
Proof.
  intros Hm Hk s. unfold bind. specialize (Hm s).
  destruct (m s) as [[a | e] s1]; cbn [snd] in *; [| exact Hm].
  eapply R_trans; [exact Hm | apply Hk].
Qed.

Lemma keeps_map_m {A B} (f : A -> M S B) (l : list A) :
  (forall x, keeps R (f x)) -> keeps R (map_m f l).
Proof.
  intros Hf. induction l as [| x l IH]; cbn [map_m].
  - apply keeps_ret.
  - apply keeps_bind; [apply Hf |]. intros y.
    apply keeps_bind; [exact IH |]. intros ys. apply keeps_ret.
Qed.

Lemma keeps_for_each {A} (body : A -> M S unit) (l : list A) :
  (forall x, keeps R (body x)) -> keeps R (for_each l body).
Proof.
  intros Hf. induction l as [| x l IH]; cbn [for_each].
  - apply keeps_ret.
  - apply keeps_bind; [apply Hf | intros _; exact IH].
Qed.
End Keeps.

Lemma keeps_lift {A} (R : PipelineStores -> PipelineStores -> Prop) (r : result A) :
  (forall s, R s s) -> keeps R (lift r).
Proof. intros Hrefl. destruct r; intros s; apply Hrefl. Qed.

Lemma counting_get_l1 (key : string) : keeps cache_le (get_l1 key).
Proof.
  intros s. unfold get_l1, cache_le.
  destruct (dict_get key _); cbn; lia.
Qed.

Lemma same_nodes_get_l1 (key : string) : keeps same_nodes (get_l1 key).
Proof. intros s. unfold get_l1. destruct (dict_get key _); reflexivity. Qed.

Lemma keeps_evidence_get (R : PipelineStores -> PipelineStores -> Prop)
    (track_id : string) :
  (forall s, R s s) -> keeps R (evidence_get track_id).
Proof. intros Hrefl s. apply Hrefl. Qed.

(** One syntax-directed step of a proof that a computation keeps a
    relation; [refl] and [trans] are its reflexivity and transitivity,
    [prim] closes the primitive operations on the stores. *)
Ltac keeps_step refl trans prim :=
  first
    [ apply (keeps_ret _ refl)
    | apply (keeps_raise _ refl)
    | apply (keeps_get _ refl)
    | apply (keeps_lift _ _ refl)
    | apply (keeps_evidence_get _ _ refl)
    | apply (keeps_bind _ trans)
    | apply (keeps_map_m _ refl trans)
    | apply (keeps_for_each _ refl trans)
    | prim
    | match goal with
      | |- keeps _ (match ?x with _ => _ end) => destruct x
      end
    | intro ].

Ltac counting_step :=
  keeps_step cache_le_refl cache_le_trans
    ltac:(first [ apply counting_get_l1
                | apply keeps_modify; intros ?; unfold cache_le; cbn; lia ]).

Ltac same_nodes_step :=
  keeps_step same_nodes_refl same_nodes_trans
    ltac:(first [ apply same_nodes_get_l1
                | apply keeps_modify; intros ?; reflexivity ]).

Section KeptByStages.
Variable P : Ports.
Variable config : RuntimeConfig.

Lemma stage_1_counting (request : QueryRequest) :
  keeps cache_le (_stage_1_activity_ingestion P request).
Proof.
  unfold _stage_1_activity_ingestion, ingest_clip, ingest_window, index_frame,
    frame_index_add.
  repeat counting_step.
Qed.

Lemma stage_1_same_nodes (request : QueryRequest) :
  keeps same_nodes (_stage_1_activity_ingestion P request).
Proof.
  unfold _stage_1_activity_ingestion, ingest_clip, ingest_window, index_frame,
    frame_index_add.
  repeat same_nodes_step.
Qed.

Lemma stage_2_counting (request : QueryRequest) (active_windows : list ActiveWindow) :
  keeps cache_le (_stage_2_temporal_retrieval P config request active_windows).
Proof.
  unfold _stage_2_temporal_retrieval, validated_pool, subquery_pass, _score_windows,
    score_window, set_l1, window_index_upsert.
  repeat counting_step.
Qed.

Lemma stage_2_same_nodes (request : QueryRequest) (active_windows : list ActiveWindow) :
  keeps same_nodes (_stage_2_temporal_retrieval P config request active_windows).
Proof.
  unfold _stage_2_temporal_retrieval, validated_pool, subquery_pass, _score_windows,
    score_window, set_l1, window_index_upsert.
  repeat same_nodes_step.
Qed.

Lemma grounding_attempts_keeps (R : PipelineStores -> PipelineStores -> Prop)
    (window : ValidatedWindow) (clip : Clip) (variants : list string) (threshold : Q)
    (attempts : list Z) :
  (forall s, R s s) ->
  (forall s1 s2 s3, R s1 s2 -> R s2 s3 -> R s1 s3) ->
  (forall query_variant, keeps R (ground_window P window clip query_variant)) ->
  forall best_score best_tracklets,
    keeps R (grounding_attempts P window clip variants threshold attempts
                                best_score best_tracklets).
Proof.
  intros Hrefl Htrans Hground.
  induction attempts as [| attempt attempts IH]; intros best_score best_tracklets;
    cbn [grounding_attempts].
  - now apply keeps_ret.
  - destruct (variant_at variants attempt); [| now apply keeps_raise].
    apply (keeps_bind _ Htrans); [apply Hground |].
    intros [| t ts]; [apply IH |].
    cbv zeta. destruct (Qgeb _ threshold); [now apply keeps_ret | apply IH].
Qed.

Lemma stage_3_counting (request : QueryRequest)
    (validated_windows : list ValidatedWindow) (clips_by_id : dict Clip) :
  keeps cache_le
        (_stage_3_spatial_grounding P config request validated_windows clips_by_id).
Proof.
  unfold _stage_3_spatial_grounding, ground_validated_window, set_l2,
    _detector_tracker_fallback, artifact_put.
  repeat first
    [ apply (grounding_attempts_keeps _ _ _ _ _ _ cache_le_refl cache_le_trans);
      intros ?; unfold ground_window, _new_tracklet, artifact_put
    | counting_step ].
Qed.

Lemma stage_3_same_nodes (request : QueryRequest)
    (validated_windows : list ValidatedWindow) (clips_by_id : dict Clip) :
  keeps same_nodes
        (_stage_3_spatial_grounding P config request validated_windows clips_by_id).
Proof.
  unfold _stage_3_spatial_grounding, ground_validated_window, set_l2,
    _detector_tracker_fallback, artifact_put.
  repeat first
    [ apply (grounding_attempts_keeps _ _ _ _ _ _ same_nodes_refl same_nodes_trans);
      intros ?; unfold ground_window, _new_tracklet, artifact_put
    | same_nodes_step ].
Qed.

Lemma stage_6_counting (request : QueryRequest) (tracklets : list Tracklet)
    (entity_links : list EntityLink) (temporal_segments : list TemporalSegment) :
  keeps cache_le
        (_stage_6_graph_memory P config request tracklets entity_links
                               temporal_segments).
Proof.
  unfold _stage_6_graph_memory, exits_edge, moves_to_edges, moves_to_edge,
    _build_evidence_refs_for_track, upsert_track_nodes, upsert_node, add_edge,
    evidence_append.
  repeat counting_step.
Qed.

Lemma run_counting (request : QueryRequest) : keeps cache_le (run P config request).
Proof.
  unfold run.
  repeat first
    [ apply stage_1_counting | apply stage_2_counting | apply stage_3_counting
    | apply stage_6_counting | counting_step ].
Qed.
End KeptByStages.

Section Related.
Context {S : Type}.

Lemma related_ret {A B} (R : A -> B -> Prop) (a : A) (b : B) :
  R a b -> related R (@ret S A a) (@ret S B b).
Proof. intros H s s'. exact H. Qed.

Lemma related_raise {A B} (R : A -> B -> Prop) (e : exn) :
  related R (@raise S A e) (@raise S B e).
Proof. intros s s'. reflexivity. Qed.

Lemma related_bind {A A' B B'} (R1 : A -> A' -> Prop) (R2 : B -> B' -> Prop)
    (m : M S A) (m' : M S A') (k : A -> M S B) (k' : A' -> M S B') :
  related R1 m m' ->
  (forall a a', R1 a a' -> related R2 (k a) (k' a')) ->
  related R2 (bind m k) (bind m' k').
Proof.
  intros Hm Hk s s'. unfold bind. specialize (Hm s s').
  destruct (m s) as [[a | e] s1], (m' s') as [[a' | e'] s1']; cbn in Hm;
    try contradiction.
  - now apply Hk.
  - exact Hm.
Qed.

Lemma oblivious_related {A} (m : M S A) : oblivious m -> related eq m m.
Proof.
  intros H s s'. specialize (H s s'). rewrite H.
  destruct (fst (m s')); reflexivity.
Qed.

Lemma related_map_m {A B B'} (R : B -> B' -> Prop) (f : A -> M S B)
    (f' : A -> M S B') (l : list A) :
  (forall x, related R (f x) (f' x)) ->
  related (Forall2 R) (map_m f l) (map_m f' l).
Proof.
  intros Hf. induction l as [| x l IH]; cbn [map_m].
  - apply related_ret. constructor.
  - eapply related_bind; [apply Hf |]. intros y y' Hy.
    eapply related_bind; [exact IH |]. intros ys ys' Hys.
    apply related_ret. now constructor.
Qed.
End Related.

Lemma Forall2_concat {A B} (R : A -> B -> Prop) (ls : list (list A))
    (ls' : list (list B)) :
  Forall2 (Forall2 R) ls ls' -> Forall2 R (List.concat ls) (List.concat ls').
Proof.
  induction 1 as [| l l' ls ls' Hl _ IH]; cbn; [constructor |].
  now apply Forall2_app.
Qed.

Lemma Forall2_map_eq {A B} (f : A -> B) (l l' : list A) :
  Forall2 (fun a a' => f a = f a') l l' <-> map f l = map f l'.
Proof.
  split.
  - induction 1 as [| a a' l l' Ha _ IH]; cbn; [reflexivity | now rewrite Ha, IH].
  - revert l'. induction l as [| a l IH]; intros [| a' l'] H; cbn in H;
      try discriminate; constructor.
    + now injection H.
    + apply IH. now injection H.
Qed.

Section DictUpdate.
Context {V : Type}.

Lemma dict_get_set (d : dict V) (k k' : string) (v : V) :
  dict_get k' (dict_set k v d) = if String.eqb k' k then Some v else dict_get k' d.
Proof.
  induction d as [| [k0 v0] d IH]; cbn.
  - destruct (String.eqb k' k); reflexivity.
  - destruct (String.eqb_spec k k0) as [-> | Hne]; cbn.
    + destruct (String.eqb k' k0); reflexivity.
    + destruct (String.eqb_spec k' k0) as [-> | Hne'].
      * destruct (String.eqb_spec k0 k); [congruence | reflexivity].
      * exact IH.
Qed.

Lemma dict_get_None (d : dict V) (k : string) :
  dict_get k d = None <-> ~ In k (dict_keys d).
Proof.
  induction d as [| [k0 v0] d IH]; cbn; [tauto |].
  destruct (String.eqb_spec k k0) as [-> | Hne].
  - split; [discriminate | intros H; exfalso; apply H; now left].
  - rewrite IH. split; [intros H [H' | H']; [congruence | contradiction] | tauto].
Qed.

Lemma dict_keys_set (d : dict V) (k : string) (v : V) :
  dict_keys (dict_set k v d) =
  if mem_string k (dict_keys d) then dict_keys d else dict_keys d ++ [k].
Proof.
  unfold dict_keys, mem_string.
  induction d as [| [k0 v0] d IH]; cbn; [reflexivity |].
  destruct (String.eqb k k0); cbn; [reflexivity |].
  rewrite IH. now destruct (existsb (String.eqb k) (map fst d)).
Qed.

Lemma dict_keys_set_NoDup (d : dict V) (k : string) (v : V) :
  NoDup (dict_keys d) -> NoDup (dict_keys (dict_set k v d)).
Proof.
  intros Hnd. rewrite dict_keys_set.
  destruct (mem_string k (dict_keys d)) eqn:E; [exact Hnd |].
  apply mem_string_false in E.
  apply NoDup_app; [exact Hnd | repeat constructor; intros [] |].
  intros x Hx [<- | []]. contradiction.
Qed.

Lemma dict_update_NoDup (entries : list (string * V)) : forall d,
  NoDup (dict_keys d) -> NoDup (dict_keys (dict_update entries d)).
Proof.
  unfold dict_update.
  induction entries as [| [k v] entries IH]; intros d Hnd; cbn [fold_left];
    [exact Hnd |].
  apply IH. now apply dict_keys_set_NoDup.
Qed.

Lemma dict_get_app (d d' : dict V) (k : string) :
  dict_get k (d ++ d') =
  match dict_get k d with Some v => Some v | None => dict_get k d' end.
Proof.
  induction d as [| [k0 v0] d IH]; cbn; [reflexivity |].
  destruct (String.eqb k k0); [reflexivity | exact IH].
Qed.

(** After an update a key holds its last entry, or else what it held. *)
Lemma dict_get_update (entries : list (string * V)) : forall d k,
  dict_get k (dict_update entries d) =
  match dict_get k (rev entries) with
  | Some v => Some v
  | None => dict_get k d
  end.
Proof.
  unfold dict_update.
  induction entries as [| [k0 v0] entries IH]; intros d k; cbn [fold_left rev];
    [reflexivity |].
  rewrite IH, dict_get_app, dict_get_set. cbn [fst snd].
  destruct (dict_get k (rev entries)); [reflexivity |].
  cbn. destruct (String.eqb k k0); reflexivity.
Qed.

Lemma dict_keys_update_present (entries : list (string * V)) : forall d,
  (forall entry, In entry entries -> In (fst entry) (dict_keys d)) ->
  dict_keys (dict_update entries d) = dict_keys d.
Proof.
  unfold dict_update.
  induction entries as [| [k v] entries IH]; intros d Hin; cbn [fold_left];
    [reflexivity |].
  assert (Hk : mem_string k (dict_keys d) = true).
  { apply mem_string_In. apply (Hin (k, v)). now left. }
  rewrite IH.
  - cbn [fst snd]. now rewrite dict_keys_set, Hk.
  - intros entry He. cbn [fst snd]. rewrite dict_keys_set, Hk.
    apply Hin. now right.
Qed.

Lemma dict_update_keys (entries : list (string * V)) (d : dict V) (entry : string * V) :
  In entry entries -> In (fst entry) (dict_keys (dict_update entries d)).
Proof.
  intros Hin.
  destruct (in_dec string_dec (fst entry) (dict_keys (dict_update entries d)))
    as [Hyes | Hno]; [exact Hyes |].
  exfalso. apply dict_get_None in Hno. rewrite dict_get_update in Hno.
  destruct (dict_get (fst entry) (rev entries)) eqn:E; [discriminate |].
  apply dict_get_None in E. apply E. unfold dict_keys.
  apply in_map. now apply in_rev in Hin.
Qed.

Lemma dict_ext (d : dict V) : forall d',
  dict_keys d = dict_keys d' ->
  NoDup (dict_keys d) ->
  (forall k, dict_get k d = dict_get k d') ->
  d = d'.
Proof.
  induction d as [| [k v] d IH]; intros [| [k' v'] d'] Hkeys Hnd Hget;
    cbn in Hkeys; try discriminate; [reflexivity |].
  injection Hkeys as <- Hkeys.
  inversion Hnd as [| ? ? Hnotin Hnd']; subst.
  pose proof (Hget k) as Hk. cbn in Hk. rewrite String.eqb_refl in Hk.
  injection Hk as <-.
  f_equal. apply IH; [exact Hkeys | exact Hnd' |].
  intros k2. specialize (Hget k2). cbn in Hget.
  destruct (String.eqb_spec k2 k) as [Heq | Hne]; [| exact Hget].
  rewrite Heq. clear Hget.
  assert (H1 : dict_get k d = None) by now apply dict_get_None.
  assert (H2 : dict_get k d' = None).
  { apply dict_get_None. unfold dict_keys in *. now rewrite <- Hkeys. }
  now rewrite H1, H2.
Qed.

(** Running the same update a second time changes nothing. *)
Lemma dict_update_idempotent (entries : list (string * V)) (d : dict V) :
  NoDup (dict_keys d) ->
  dict_update entries (dict_update entries d) = dict_update entries d.
Proof.
  intros Hnd. apply dict_ext.
  - apply dict_keys_update_present. intros entry. apply dict_update_keys.
  - now apply dict_update_NoDup, dict_update_NoDup.
  - intros k. rewrite (dict_get_update entries (dict_update entries d)).
    destruct (dict_get k (rev entries)) as [v |] eqn:E; [| reflexivity].
    now rewrite dict_get_update, E.
Qed.
End DictUpdate.

Section Reruns.
Variable P : Ports.
Variable config : RuntimeConfig.

(** What a successful run says about its stages. *)
Lemma run_inv (request : QueryRequest) (s s' : PipelineStores) (r : PipelineResult) :
  run P config request s = (Ok r, s') ->
  let clips_by_id := dict_of Clip.clip_id (QueryRequest.clips request) in
  exists sa sb sc,
    _stage_1_activity_ingestion P request s = (Ok (PipelineResult.active_windows r), sa)
    /\ _stage_2_temporal_retrieval P config request (PipelineResult.active_windows r) sa
       = (Ok (PipelineResult.validated_windows r), sb)
    /\ _stage_3_spatial_grounding P config request (PipelineResult.validated_windows r)
         clips_by_id sb = (Ok (PipelineResult.tracklets r), sc)
    /\ PipelineResult.entity_links r
       = _stage_4_entity_resolution P config request (PipelineResult.tracklets r)
    /\ _stage_5_temporal_localization P config request (PipelineResult.tracklets r)
         clips_by_id = Ok (PipelineResult.temporal_segments r)
    /\ _stage_6_graph_memory P config request (PipelineResult.tracklets r)
         (PipelineResult.entity_links r) (PipelineResult.temporal_segments r) sc
       = (Ok (PipelineResult.graph_nodes r, PipelineResult.graph_edges r), s')
    /\ PipelineResult.synthesis r
       = _stage_7_multimodal_synthesis P (QueryRequest.query_text request)
           (PipelineResult.graph_edges r)
    /\ StageMetrics.cache_hits (PipelineResult.metrics r)
       = FeatureCacheStore.hits (PipelineStores.feature_cache s')
    /\ StageMetrics.cache_misses (PipelineResult.metrics r)
       = FeatureCacheStore.misses (PipelineStores.feature_cache s')
    /\ StageMetrics.stage_durations_ms (PipelineResult.metrics r)
       = map stage_catalog canonical_flow.
Proof.
  intros H. cbv zeta. unfold run in H.
  apply bind_Ok_inv in H. destruct H as [windows [sa [H1 H]]].
  apply bind_Ok_inv in H. destruct H as [validated [sb [H2 H]]].
  apply bind_Ok_inv in H. destruct H as [tracks [sc [H3 H]]].
  cbv zeta in H.
  apply bind_Ok_inv in H. destruct H as [segments [sd [H5 H]]].
  destruct (_stage_5_temporal_localization P config request tracks _)
    as [segments' | e] eqn:E5; [| discriminate].
  injection H5 as <- <-.
  apply bind_Ok_inv in H. destruct H as [[nodes edges] [se [H6 H]]].
  apply bind_Ok_inv in H. destruct H as [[] [sf [Hv H]]].
  destruct (validate_state_snapshot _ _) as [[] | e]; [| discriminate].
  injection Hv as <-.
  apply bind_Ok_inv in H. destruct H as [stores [sg [Hg H]]].
  injection Hg as <- <-.
  injection H as <- <-. cbn.
  exists sa, sb, sc. repeat split; assumption.
Qed.

Lemma related_modify (f g : PipelineStores -> PipelineStores) :
  related (fun _ _ => True) (modify f) (modify g).
Proof. intros s s'. exact I. Qed.

Lemma build_evidence_related (request : QueryRequest) (track : Tracklet)
    (segment : TemporalSegment) :
  related (fun _ _ => True)
          (_build_evidence_refs_for_track P config request track segment)
          (_build_evidence_refs_for_track P config request track segment).
Proof.
  intros s s'.
  destruct (build_evidence_nonempty P config request track segment s)
    as [refs [s1 [H _]]].
  destruct (build_evidence_nonempty P config request track segment s')
    as [refs' [s1' [H' _]]].
  rewrite H, H'. exact I.
Qed.

Lemma exits_edge_shape (request : QueryRequest) (tracklets : list Tracklet)
    (track_by_id : dict Tracklet) (entity_by_track : dict EntityLink)
    (segment : TemporalSegment) :
  related (Forall2 same_shape)
    (exits_edge P config request tracklets track_by_id entity_by_track segment)
    (exits_edge P config request tracklets track_by_id entity_by_track segment).
Proof.
  unfold exits_edge.
  destruct (dict_get _ entity_by_track) as [person_link |];
    [| apply related_ret; constructor].
  destruct (negb _); [apply related_ret; constructor |].
  destruct (same_window_object_entities _ _ _ _) as [entities | e];
    [| apply related_raise].
  destruct (first_such is_object_link entities) as [[object_link |] |];
    try (apply related_ret; constructor).
  destruct (dict_get _ track_by_id) as [track |]; [| apply related_raise].
  eapply related_bind; [apply build_evidence_related |]. intros refs refs' _.
  eapply related_bind; [apply related_modify |]. intros _ _ _.
  apply related_ret. constructor; [reflexivity | constructor].
Qed.

Lemma moves_to_edges_shape (request : QueryRequest) (track_by_id : dict Tracklet)
    (link : EntityLink) :
  related (Forall2 same_shape)
    (moves_to_edges P config request track_by_id link)
    (moves_to_edges P config request track_by_id link).
Proof.
  unfold moves_to_edges.
  destruct (EntityLink.entity_type link); [apply related_ret; constructor |].
  apply related_map_m. intros curr. unfold moves_to_edge.
  eapply related_bind; [apply build_evidence_related |]. intros refs refs' _.
  eapply related_bind; [apply related_modify |]. intros _ _ _.
  apply related_ret. reflexivity.
Qed.

(** The edges of stage 6 depend on the stores only in their evidence. *)
Lemma stage_6_edges_shape (request : QueryRequest) (tracklets : list Tracklet)
    (entity_links : list EntityLink) (temporal_segments : list TemporalSegment) :
  related (fun g g' => map without_evidence (snd g) = map without_evidence (snd g'))
    (_stage_6_graph_memory P config request tracklets entity_links temporal_segments)
    (_stage_6_graph_memory P config request tracklets entity_links temporal_segments).
Proof.
  unfold _stage_6_graph_memory.
  eapply related_bind.
  { apply oblivious_related. apply oblivious_for_each. intros link.
    apply oblivious_modify. }
  intros _ _ _.
  eapply related_bind.
  { apply oblivious_related. apply oblivious_for_each. intros track.
    unfold upsert_track_nodes. apply oblivious_bind; [apply oblivious_modify |].
    intros _. apply oblivious_modify. }
  intros _ _ _.
  eapply related_bind; [apply related_map_m; intros segment; apply exits_edge_shape |].
  intros exits exits' Hexits.
  eapply related_bind; [apply related_map_m; intros link; apply moves_to_edges_shape |].
  intros moves moves' Hmoves.
  eapply related_bind with (R1 := fun _ _ => True); [intros s s'; exact I |].
  intros stores stores' _. apply related_ret. cbn [snd].
  apply Forall2_map_eq. apply Forall2_app; now apply Forall2_concat.
Qed.

Lemma claim_of_edge_shape (edge : GraphEdge) :
  claim_without_evidence (claim_of_edge P edge) = claim_of_edge P (without_evidence edge).
Proof. reflexivity. Qed.

Lemma summary_lines_texts (claims : list ClaimRecord) : forall start,
  map (fun entry =>
         (str_of_int (fst entry + 1) ++ ". " ++ ClaimRecord.text (snd entry))%string)
      (enumerate_from start claims) =
  map (fun entry => (str_of_int (fst entry + 1) ++ ". " ++ snd entry)%string)
      (enumerate_from start (map ClaimRecord.text claims)).
Proof.
  induction claims as [| c claims IH]; intros start; cbn; [reflexivity |].
  now rewrite IH.
Qed.

(** The summary of stage 7 is determined by the edges without their
    evidence, as long as every edge has some. *)
Lemma stage_7_summary_shape (query_text : string) (edges edges' : list GraphEdge) :
  Forall edge_has_evidence edges ->
  Forall edge_has_evidence edges' ->
  map without_evidence edges = map without_evidence edges' ->
  let out := _stage_7_multimodal_synthesis P query_text edges in
  let out' := _stage_7_multimodal_synthesis P query_text edges' in
  map claim_without_evidence (SynthesisOutput.claims out)
  = map claim_without_evidence (SynthesisOutput.claims out')
  /\ SynthesisOutput.summary out = SynthesisOutput.summary out'
  /\ SynthesisOutput.redacted_claim_count out = SynthesisOutput.redacted_claim_count out'.
Proof.
  intros He He' Hshape. cbv zeta. unfold _stage_7_multimodal_synthesis.
  destruct (claim_of_edge_evidence P edges He) as [Hkeep Hdrop].
  destruct (claim_of_edge_evidence P edges' He') as [Hkeep' Hdrop'].
  assert (Hclaims : map claim_without_evidence (map (claim_of_edge P) edges)
                    = map claim_without_evidence (map (claim_of_edge P) edges')).
  { assert (Hmap : forall es,
              map claim_without_evidence (map (claim_of_edge P) es)
              = map (claim_of_edge P) (map without_evidence es)).
    { intros es. rewrite !map_map. apply map_ext. intros e.
      apply claim_of_edge_shape. }
    now rewrite !Hmap, Hshape. }
  split; [| split].
  - now rewrite !synthesize_claims, Hkeep, Hkeep'.
  - assert (Htexts : map ClaimRecord.text (map (claim_of_edge P) edges)
                     = map ClaimRecord.text (map (claim_of_edge P) edges')).
    { apply (f_equal (map ClaimRecord.text)) in Hclaims.
      rewrite !(map_map claim_without_evidence) in Hclaims. exact Hclaims. }
    unfold synthesize. rewrite !redact_fold, Hkeep, Hkeep'. cbn [app].
    destruct edges as [| e es], edges' as [| e' es']; try discriminate; [reflexivity |].
    cbn [map]. cbn [map] in Htexts.
    change (claim_of_edge P e :: map (claim_of_edge P) es)
      with (map (claim_of_edge P) (e :: es)).
    change (claim_of_edge P e' :: map (claim_of_edge P) es')
      with (map (claim_of_edge P) (e' :: es')).
    cbn [SynthesisOutput.summary]. rewrite !summary_lines_texts.
    cbn [map]. now rewrite Htexts.
  - now rewrite !synthesize_redacted, Hdrop, Hdrop'.
Qed.

Lemma upserts_node (node : GraphNode) : upserts [node] (upsert_node node).
Proof. intros s. eexists. split; reflexivity. Qed.

Lemma upserts_bind (ns ns' : list GraphNode) (m m' : M PipelineStores unit) :
  upserts ns m -> upserts ns' m' -> upserts (ns ++ ns') (m ;;; m').
Proof.
  intros Hm Hm' s. destruct (Hm s) as [s1 [E1 N1]]. destruct (Hm' s1) as [s2 [E2 N2]].
  exists s2. unfold bind. rewrite E1, E2. split; [reflexivity |].
  rewrite N2, N1. unfold dict_update. now rewrite map_app, fold_left_app.
Qed.

Lemma upserts_for_each {A} (nodes_of : A -> list GraphNode)
    (body : A -> M PipelineStores unit) (l : list A) :
  (forall x, upserts (nodes_of x) (body x)) ->
  upserts (flat_map nodes_of l) (for_each l body).
Proof.
  intros Hbody. induction l as [| x l IH]; cbn [for_each flat_map].
  - intros s. exists s. split; reflexivity.
  - apply upserts_bind; [apply Hbody | exact IH].
Qed.

Lemma exits_edge_same_nodes (request : QueryRequest) (tracklets : list Tracklet)
    (track_by_id : dict Tracklet) (entity_by_track : dict EntityLink)
    (segment : TemporalSegment) :
  keeps same_nodes
    (exits_edge P config request tracklets track_by_id entity_by_track segment).
Proof.
  unfold exits_edge, _build_evidence_refs_for_track, add_edge, evidence_append.
  repeat same_nodes_step.
Qed.

Lemma moves_to_edges_same_nodes (request : QueryRequest) (track_by_id : dict Tracklet)
    (link : EntityLink) :
  keeps same_nodes (moves_to_edges P config request track_by_id link).
Proof.
  unfold moves_to_edges, moves_to_edge, _build_evidence_refs_for_track, add_edge,
    evidence_append.
  repeat same_nodes_step.
Qed.

(** The graph nodes after stage 6 are those before it, updated with the
    nodes of the entity links and of the tracklets. *)
Lemma stage_6_nodes_effect (request : QueryRequest) (tracklets : list Tracklet)
    (entity_links : list EntityLink) (temporal_segments : list TemporalSegment)
    (s s' : PipelineStores) (nodes : list GraphNode) (edges : list GraphEdge) :
  _stage_6_graph_memory P config request tracklets entity_links temporal_segments s
    = (Ok (nodes, edges), s') ->
  nodes_of_store s' =
    dict_update (map keyed (stage_6_nodes entity_links tracklets)) (nodes_of_store s)
  /\ nodes = dict_values (nodes_of_store s').
Proof.
  unfold _stage_6_graph_memory. intros H.
  apply bind_Ok_inv in H. destruct H as [[] [sa [Ha H]]].
  apply bind_Ok_inv in H. destruct H as [[] [sb [Hb H]]].
  apply bind_Ok_inv in H. destruct H as [exits [sc [Hc H]]].
  apply bind_Ok_inv in H. destruct H as [moves [sd [Hd H]]].
  apply bind_Ok_inv in H. destruct H as [stores [se [He H]]].
  injection He as <- <-. injection H as <- _ <-.
  split; [| reflexivity].
  pose proof (keeps_map_m same_nodes same_nodes_refl same_nodes_trans
                (exits_edge P config request tracklets
                   (dict_of Tracklet.track_id tracklets) (entity_by_track_of entity_links))
                temporal_segments
                (exits_edge_same_nodes request tracklets _ _) sb) as Kc.
  rewrite Hc in Kc.
  pose proof (keeps_map_m same_nodes same_nodes_refl same_nodes_trans
                (moves_to_edges P config request (dict_of Tracklet.track_id tracklets))
                entity_links
                (moves_to_edges_same_nodes request _) sc) as Kd.
  rewrite Hd in Kd. cbn [snd] in Kc, Kd. unfold same_nodes in Kc, Kd.
  unfold nodes_of_store at 1. rewrite Kd, Kc.
  destruct (upserts_for_each (fun link => [entity_node link])
              (fun link => upsert_node (entity_node link)) entity_links
              (fun link => upserts_node (entity_node link)) s) as [sa' [Ea Na]].
  rewrite Ha in Ea. injection Ea as <-.
  destruct (upserts_for_each (fun track => [track_node track; camera_node track])
              upsert_track_nodes tracklets
              (fun track => upserts_bind [track_node track] [camera_node track] _ _
                              (upserts_node _) (upserts_node _)) sa) as [sb' [Eb Nb]].
  rewrite Hb in Eb. injection Eb as <-.
  fold (nodes_of_store sb). rewrite Nb, Na.
  unfold stage_6_nodes, dict_update. rewrite map_app, fold_left_app.
  replace (flat_map (fun link => [entity_node link]) entity_links)
    with (map entity_node entity_links); [reflexivity |].
  clear. induction entity_links as [| link links IH]; [reflexivity |].
  cbn. now rewrite IH.
Qed.

(** C9, as the code has it.  One engine runs the same request twice, the
    second run starting from the stores the first has left (whose graph
    store, a dict, has distinct keys).  Stage 1 does not read the stores,
    so the active windows agree.  Stages 3 to 5 do not read them either, so
    when stage 2 validates the same windows both times, the tracklets,
    entity links and temporal segments agree; the graph nodes agree as
    well, for upserting the same nodes again changes nothing; the graph
    edges and the claims agree in everything but their evidence lists, and
    the summary and the number of redacted claims agree.  The cache
    counters of the second run are at least those of the first, and both
    runs time the same seven stages.  Nothing is said of the validated
    windows, which depend on the frame index that the first run has filled,
    nor of the evidence lists and the evidence appendix, which grow with
    the evidence registry. *)
Theorem rerun_on_same_engine (request : QueryRequest) (s s1 s2 : PipelineStores)
    (first second : PipelineResult) :
  NoDup (dict_keys (nodes_of_store s)) ->
  run P config request s = (Ok first, s1) ->
  run P config request s1 = (Ok second, s2) ->
  PipelineResult.active_windows first = PipelineResult.active_windows second
  /\ (PipelineResult.validated_windows first = PipelineResult.validated_windows second ->
      PipelineResult.tracklets first = PipelineResult.tracklets second
      /\ PipelineResult.entity_links first = PipelineResult.entity_links second
      /\ PipelineResult.temporal_segments first
         = PipelineResult.temporal_segments second
      /\ PipelineResult.graph_nodes first = PipelineResult.graph_nodes second
      /\ map without_evidence (PipelineResult.graph_edges first)
         = map without_evidence (PipelineResult.graph_edges second)
      /\ map claim_without_evidence
             (SynthesisOutput.claims (PipelineResult.synthesis first))
         = map claim_without_evidence
             (SynthesisOutput.claims (PipelineResult.synthesis second))
      /\ SynthesisOutput.summary (PipelineResult.synthesis first)
         = SynthesisOutput.summary (PipelineResult.synthesis second)
      /\ SynthesisOutput.redacted_claim_count (PipelineResult.synthesis first)
         = SynthesisOutput.redacted_claim_count (PipelineResult.synthesis second))
  /\ StageMetrics.cache_hits (PipelineResult.metrics first)
     <= StageMetrics.cache_hits (PipelineResult.metrics second)
  /\ StageMetrics.cache_misses (PipelineResult.metrics first)
     <= StageMetrics.cache_misses (PipelineResult.metrics second)
  /\ StageMetrics.stage_durations_ms (PipelineResult.metrics first)
     = StageMetrics.stage_durations_ms (PipelineResult.metrics second).
Proof.
  intros Hkeys Hrun1 Hrun2.
  pose proof (run_counting P config request s1) as Hcount.
  rewrite Hrun2 in Hcount. cbn [snd] in Hcount. destruct Hcount as [Hhits Hmisses].
  apply run_inv in Hrun1. apply run_inv in Hrun2. cbv zeta in Hrun1, Hrun2.
  destruct Hrun1 as [sa [sb [sc [A1 [A2 [A3 [A4 [A5 [A6 [A7 [A8 [A9 A10]]]]]]]]]]]].
  destruct Hrun2 as [ta [tb [tc [B1 [B2 [B3 [B4 [B5 [B6 [B7 [B8 [B9 B10]]]]]]]]]]]].
  assert (Hwindows :
    PipelineResult.active_windows first = PipelineResult.active_windows second).
  { pose proof (stage_1_oblivious P request s s1) as Hob.
    rewrite A1, B1 in Hob. cbn in Hob. now injection Hob. }
  split; [exact Hwindows |]. split; [| split; [| split]].
  - intros Hvalidated.
    assert (Htracks : PipelineResult.tracklets first = PipelineResult.tracklets second).
    { pose proof (stage_3_oblivious P config request
                    (PipelineResult.validated_windows first)
                    (dict_of Clip.clip_id (QueryRequest.clips request)) sb tb) as Hob.
      rewrite A3 in Hob. rewrite Hvalidated in Hob. rewrite B3 in Hob. cbn in Hob.
      now injection Hob. }
    assert (Hlinks :
      PipelineResult.entity_links first = PipelineResult.entity_links second)
      by now rewrite A4, B4, Htracks.
    assert (Hsegments :
      PipelineResult.temporal_segments first = PipelineResult.temporal_segments second).
    { rewrite Htracks in A5. rewrite A5 in B5. now injection B5. }
    assert (Hedges :
      map without_evidence (PipelineResult.graph_edges first)
      = map without_evidence (PipelineResult.graph_edges second)).
    { pose proof (stage_6_edges_shape request (PipelineResult.tracklets first)
                    (PipelineResult.entity_links first)
                    (PipelineResult.temporal_segments first) sc tc) as Hshape.
      rewrite A6 in Hshape. rewrite Htracks, Hlinks, Hsegments in Hshape.
      rewrite B6 in Hshape. exact Hshape. }
    assert (Hnodes :
      PipelineResult.graph_nodes first = PipelineResult.graph_nodes second).
    { destruct (stage_6_nodes_effect _ _ _ _ _ _ _ _ A6) as [N1 ->].
      destruct (stage_6_nodes_effect _ _ _ _ _ _ _ _ B6) as [N2 ->].
      f_equal. rewrite N2, N1.
      pose proof (stage_1_same_nodes P request s) as K1. rewrite A1 in K1.
      pose proof (stage_2_same_nodes P config request
                    (PipelineResult.active_windows first) sa) as K2.
      rewrite A2 in K2.
      pose proof (stage_3_same_nodes P config request
                    (PipelineResult.validated_windows first)
                    (dict_of Clip.clip_id (QueryRequest.clips request)) sb) as K3.
      rewrite A3 in K3.
      pose proof (stage_1_same_nodes P request s1) as L1. rewrite B1 in L1.
      pose proof (stage_2_same_nodes P config request
                    (PipelineResult.active_windows second) ta) as L2.
      rewrite B2 in L2.
      pose proof (stage_3_same_nodes P config request
                    (PipelineResult.validated_windows second)
                    (dict_of Clip.clip_id (QueryRequest.clips request)) tb) as L3.
      rewrite B3 in L3.
      unfold same_nodes in *. cbn [snd] in *. unfold nodes_of_store in *.
      rewrite L3, L2, L1, N1, K3, K2, K1, <- Htracks, <- Hlinks.
      symmetry. now apply dict_update_idempotent. }
    destruct (stage_7_summary_shape (QueryRequest.query_text request)
                (PipelineResult.graph_edges first) (PipelineResult.graph_edges second)
                (stage_6_edges_evidence P config _ _ _ _ _ _ _ _ A6)
                (stage_6_edges_evidence P config _ _ _ _ _ _ _ _ B6) Hedges)
      as [Hclaims [Hsummary Hredacted]].
    rewrite <- A7, <- B7 in Hclaims, Hsummary, Hredacted.
    repeat (split; [assumption |]). assumption.
  - now rewrite A8, B8.
  - now rewrite A9, B9.
  - now rewrite A10, B10.
Qed.
End Reruns.

(** C9, counterexample.  A new engine runs "who exits the suv" twice: the
    EXITS edge carries one evidence reference after the first run and two
    after the second, so the graph edges and the evidence appendix differ.
    And with two clips and an initial top-K of two, the first run validates
    a window of each clip, while the second, whose frame index holds every
    frame twice, validates the window of one clip only, and tracks
    differently. *)
Lemma second_run_differs :
  (exists first s1 second s2,
     run demo_ports demo_config suv_request PipelineStores.fresh = (Ok first, s1)
     /\ run demo_ports demo_config suv_request s1 = (Ok second, s2)
     /\ map (fun edge => List.length (GraphEdge.evidence_refs edge))
            (PipelineResult.graph_edges first) = [1%nat]
     /\ map (fun edge => List.length (GraphEdge.evidence_refs edge))
            (PipelineResult.graph_edges second) = [2%nat]
     /\ PipelineResult.graph_edges first <> PipelineResult.graph_edges second
     /\ SynthesisOutput.evidence_appendix (PipelineResult.synthesis first)
        <> SynthesisOutput.evidence_appendix (PipelineResult.synthesis second))
  /\ (exists first s1 second s2,
        run ranking_ports narrow_config two_clip_request PipelineStores.fresh
          = (Ok first, s1)
        /\ run ranking_ports narrow_config two_clip_request s1 = (Ok second, s2)
        /\ map ValidatedWindow.clip_id (PipelineResult.validated_windows first)
           = ["clip_ext"; "clip_int"]
        /\ map ValidatedWindow.clip_id (PipelineResult.validated_windows second)
           = ["clip_ext"]
        /\ PipelineResult.tracklets first <> PipelineResult.tracklets second).
Proof.
  split.
  - eexists. eexists. eexists. eexists.
    split; [vm_compute; reflexivity |].
    split; [vm_compute; reflexivity |].
    split; [reflexivity |]. split; [reflexivity |].
    split; intros H; discriminate H.
  - eexists. eexists. eexists. eexists.
    split; [vm_compute; reflexivity |].
    split; [vm_compute; reflexivity |].
    split; [reflexivity |]. split; [reflexivity |].
    intros H. apply (f_equal (@List.length Tracklet)) in H. discriminate H.
Qed.

(** C9, instance: a new engine runs "who exits the suv" twice; both runs
    validate the same windows, so they agree on everything but the
    evidence. *)
Lemma rerun_suv_request :
  exists first s1 second s2,
    run demo_ports demo_config suv_request PipelineStores.fresh = (Ok first, s1)
    /\ run demo_ports demo_config suv_request s1 = (Ok second, s2)
    /\ PipelineResult.active_windows first = PipelineResult.active_windows second
    /\ PipelineResult.graph_nodes first = PipelineResult.graph_nodes second
    /\ map without_evidence (PipelineResult.graph_edges first)
       = map without_evidence (PipelineResult.graph_edges second)
    /\ SynthesisOutput.summary (PipelineResult.synthesis first)
       = SynthesisOutput.summary (PipelineResult.synthesis second)
    /\ StageMetrics.cache_hits (PipelineResult.metrics first)
       <= StageMetrics.cache_hits (PipelineResult.metrics second).
Proof.
  destruct (run demo_ports demo_config suv_request PipelineStores.fresh)
    as [[first | e] s1] eqn:E1; [| vm_compute in E1; discriminate].
  destruct (run demo_ports demo_config suv_request s1)
    as [[second | e] s2] eqn:E2;
    [| vm_compute in E1; injection E1 as <- <-; vm_compute in E2; discriminate].
  exists first, s1, second, s2.
  pose proof (rerun_on_same_engine demo_ports demo_config suv_request
                PipelineStores.fresh s1 s2 first second (NoDup_nil string) E1 E2) as H.
  assert (Hvalidated :
    PipelineResult.validated_windows first = PipelineResult.validated_windows second).
  { vm_compute in E1. injection E1 as <- <-. vm_compute in E2. injection E2 as <- <-.
    reflexivity. }
  tauto.
Defined.

(** * Further properties of the code *)

(** ** The orchestration contract and runtime, continued *)

Lemma StageId_eqb_eq (a b : StageId) : StageId_eqb a b = true <-> a = b.
Proof. destruct a, b; cbn; split; intro H; try reflexivity; discriminate H. Qed.

Lemma can_transition_In (self : OrchestratorContract) (a b : StageId) :
  can_transition self a b = true <-> In b (TRANSITION_GRAPH a).
Proof.
  unfold can_transition. rewrite existsb_exists. split.
  - intros [x [Hin Heq]]. apply StageId_eqb_eq in Heq. now subst.
  - intros Hin. exists b. split; [exact Hin | now apply StageId_eqb_eq].
Qed.

(** X1: the transition graph only ever moves one stage forward or stays:
    a transition from a stage to another is permitted exactly when the
    target is the next stage of the pipeline, or the stage itself for the
    stages 2 to 6.  No transition goes back or skips a stage. *)
Theorem transitions_move_forward (self : OrchestratorContract) (a b : StageId) :
  can_transition self a b = true <->
  stage_index b = stage_index a + 1
  \/ (b = a /\ 2 <= stage_index a <= 6).
Proof.
  destruct a, b; cbn; split; intro H;
    first [ reflexivity
          | discriminate H
          | left; lia
          | right; split; [reflexivity | lia]
          | destruct H as [H | [H H']]; first [discriminate H | lia] ].
Qed.

Lemma assoc_get_In {V} (k : string) (d : list (string * V)) (v : V) :
  assoc_get k d = Some v -> In (k, v) d.
Proof.
  induction d as [| [k' v'] d IH]; cbn; [discriminate |].
  destruct (String.eqb k k') eqn:E.
  - apply String.eqb_eq in E. intros [= ->]. left. now subst.
  - intros H. right. now apply IH.
Qed.

Lemma assoc_get_None {V} (k : string) (d : list (string * V)) :
  assoc_get k d = None -> forall v, ~ In (k, v) d.
Proof.
  induction d as [| [k' v'] d IH]; cbn; [intros _ v [] |].
  destruct (String.eqb k k') eqn:E; [discriminate |].
  intros H v [Heq | Hin].
  - injection Heq as <- _. now rewrite String.eqb_refl in E.
  - now apply (IH H v).
Qed.

(** X2: [next_stage_for_hook] returns a stage exactly for a hook that the
    configuration enables and that [HOOK_TO_STAGE] maps, and then the stage
    is the mapped one, which is one of the stages 2, 3, 4 and 6; for a hook
    that is not enabled or not mapped it raises [ValueError]. *)
Theorem hook_resolution (self : OrchestratorContract) (hook : string) :
  match next_stage_for_hook self hook with
  | Ok s =>
      In hook (branching_hooks self) /\ In (hook, s) HOOK_TO_STAGE
      /\ In s [stage_2; stage_3; stage_4; stage_6]
  | Raise e =>
      (~ In hook (branching_hooks self) \/ forall s, ~ In (hook, s) HOOK_TO_STAGE)
      /\ exists msg, e = ValueError msg
  end.
Proof.
  unfold next_stage_for_hook.
  destruct (mem_string hook (branching_hooks self)) eqn:Hen; cbn [negb].
  - apply mem_string_In in Hen.
    destruct (assoc_get hook HOOK_TO_STAGE) as [s |] eqn:Hmap.
    + pose proof (assoc_get_In _ _ _ Hmap) as Hin.
      split; [exact Hen |]. split; [exact Hin |].
      cbn in Hin.
      destruct Hin as [H | [H | [H | [H | []]]]]; injection H as _ <-; cbn; tauto.
    + split; [right; now apply assoc_get_None | eexists; reflexivity].
  - apply mem_string_false in Hen.
    split; [left; exact Hen | eexists; reflexivity].
Qed.

Lemma next_stage_for_hook_raises (self : OrchestratorContract) (hook : string)
    (e : exn) :
  next_stage_for_hook self hook = Raise e -> exists msg, e = ValueError msg.
Proof.
  unfold next_stage_for_hook.
  destruct (negb _); [intros [= <-]; eexists; reflexivity |].
  destruct (assoc_get hook HOOK_TO_STAGE); [discriminate |].
  intros [= <-]. eexists. reflexivity.
Qed.

(** X3: [apply_branching_hook] either raises [ValueError] and leaves the
    runtime as it was, or returns the stage of the hook and appends exactly
    one event, from the current stage to that stage with the reason
    ["hook:" + hook]; it can only succeed from the hook's own stage or from
    the stage before it. *)
Theorem branching_hook_outcome (rt : OrchestrationRuntime) (current : StageId)
    (hook : string) :
  match apply_branching_hook current hook rt with
  | (Ok next, rt') =>
      next_stage_for_hook (contract rt) hook = Ok next
      /\ (next = current \/ stage_index next = stage_index current + 1)
      /\ rt' = append_event {| from_stage := current; to_stage := next;
                               reason := "hook:" ++ hook |} rt
  | (Raise e, rt') => rt' = rt /\ exists msg, e = ValueError msg
  end.
Proof.
  unfold apply_branching_hook, bind, get.
  pose proof (next_stage_for_hook_raises (contract rt) hook) as Hraise.
  destruct (next_stage_for_hook (contract rt) hook) as [next | e].
  - unfold transition, bind, get, modify, ret.
    destruct (can_transition (contract rt) current next) eqn:Hcan; cbn [negb].
    + split; [reflexivity |]. split; [| reflexivity].
      destruct current, next; cbn in Hcan; try discriminate Hcan; cbn; tauto.
    + split; [reflexivity | eexists; reflexivity].
  - split; [reflexivity | now apply Hraise].
Qed.

Lemma perform_outcome (call : RuntimeCall) (rt : OrchestrationRuntime) :
  match perform call rt with
  | (Ok next, rt') => exists ev, permitted_event ev /\ rt' = append_event ev rt
  | (Raise e, rt') => rt' = rt
  end.
Proof.
  assert (Htransition : forall current next why,
    match transition current next why rt with
    | (Ok _, rt') => exists ev, permitted_event ev /\ rt' = append_event ev rt
    | (Raise _, rt') => rt' = rt
    end).
  { intros current next why. unfold transition, bind, get, modify, ret.
    destruct (can_transition (contract rt) current next) eqn:Hcan; cbn [negb];
      [| reflexivity].
    eexists. split; [| reflexivity].
    unfold permitted_event. cbn. now apply (can_transition_In (contract rt)). }
  destruct call as [current next why | current hook]; cbn [perform].
  - apply Htransition.
  - unfold apply_branching_hook, bind, get.
    destruct (next_stage_for_hook (contract rt) hook) as [next | e];
      [apply Htransition | reflexivity].
Qed.

(** X4: the event log is append-only and records exactly the calls that
    succeeded.  After any sequence of [transition] and
    [apply_branching_hook] calls on a runtime, failing calls included, the
    log is the earlier log followed by one event per successful call, every
    one of them an edge of the transition graph, and the contract is
    unchanged. *)
Theorem event_log_append_only (calls : list RuntimeCall) (rt : OrchestrationRuntime) :
  let '(outcomes, rt') := perform_all calls rt in
  List.length outcomes = List.length calls
  /\ contract rt' = contract rt
  /\ exists added,
       events rt' = events rt ++ added
       /\ Forall permitted_event added
       /\ List.length added = List.length (filter is_ok outcomes).
Proof.
  revert rt. induction calls as [| call calls IH]; intros rt; cbn [perform_all].
  - split; [reflexivity |]. split; [reflexivity |].
    exists []. rewrite app_nil_r. repeat split. constructor.
  - pose proof (perform_outcome call rt) as Hcall.
    destruct (perform call rt) as [outcome rt1].
    specialize (IH rt1). destruct (perform_all calls rt1) as [outcomes rt2].
    destruct IH as [Hlen [Hcontract [added [Hevents [Hperm Hcount]]]]].
    split; [cbn; now rewrite Hlen |].
    destruct outcome as [next | e].
    + destruct Hcall as [ev [Hev ->]]. cbn [contract append_event] in Hcontract.
      split; [exact Hcontract |].
      exists (ev :: added). cbn [events append_event] in Hevents.
      rewrite Hevents, <- app_assoc. split; [reflexivity |].
      split; [now constructor |]. cbn. now rewrite Hcount.
    + subst rt1. split; [exact Hcontract |].
      exists added. repeat split; assumption.
Qed.

Lemma validate_state_snapshot_spec (self : OrchestratorContract) (snapshot_keys : list string) :
  match validate_state_snapshot self snapshot_keys with
  | Ok _ => incl (required_state_keys self) snapshot_keys
  | Raise e =>
      (exists key, In key (required_state_keys self) /\ ~ In key snapshot_keys)
      /\ exists msg, e = ValueError msg
  end.
Proof.
  unfold validate_state_snapshot.
  destruct (filter _ (required_state_keys self)) as [| key missing] eqn:Hmissing.
  - intros key Hkey.
    destruct (mem_string key snapshot_keys) eqn:Hmem; [now apply mem_string_In |].
    assert (Hin : In key (filter (fun k => negb (mem_string k snapshot_keys))
                                 (required_state_keys self))).
    { apply filter_In. split; [exact Hkey | now rewrite Hmem]. }
    rewrite Hmissing in Hin. destruct Hin.
  - split; [| eexists; reflexivity].
    exists key.
    assert (Hin : In key (filter (fun k => negb (mem_string k snapshot_keys))
                                 (required_state_keys self)))
      by (rewrite Hmissing; now left).
    apply filter_In in Hin. destruct Hin as [Hkey Hmem].
    split; [exact Hkey |]. apply mem_string_false.
    now destruct (mem_string key snapshot_keys).
Qed.

(** X5: [validate_state_snapshot] returns exactly when every required key
    is a key of the snapshot; otherwise it raises [ValueError], and some
    required key is indeed missing.  Keys of the snapshot that are not
    required are ignored. *)
Theorem snapshot_validation (self : OrchestratorContract) (snapshot_keys : list string) :
  match validate_state_snapshot self snapshot_keys with
  | Ok _ => incl (required_state_keys self) snapshot_keys
  | Raise e =>
      (exists key, In key (required_state_keys self) /\ ~ In key snapshot_keys)
      /\ exists msg, e = ValueError msg
  end.
Proof. apply validate_state_snapshot_spec. Qed.

(** ** utils.py *)


Lemma chars_rev_string_acc (s acc : string) :
  chars (rev_string_acc s acc) = rev (chars s) ++ chars acc.
Proof.
  unfold chars. revert acc.
  induction s as [| a s IH]; intros acc; cbn; [reflexivity |].
  rewrite IH. cbn. now rewrite <- app_assoc.
Qed.

Lemma chars_rev_string (s : string) : chars (rev_string s) = rev (chars s).
Proof. unfold rev_string. rewrite chars_rev_string_acc. cbn. apply app_nil_r. Qed.

Lemma chars_append (s s' : string) :
  chars (s ++ s')%string = chars s ++ chars s'.
Proof. unfold chars. induction s as [| a s IH]; cbn; [reflexivity | now rewrite IH]. Qed.

Lemma chars_replace_char (c : ascii) (by_ s : string) (x : ascii) :
  In x (chars (replace_char c by_ s)) ->
  (In x (chars s) /\ x <> c) \/ In x (chars by_).
Proof.
  induction s as [| a s IH]; cbn [replace_char]; [intros [] |].
  destruct (Ascii.eqb a c) eqn:E.
  - rewrite chars_append, in_app_iff. intros [H | H]; [now right |].
    destruct (IH H) as [[Hin Hne] | Hby]; [left | now right].
    split; [now right | exact Hne].
  - change (chars (String a (replace_char c by_ s)))
      with (a :: chars (replace_char c by_ s)).
    change (chars (String a s)) with (a :: chars s).
    intros [<- | H].
    + left. split; [now left |]. intros ->. now rewrite Ascii.eqb_refl in E.
    + destruct (IH H) as [[Hin Hne] | Hby]; [left | now right].
      split; [now right | exact Hne].
Qed.

(** The words found are not empty, and their characters are word
    characters of the run being read or of the text. *)
Lemma findall_words_chars (Q : ascii -> Prop) (s : string) : forall cur tok,
  (forall c, In c (chars cur) -> Q c) ->
  (forall c, In c (chars s) -> is_word_char c = true -> Q c) ->
  In tok (findall_words cur s) ->
  tok <> EmptyString /\ Forall Q (chars tok).
Proof.
  assert (Hemit : forall a cur,
            (forall c, In c (chars (String a cur)) -> Q c) ->
            rev_string (String a cur) <> EmptyString
            /\ Forall Q (chars (rev_string (String a cur)))).
  { intros a cur Hcur. split.
    - intros Heq. apply (f_equal chars) in Heq.
      rewrite chars_rev_string in Heq. cbn in Heq.
      symmetry in Heq. now apply app_cons_not_nil in Heq.
    - rewrite chars_rev_string. apply Forall_forall. intros c Hc.
      apply Hcur. now apply in_rev. }
  induction s as [| a s IH]; intros cur tok Hcur Hs; cbn [findall_words].
  - destruct cur as [| b cur]; [intros [] |].
    intros [<- | []]. now apply Hemit.
  - destruct (is_word_char a) eqn:Ha.
    + apply IH.
      * intros c [<- | Hc]; [apply Hs; [now left | exact Ha] | now apply Hcur].
      * intros c Hc. apply Hs. now right.
    + assert (Hrest : In tok (findall_words EmptyString s) ->
                      tok <> EmptyString /\ Forall Q (chars tok)).
      { apply IH; [intros c [] |]. intros c Hc. apply Hs. now right. }
      destruct cur as [| b cur]; [exact Hrest |].
      intros [<- | Hin]; [now apply Hemit | now apply Hrest].
Qed.

Lemma word_char_not_underscore (c : ascii) :
  is_word_char c = true -> c <> "_"%char -> is_lower_alnum c = true.
Proof.
  unfold is_word_char, is_lower_alnum. intros H Hne.
  apply orb_true_iff in H. destruct H as [H | H]; [exact H |].
  exfalso. apply Hne. apply Nat.eqb_eq in H.
  rewrite <- (ascii_nat_embedding c), H. reflexivity.
Qed.

Section Tokens.
Variable P : Ports.

(** X6: whatever [str.lower] does, every token of [tokenize] is a non-empty
    word of lower-case ASCII letters and digits.  The pattern [[a-z0-9_]+]
    allows an underscore, but underscores (and hyphens) have been replaced
    by spaces before it is applied, so no token contains one. *)
Theorem tokens_are_lower_alphanumeric (text tok : string) :
  In tok (tokenize P text) ->
  tok <> EmptyString /\ Forall (fun c => is_lower_alnum c = true) (chars tok).
Proof.
  unfold tokenize. apply findall_words_chars; [intros c [] |].
  intros c Hc Hword. apply word_char_not_underscore; [exact Hword |].
  apply chars_replace_char in Hc. destruct Hc as [[Hc _] | Hc].
  - apply chars_replace_char in Hc. destruct Hc as [[_ Hne] | Hc]; [exact Hne |].
    cbn in Hc. destruct Hc as [<- | []]. discriminate.
  - cbn in Hc. destruct Hc as [<- | []]. discriminate.
Qed.
End Tokens.

Lemma ratio_bounds (a b : nat) :
  (0 < b)%nat -> (a <= b)%nat ->
  (0 <= inject_Z (Z.of_nat a) / inject_Z (Z.of_nat b)
   /\ inject_Z (Z.of_nat a) / inject_Z (Z.of_nat b) <= 1
   /\ (0 < inject_Z (Z.of_nat a) / inject_Z (Z.of_nat b) <-> (0 < a)%nat))%Q.
Proof.
  intros Hb Hab.
  assert (Hb' : (0 < inject_Z (Z.of_nat b))%Q).
  { change 0%Q with (inject_Z 0). rewrite <- Zlt_Qlt. lia. }
  assert (Ha' : (0 <= inject_Z (Z.of_nat a))%Q).
  { change 0%Q with (inject_Z 0). rewrite <- Zle_Qle. lia. }
  split; [| split; [| split]].
  - apply Qle_shift_div_l; [exact Hb' | lra].
  - apply Qle_shift_div_r; [exact Hb' |].
    rewrite Qmult_1_l, <- Zle_Qle. lia.
  - intros Hpos. destruct a as [| a]; [| lia].
    exfalso. revert Hpos. unfold Qlt. cbn. lia.
  - intros Hpos. apply Qlt_shift_div_l; [exact Hb' |].
    rewrite Qmult_0_l. change 0%Q with (inject_Z 0). rewrite <- Zlt_Qlt. lia.
Qed.

(** X7: the token overlap is a ratio between 0 and 1, and it is positive
    exactly when some query token occurs among the semantic tokens (for an
    empty query it is 0). *)
Theorem overlap_score_bounds (query_tokens semantic_tokens : list string) :
  (0 <= overlap_score query_tokens semantic_tokens)%Q
  /\ (overlap_score query_tokens semantic_tokens <= 1)%Q
  /\ ((0 < overlap_score query_tokens semantic_tokens)%Q <->
      exists token, In token query_tokens /\ In token semantic_tokens).
Proof.
  unfold overlap_score.
  destruct query_tokens as [| t0 q'] eqn:Hq.
  - split; [lra |]. split; [lra |]. split; [lra | intros [t [[] _]]].
  - rewrite <- Hq. set (query := dedup String.eqb query_tokens).
    set (common := filter (fun t => mem_string t semantic_tokens) query).
    assert (Hquery : (0 < List.length query)%nat).
    { assert (Hin : In t0 query)
        by (apply (dedup_In String.eqb String.eqb_spec); rewrite Hq; now left).
      destruct query; [destruct Hin | cbn; lia]. }
    assert (Hcommon : (List.length common <= List.length query)%nat)
      by apply filter_length_le.
    destruct (ratio_bounds _ _ Hquery Hcommon) as [H0 [H1 Hpos]].
    unfold int_truediv.
    split; [now apply float_nonneg |]. split; [now apply float_le_1 |].
    rewrite float_positive_iff, Hpos. split.
    + intros Hlen. destruct common as [| t rest] eqn:Hc; [cbn in Hlen; lia |].
      assert (Hin : In t common) by (rewrite Hc; now left).
      apply filter_In in Hin. destruct Hin as [Hin Hmem].
      exists t. split; [| now apply mem_string_In].
      exact (proj1 (dedup_In String.eqb String.eqb_spec _ _) Hin).
    + intros [t [Hin Hsem]].
      assert (Hc : In t common).
      { apply filter_In. split; [| now apply mem_string_In].
        apply (dedup_In String.eqb String.eqb_spec). exact Hin. }
      destruct common; [destruct Hc | cbn; lia].
Qed.

Lemma inject_succ (n : nat) :
  (inject_Z (Z.of_nat (S n)) == inject_Z (Z.of_nat n) + 1)%Q.
Proof. rewrite Nat2Z.inj_succ. unfold Z.succ. now rewrite inject_Z_plus. Qed.

Lemma fold_Qplus_bounds (lo hi : Q) (l : list Q) : within lo hi l -> forall acc,
  (acc + inject_Z (Z.of_nat (List.length l)) * lo <= fold_left Qplus l acc
   /\ fold_left Qplus l acc <= acc + inject_Z (Z.of_nat (List.length l)) * hi)%Q.
Proof.
  induction 1 as [| v l [Hlo Hhi] Hl IH]; intros acc.
  - cbn [fold_left List.length Z.of_nat]. change (inject_Z 0) with 0%Q. split; lra.
  - cbn [fold_left List.length]. destruct (IH (acc + v)%Q) as [IHlo IHhi].
    rewrite inject_succ. split; lra.
Qed.

Section QuotientBounds.
Local Open Scope Q_scope.

(** The quotient of a rounded sum by a rounded count, rounded: the three
    relative errors [u] add up to at most [4 * u]. *)
Lemma quotient_bounds (u lo hi N S fS fN r m : Q) :
  0 < u -> u <= 1 # 8 -> 0 <= lo -> 1 <= N ->
  N * lo <= S -> S <= N * hi ->
  S * (1 - u) <= fS -> fS <= S * (1 + u) ->
  N * (1 - u) <= fN -> fN <= N * (1 + u) ->
  r * fN == fS ->
  r * (1 - u) <= m -> m <= r * (1 + u) ->
  lo * (1 - 4 * u) <= m /\ m <= hi * (1 + 4 * u).
Proof.
  intros Hu Hu8 Hlo HN HSl HSh HfSl HfSh HfNl HfNh Hr Hml Hmh.
  assert (HfN : 0 < fN) by nra.
  assert (HS : 0 <= S) by nra.
  assert (Hhi : 0 <= hi) by nra.
  assert (Hr0 : 0 <= r).
  { assert (0 <= fS) by nra. 
    destruct (Qlt_le_dec r 0) as [Hneg | Hpos]; [| exact Hpos]. exfalso. nra. }
  assert (Hrl : lo * (1 - u) <= r * (1 + u)).
  { assert (H1 : N * lo * (1 - u) <= r * fN) by nra.
    assert (H2 : r * fN <= r * (N * (1 + u))) by nra.
    assert (H3 : N * (lo * (1 - u)) <= N * (r * (1 + u))) by lra.
    nra. }
  assert (Hrh : r * (1 - u) <= hi * (1 + u)).
  { assert (H1 : r * fN <= N * hi * (1 + u)) by nra.
    assert (H2 : r * (N * (1 - u)) <= r * fN) by nra.
    assert (H3 : N * (r * (1 - u)) <= N * (hi * (1 + u))) by lra.
    nra. }
  assert (Hlu : 0 <= lo * u) by nra.
  assert (Hluu : 0 <= lo * u * u) by nra.
  assert (Hhu : 0 <= hi * u) by nra.
  assert (Hhuu : 0 <= hi * u * u) by nra.
  assert (Hhu8 : hi * u * u <= hi * u * (1 # 8)) by nra.
  split.
  - assert (H1 : lo * (1 - 4 * u) * (1 + u) <= lo * (1 - u) * (1 - u)) by lra.
    assert (H2 : lo * (1 - u) * (1 - u) <= r * (1 + u) * (1 - u)) by nra.
    assert (H3 : lo * (1 - 4 * u) * (1 + u) <= m * (1 + u)) by nra.
    nra.
  - assert (H1 : hi * (1 + u) * (1 + u) <= hi * (1 + 4 * u) * (1 - u)) by lra.
    assert (H2 : r * (1 - u) * (1 + u) <= hi * (1 + u) * (1 + u)) by nra.
    assert (H3 : m * (1 - u) <= hi * (1 + 4 * u) * (1 - u)) by nra.
    nra.
Qed.
End QuotientBounds.

Lemma length_positive {A} (v : A) (l : list A) :
  (1 <= inject_Z (Z.of_nat (List.length (v :: l))))%Q.
Proof. change 1%Q with (inject_Z 1). rewrite <- Zle_Qle. cbn [List.length]. lia. Qed.

Lemma mean_bounds (lo hi : Q) (values : list Q) :
  (0 <= lo)%Q -> values <> [] -> within lo hi values ->
  (lowered lo <= mean values /\ mean values <= raised hi)%Q.
Proof.
  intros Hlo Hne Hin. destruct values as [| v l]; [contradiction |].
  unfold mean, fmean, fsum, fdiv, lowered, raised, mean_slack.
  set (values := v :: l) in *.
  set (N := inject_Z (Z.of_nat (List.length values))).
  assert (HN : (1 <= N)%Q) by apply length_positive.
  destruct (fold_Qplus_bounds lo hi values Hin 0) as [HSl HSh]. fold N in HSl, HSh.
  fold (Qsum values) in HSl, HSh. set (S := Qsum values) in *.
  assert (HS : (0 <= S)%Q) by nra.
  pose proof (float_error S HS) as [HfSl HfSh].
  pose proof (float_error N ltac:(lra)) as [HfNl HfNh].
  assert (HfN : (0 < float N)%Q) by (apply float_positive; lra).
  assert (HfS : (0 <= float S)%Q) by now apply float_nonneg.
  assert (Hr : (0 <= float S / float N)%Q).
  { apply Qle_shift_div_l; [exact HfN | lra]. }
  pose proof (float_error _ Hr) as [Hml Hmh].
  assert (Er : (float S / float N * float N == float S)%Q) by (field; lra).
  setoid_replace (1 # 2 ^ 51)%Q with (4 * (1 # 2 ^ 53))%Q by reflexivity.
  apply (quotient_bounds (1 # 2 ^ 53) lo hi N S (float S) (float N)
                         (float S / float N)%Q);
    try assumption; try reflexivity; try lra.
  unfold Qle. cbn. lia.
Qed.


Lemma mean_le_1 (lo : Q) (values : list Q) : within lo 1 values -> (mean values <= 1)%Q.
Proof.
  intros Hin. destruct values as [| v l]; [cbn; lra |].
  unfold mean, fmean, fsum, fdiv.
  destruct (fold_Qplus_bounds lo 1 (v :: l) Hin 0) as [_ HSh].
  fold (Qsum (v :: l)) in HSh.
  pose proof (length_positive v l) as HN.
  set (N := inject_Z (Z.of_nat (List.length (v :: l)))) in *.
  apply float_le_1. apply Qle_shift_div_r.
  - apply float_positive. lra.
  - rewrite Qmult_1_l. apply float_le. lra.
Qed.



Lemma Forall_firstn_of {A} (Q : A -> Prop) (n : nat) (l : list A) :
  Forall Q l -> Forall Q (firstn n l).
Proof.
  intros H. revert n. induction H as [| x l Hx Hl IH]; intros [| n]; cbn;
    constructor; [exact Hx | apply IH].
Qed.

Lemma Forall_skipn_of {A} (Q : A -> Prop) (n : nat) (l : list A) :
  Forall Q l -> Forall Q (skipn n l).
Proof.
  intros H. revert n. induction H as [| x l Hx Hl IH]; intros [| n]; cbn;
    [constructor | constructor | now constructor | apply IH].
Qed.

Lemma slice_nonempty {A} (l : list A) (start stop : nat) :
  (start < stop)%nat -> (start < List.length l)%nat -> slice l start stop <> [].
Proof.
  intros Hstop Hlen Heq. apply (f_equal (@List.length A)) in Heq.
  unfold slice in Heq. rewrite length_firstn, length_skipn in Heq. cbn in Heq. lia.
Qed.

Lemma within_slack (lo hi : Q) (values : list Q) :
  (0 <= lo)%Q -> within lo hi values -> within (lowered lo) (raised hi) values.
Proof.
  intros Hlo. apply Forall_impl. intros v [H1 H2].
  unfold lowered, raised, mean_slack.
  assert (Hs : (0 < 1 # 2 ^ 51)%Q) by reflexivity.
  assert (Hs1 : (1 # 2 ^ 51 <= 1)%Q) by (unfold Qle; cbn; lia).
  set (s := (1 # 2 ^ 51)%Q) in *. split; nra.
Qed.

Lemma smooth_curve_within (lo hi : Q) (values : list Q) (window : Z) :
  (0 <= lo)%Q -> within lo hi values ->
  within (lowered lo) (raised hi) (smooth_curve values window).
Proof.
  intros Hlo Hin. unfold smooth_curve.
  destruct ((window <=? 1) || (List.length values <=? 1)%nat);
    [now apply within_slack |].
  unfold within. apply Forall_forall. intros v Hv.
  apply in_map_iff in Hv. destruct Hv as [idx [<- Hidx]].
  apply in_seq in Hidx.
  apply mean_bounds; [exact Hlo | |].
  - apply slice_nonempty; lia.
  - unfold slice. apply Forall_firstn_of, Forall_skipn_of. exact Hin.
Qed.

Lemma smooth_curve_le_1 (lo : Q) (values : list Q) (window : Z) :
  within lo 1 values -> Forall (fun v => (v <= 1)%Q) (smooth_curve values window).
Proof.
  intros Hin. unfold smooth_curve.
  destruct ((window <=? 1) || (List.length values <=? 1)%nat).
  - revert Hin. apply Forall_impl. now intros v [_ H].
  - apply Forall_forall. intros v Hv.
    apply in_map_iff in Hv. destruct Hv as [idx [<- Hidx]].
    apply (mean_le_1 lo). unfold slice. apply Forall_firstn_of, Forall_skipn_of. exact Hin.
Qed.



(** ** stores.py *)

Lemma StronglySorted_app_inv {A} (R : A -> A -> Prop) (l1 l2 : list A) :
  StronglySorted R (l1 ++ l2) ->
  StronglySorted R l1 /\ forall a b, In a l1 -> In b l2 -> R a b.
Proof.
  induction l1 as [| x l1 IH]; cbn; intros H.
  - split; [constructor | intros a b []].
  - apply StronglySorted_inv in H. destruct H as [Hs Hall].
    destruct (IH Hs) as [Hs1 Hcross].
    split.
    + constructor; [exact Hs1 |].
      apply Forall_forall. intros y Hy.
      apply (proj1 (Forall_forall _ _) Hall). apply in_or_app. now left.
    + intros a b [<- | Ha] Hb.
      * apply (proj1 (Forall_forall _ _) Hall). apply in_or_app. now right.
      * now apply Hcross.
Qed.

Lemma Sorted_weaken {A} (R R' : A -> A -> Prop) (l : list A) :
  (forall a b, R a b -> R' a b) -> Sorted R l -> Sorted R' l.
Proof.
  intros Himp. induction 1 as [| a l Hs IH Hhd]; constructor; [exact IH |].
  destruct Hhd as [| b l' Hab]; constructor. now apply Himp.
Qed.

Lemma take_firstn {A} (top_k : Z) (l : list A) :
  take top_k l =
  firstn (if top_k <? 0 then (List.length l - Z.to_nat (- top_k))%nat
          else Z.to_nat top_k) l.
Proof. unfold take. now destruct (top_k <? 0). Qed.

Section FrameIndex.
Variable P : Ports.

(** X10: [FrameIndexStore.search] returns the top of the ranking.  Its hits
    followed by some remainder are a rearrangement of all records paired
    with their similarity to the query; the hits are in non-increasing
    order of similarity; no record of the remainder is more similar than a
    hit; and there are [min(top_k, n)] hits ([n + top_k], at least none,
    for a negative [top_k], which Python's slice counts from the end). *)
Theorem search_returns_top_of_ranking (records : list KeyframeRecord)
    (query_embedding : Vec) (top_k : Z) :
  let hits := frame_index_search P records query_embedding top_k in
  let scored :=
    map (fun record =>
           (cosine_similarity P query_embedding (KeyframeRecord.embedding record),
            record))
        records in
  exists rest,
    Permutation (hits ++ rest) scored
    /\ StronglySorted (fun a b => (fst b <= fst a)%Q) hits
    /\ (forall hit other, In hit hits -> In other rest -> (fst other <= fst hit)%Q)
    /\ List.length hits =
       Nat.min (if top_k <? 0 then (List.length records - Z.to_nat (- top_k))%nat
                else Z.to_nat top_k)
               (List.length records).
Proof.
  cbv zeta. unfold frame_index_search. rewrite take_firstn.
  set (scored := map _ records).
  set (before := fun a b : Q * KeyframeRecord => Qgeb (fst a) (fst b)).
  set (ranked := sorted_by before scored).
  assert (Hlen : List.length ranked = List.length records).
  { unfold ranked. rewrite (Permutation_length (sorted_by_perm before scored)).
    unfold scored. apply length_map. }
  rewrite Hlen.
  set (n := if top_k <? 0 then _ else _).
  exists (skipn n ranked).
  assert (Hsorted : StronglySorted (fun a b => (fst b <= fst a)%Q) ranked).
  { apply Sorted_StronglySorted.
    - intros a b c Hab Hbc. now apply Qle_trans with (fst b).
    - assert (Htotal : forall a b, before a b = true \/ before b a = true).
      { intros a b. unfold before, Qgeb. rewrite !Qle_bool_iff.
        destruct (Qlt_le_dec (fst a) (fst b)) as [H | H];
          [right; now apply Qlt_le_weak | now left]. }
      apply (Sorted_weaken (fun a b => before a b = true));
        [| apply (sorted_by_sorted before Htotal scored)].
      intros a b Hab. unfold before, Qgeb in Hab. now apply Qle_bool_iff in Hab. }
  rewrite <- (firstn_skipn n ranked) in Hsorted at 1.
  apply StronglySorted_app_inv in Hsorted. destruct Hsorted as [Hhits Hcross].
  split; [| split; [| split]].
  - rewrite firstn_skipn. apply sorted_by_perm.
  - exact Hhits.
  - exact Hcross.
  - rewrite length_firstn, Hlen. reflexivity.
Qed.
End FrameIndex.

Lemma with_feature_cache_get (c : FeatureCacheStore.t) (s : PipelineStores) :
  PipelineStores.feature_cache (with_feature_cache c s) = c.
Proof. reflexivity. Qed.

Lemma get_l1_value (key : string) (s : PipelineStores) :
  value_of (get_l1 key) s
  = Ok (dict_get key (FeatureCacheStore.l1 (PipelineStores.feature_cache s))).
Proof.
  unfold value_of, get_l1.
  now destruct (dict_get key (FeatureCacheStore.l1 (PipelineStores.feature_cache s))).
Qed.

Lemma get_l2_value (key : string) (s : PipelineStores) :
  value_of (get_l2 key) s
  = Ok (dict_get key (FeatureCacheStore.l2 (PipelineStores.feature_cache s))).
Proof.
  unfold value_of, get_l2.
  now destruct (dict_get key (FeatureCacheStore.l2 (PipelineStores.feature_cache s))).
Qed.

(** X11: every [get_l1] counts once.  A lookup of a cached key returns the
    cached features and adds one hit; a lookup of any other key returns
    [None] and adds one miss; in both cases the cached entries of both
    levels and all other stores are as before, so that hits plus misses
    grows by one with every lookup. *)
Theorem get_l1_counts_once (key : string) (s : PipelineStores) :
  let s' := state_after (get_l1 key) s in
  value_of (get_l1 key) s
    = Ok (dict_get key (FeatureCacheStore.l1 (PipelineStores.feature_cache s)))
  /\ (cache_hits s', cache_misses s') =
     match dict_get key (FeatureCacheStore.l1 (PipelineStores.feature_cache s)) with
     | Some _ => (cache_hits s + 1, cache_misses s)
     | None => (cache_hits s, cache_misses s + 1)
     end
  /\ FeatureCacheStore.l1 (PipelineStores.feature_cache s')
     = FeatureCacheStore.l1 (PipelineStores.feature_cache s)
  /\ FeatureCacheStore.l2 (PipelineStores.feature_cache s')
     = FeatureCacheStore.l2 (PipelineStores.feature_cache s)
  /\ with_feature_cache (PipelineStores.feature_cache s) s' = s.
Proof.
  cbv zeta. split; [apply get_l1_value |].
  unfold state_after, get_l1, cache_hits, cache_misses.
  destruct (dict_get key (FeatureCacheStore.l1 (PipelineStores.feature_cache s)));
    cbn [snd with_feature_cache PipelineStores.feature_cache
         FeatureCacheStore.hits FeatureCacheStore.misses
         FeatureCacheStore.l1 FeatureCacheStore.l2];
    (split; [reflexivity |]); (split; [reflexivity |]); (split; [reflexivity |]);
    now destruct s.
Qed.

(** X12: the two cache levels are maps with last-write-wins entries that do
    not interfere.  After [set_l1 key value] a lookup of [key] returns
    [value] and a lookup of any other key returns what it returned before;
    likewise for [set_l2] and [get_l2]; and a write to one level changes no
    lookup of the other, nor the counters. *)
Theorem cache_levels_round_trip (key other : string) (features : WindowFeatures)
    (tokens : list string) (s : PipelineStores) :
  value_of (get_l1 other) (state_after (set_l1 key features) s)
    = (if String.eqb other key then Ok (Some features) else value_of (get_l1 other) s)
  /\ value_of (get_l2 other) (state_after (set_l2 key tokens) s)
     = (if String.eqb other key then Ok (Some tokens) else value_of (get_l2 other) s)
  /\ value_of (get_l1 other) (state_after (set_l2 key tokens) s)
     = value_of (get_l1 other) s
  /\ value_of (get_l2 other) (state_after (set_l1 key features) s)
     = value_of (get_l2 other) s
  /\ cache_hits (state_after (set_l1 key features) s) = cache_hits s
  /\ cache_misses (state_after (set_l1 key features) s) = cache_misses s
  /\ cache_hits (state_after (set_l2 key tokens) s) = cache_hits s
  /\ cache_misses (state_after (set_l2 key tokens) s) = cache_misses s.
Proof.
  rewrite !get_l1_value, !get_l2_value.
  unfold state_after, set_l1, set_l2, modify, cache_hits, cache_misses.
  cbn [snd with_feature_cache PipelineStores.feature_cache
       FeatureCacheStore.hits FeatureCacheStore.misses
       FeatureCacheStore.l1 FeatureCacheStore.l2].
  rewrite !dict_get_set.
  destruct (String.eqb other key); repeat split.
Qed.

Lemma dict_values_set_In {V} (d : dict V) (k : string) (v : V) :
  In v (dict_values (dict_set k v d)).
Proof.
  unfold dict_values. induction d as [| [k0 v0] d IH]; cbn; [now left |].
  destruct (String.eqb k k0); cbn; [now left | now right].
Qed.

(** X13: the graph store keeps one node per node id and one edge per edge
    id, the last one written.  After [upsert_node] the node is found under
    its id, every other id is mapped as before, an id that was present
    keeps its position and a new one is added at the end, and the edges are
    untouched; after [add_edge] the edge is found under its id, other edge
    ids and the nodes are as before, and the edge is among
    [edges_with_evidence] exactly when it has evidence. *)
Theorem graph_store_last_write_wins (node : GraphNode) (edge : GraphEdge)
    (id : string) (s : PipelineStores) :
  let g := PipelineStores.graph_store s in
  let gn := PipelineStores.graph_store (state_after (upsert_node node) s) in
  let ge := PipelineStores.graph_store (state_after (add_edge edge) s) in
  dict_get id (GraphStore.nodes gn)
    = (if String.eqb id (GraphNode.node_id node) then Some node
       else dict_get id (GraphStore.nodes g))
  /\ dict_keys (GraphStore.nodes gn)
     = (if mem_string (GraphNode.node_id node) (dict_keys (GraphStore.nodes g))
        then dict_keys (GraphStore.nodes g)
        else dict_keys (GraphStore.nodes g) ++ [GraphNode.node_id node])
  /\ GraphStore.edges gn = GraphStore.edges g
  /\ dict_get id (GraphStore.edges ge)
     = (if String.eqb id (GraphEdge.edge_id edge) then Some edge
        else dict_get id (GraphStore.edges g))
  /\ GraphStore.nodes ge = GraphStore.nodes g
  /\ (In edge (edges_with_evidence ge) <-> GraphEdge.evidence_refs edge <> []).
Proof.
  cbv zeta. unfold state_after, upsert_node, add_edge, modify.
  cbn [snd with_graph_store PipelineStores.graph_store GraphStore.nodes GraphStore.edges].
  rewrite !dict_get_set, dict_keys_set.
  repeat (split; [reflexivity |]).
  unfold edges_with_evidence. rewrite filter_In.
  cbn [GraphStore.edges]. split.
  - intros [_ H] Heq. now rewrite Heq in H.
  - intros Hne. split; [apply dict_values_set_In |].
    now destruct (GraphEdge.evidence_refs edge).
Qed.

Lemma dict_get_append {V} (d : dict (list V)) (k k' : string) (x : V) :
  dict_get k' (dict_append k x d)
  = if String.eqb k' k
    then Some (match dict_get k d with Some l => l | None => [] end ++ [x])
    else dict_get k' d.
Proof.
  unfold dict_append.
  destruct (dict_get k d) as [l |]; rewrite dict_get_set; reflexivity.
Qed.

Lemma evidence_get_value (track_id : string) (s : PipelineStores) :
  evidence_get track_id s = (Ok (evidence_of s track_id), s).
Proof. reflexivity. Qed.

Lemma evidence_of_append (track_id other : string) (ref : EvidenceRef)
    (s : PipelineStores) :
  evidence_of (state_after (evidence_append track_id ref) s) other
  = if String.eqb other track_id then evidence_of s track_id ++ [ref]
    else evidence_of s other.
Proof.
  unfold evidence_of, state_after, evidence_append, modify.
  cbn [snd PipelineStores.evidence_registry].
  rewrite dict_get_append.
  now destruct (String.eqb other track_id).
Qed.

(** X14: the evidence registry only accumulates.  After [append] for a
    track, [get] for that track returns everything it returned before
    followed by the new reference, and [get] for any other track returns
    what it returned before; a new registry returns nothing for every
    track; and [get] itself leaves the stores unchanged. *)
Theorem evidence_registry_accumulates (track_id other : string) (ref : EvidenceRef)
    (s : PipelineStores) :
  let s' := state_after (evidence_append track_id ref) s in
  value_of (evidence_get other) s'
    = (if String.eqb other track_id then Ok (evidence_of s track_id ++ [ref])
       else value_of (evidence_get other) s)
  /\ value_of (evidence_get other) PipelineStores.fresh = Ok []
  /\ state_after (evidence_get other) s = s.
Proof.
  cbv zeta. unfold value_of, state_after at 2. rewrite !evidence_get_value.
  cbn [fst snd]. rewrite evidence_of_append.
  destruct (String.eqb other track_id); repeat split.
Qed.

(** ** pipeline.py: evidence *)

Section EvidenceBuilding.
Variable P : Ports.
Variable config : RuntimeConfig.

(** X15: [_build_evidence_refs_for_track] never fails; it returns all the
    evidence the registry already held for the track followed by one new
    reference, which it also registers.  The new reference carries the
    track's clip, camera and overlay, the segment's time range and the
    configured spec version; its embedding id is that of the first indexed
    frame of the track's clip within the segment's range, or, when no
    indexed frame qualifies, the fallback id made from the track id. *)
Theorem build_evidence_extends_registry (request : QueryRequest) (track : Tracklet)
    (segment : TemporalSegment) (s : PipelineStores) :
  exists evidence pre post,
    let m := _build_evidence_refs_for_track P config request track segment in
    value_of m s = Ok (evidence_of s (Tracklet.track_id track) ++ [evidence])
    /\ state_after m s = state_after (evidence_append (Tracklet.track_id track) evidence) s
    /\ EvidenceRef.clip_id evidence = Tracklet.clip_id track
    /\ EvidenceRef.camera_id evidence = Tracklet.camera_id track
    /\ EvidenceRef.overlay_uri evidence = Tracklet.overlay_uri track
    /\ EvidenceRef.frame_range evidence
       = (TemporalSegment.t_start segment, TemporalSegment.t_end segment)
    /\ EvidenceRef.model_version evidence = spec_version config
    /\ PipelineStores.frame_index s = pre ++ post
    /\ Forall (fun record => ~ indexed_in_segment track segment record) pre
    /\ match post with
       | record :: _ =>
           indexed_in_segment track segment record
           /\ EvidenceRef.embedding_id evidence = KeyframeRecord.embedding_id record
       | [] =>
           EvidenceRef.embedding_id evidence
           = stable_id P "EMB" [Tracklet.track_id track; "fallback"]
       end.
Proof.
  set (qualifies := fun record =>
         String.eqb (KeyframeRecord.clip_id record) (Tracklet.clip_id track)
         && (TemporalSegment.t_start segment <=? KeyframeRecord.timestamp record)
         && (KeyframeRecord.timestamp record <=? TemporalSegment.t_end segment)).
  assert (Hqualifies : forall record,
            qualifies record = true <-> indexed_in_segment track segment record).
  { intros record. unfold qualifies, indexed_in_segment.
    rewrite !andb_true_iff, String.eqb_eq, !Z.leb_le. tauto. }
  assert (Hsplit : forall records, exists pre post,
            records = pre ++ post
            /\ Forall (fun record => ~ indexed_in_segment track segment record) pre
            /\ match post with
               | record :: _ =>
                   indexed_in_segment track segment record
                   /\ first_such qualifies records = Some record
               | [] => first_such qualifies records = None
               end).
  { induction records as [| record records IH].
    - exists [], []. repeat split. constructor.
    - destruct (qualifies record) eqn:E.
      + exists [], (record :: records). split; [reflexivity |].
        split; [constructor |]. split; [now apply Hqualifies |].
        unfold first_such. cbn. now rewrite E.
      + destruct IH as [pre [post [Heq [Hpre Hpost]]]].
        exists (record :: pre), post. split; [cbn; now rewrite Heq |].
        split.
        * constructor; [| exact Hpre]. rewrite <- Hqualifies. now rewrite E.
        * unfold first_such in *. cbn. rewrite E. exact Hpost. }
  destruct (Hsplit (PipelineStores.frame_index s)) as [pre [post [Heq [Hpre Hpost]]]].
  eexists. exists pre, post. cbv zeta.
  unfold value_of, state_after, _build_evidence_refs_for_track.
  unfold bind at 1 3. unfold get. cbv beta iota zeta.
  unfold bind. unfold evidence_append at 1 3. unfold modify.
  rewrite !evidence_get_value. cbn [fst snd].
  fold qualifies.
  split.
  { f_equal. etransitivity;
      [ exact (evidence_of_append (Tracklet.track_id track)
                 (Tracklet.track_id track) _ s)
      | now rewrite String.eqb_refl ]. }
  split; [reflexivity |].
  cbn [EvidenceRef.clip_id EvidenceRef.camera_id EvidenceRef.overlay_uri
       EvidenceRef.frame_range EvidenceRef.model_version EvidenceRef.embedding_id].
  repeat (split; [reflexivity |]).
  split; [exact Heq |]. split; [exact Hpre |].
  destruct post as [| record post'].
  - now rewrite Hpost.
  - destruct Hpost as [Hin Hfirst]. now rewrite Hfirst.
Qed.
End EvidenceBuilding.

(** ** Rounding *)

Lemma round_half_even_between (a b : Z) (y : Q) :
  (inject_Z a <= y)%Q -> (y <= inject_Z b)%Q ->
  a <= round_half_even y <= b.
Proof.
  intros Ha Hb. unfold round_half_even.
  pose proof (Qfloor_le y) as Hfl. pose proof (Qlt_floor y) as Hfl'.
  set (fl := Qfloor y) in *.
  assert (Hafl : a <= fl).
  { assert (H : (inject_Z a < inject_Z (fl + 1))%Q) by lra.
    rewrite <- Zlt_Qlt in H. lia. }
  assert (Hflb : fl <= b).
  { assert (H : (inject_Z fl <= inject_Z b)%Q) by lra.
    rewrite <- Zle_Qle in H. exact H. }
  assert (Hup : (inject_Z fl < y)%Q -> fl + 1 <= b).
  { intros Hlt. assert (H : (inject_Z fl < inject_Z b)%Q) by lra.
    rewrite <- Zlt_Qlt in H. lia. }
  destruct (Qcompare_spec (y - inject_Z fl) (1 # 2)) as [Heq | Hlt | Hgt].
  - destruct (Z.even fl); [lia |]. split; [lia |]. apply Hup. lra.
  - lia.
  - split; [lia |]. apply Hup. lra.
Qed.

Lemma round3_between (a b : Z) (x : Q) :
  (a # 1000 <= x)%Q -> (x <= b # 1000)%Q ->
  (float (a # 1000) <= round3 x /\ round3 x <= float (b # 1000))%Q.
Proof.
  intros Ha Hb. unfold round3.
  assert (H : a <= round_half_even (x * 1000) <= b).
  { apply round_half_even_between.
    - assert (E : (inject_Z a == (a # 1000) * 1000)%Q)
        by (unfold Qeq; cbn; lia).
      rewrite E. lra.
    - assert (E : (inject_Z b == (b # 1000) * 1000)%Q)
        by (unfold Qeq; cbn; lia).
      rewrite E. lra. }
  split; apply float_le; unfold Qle; cbn; lia.
Qed.

Lemma clamp01_round3_unit (confidence : Q) :
  (0 <= clamp01_round3 confidence /\ clamp01_round3 confidence <= 1)%Q.
Proof.
  unfold clamp01_round3.
  assert (H : (float (0 # 1000) <= round3 (Qmin (Qmax confidence 0.0) 1.0)
               /\ round3 (Qmin (Qmax confidence 0.0) 1.0) <= float (1000 # 1000))%Q).
  { apply round3_between.
    - apply Q.min_glb; [| unfold Qle; cbn; lia].
      apply Qle_trans with 0.0%Q; [unfold Qle; cbn; lia | apply Q.le_max_r].
    - apply Qle_trans with 1.0%Q; [apply Q.le_min_r | unfold Qle; cbn; lia]. }
  change (float (0 # 1000)) with 0%Q in H.
  change (float (1000 # 1000)) with 1%Q in H. exact H.
Qed.

(** ** Computations that always return *)

Section Ensures.
Context {S : Type}.

Lemma ensures_ret {A} (Q : A -> Prop) (a : A) : Q a -> ensures Q (@ret S A a).
Proof. intros Ha s. exists a, s. now split. Qed.

Lemma ensures_modify (Q : unit -> Prop) (f : S -> S) : Q tt -> ensures Q (modify f).
Proof. intros Ha s. exists tt, (f s). now split. Qed.

Lemma ensures_get (Q : S -> Prop) : (forall s, Q s) -> ensures Q get.
Proof. intros Ha s. exists s, s. now split. Qed.

Lemma ensures_bind {A B} (Q1 : A -> Prop) (Q2 : B -> Prop) (m : M S A)
    (k : A -> M S B) :
  ensures Q1 m -> (forall a, Q1 a -> ensures Q2 (k a)) -> ensures Q2 (bind m k).
Proof.
  intros Hm Hk s. destruct (Hm s) as [a [s1 [E1 Ha]]].
  destruct (Hk a Ha s1) as [b [s2 [E2 Hb]]].
  exists b, s2. unfold bind. rewrite E1. now split.
Qed.

Lemma ensures_weaken {A} (Q Q' : A -> Prop) (m : M S A) :
  (forall a, Q a -> Q' a) -> ensures Q m -> ensures Q' m.
Proof.
  intros Himp Hm s. destruct (Hm s) as [a [s1 [E1 Ha]]].
  exists a, s1. split; [exact E1 | now apply Himp].
Qed.

Lemma ensures_map_m {A B} (Q : A -> B -> Prop) (f : A -> M S B) (l : list A) :
  (forall x, In x l -> ensures (Q x) (f x)) ->
  ensures (Forall2 Q l) (map_m f l).
Proof.
  induction l as [| x l IH]; intros Hf; cbn [map_m].
  - apply ensures_ret. constructor.
  - apply ensures_bind with (Q1 := Q x); [apply Hf; now left |].
    intros y Hy. apply ensures_bind with (Q1 := Forall2 Q l).
    + apply IH. intros x' Hx'. apply Hf. now right.
    + intros ys Hys. apply ensures_ret. now constructor.
Qed.

Lemma ensures_for_each {A} (body : A -> M S unit) (l : list A) :
  (forall x, In x l -> ensures (fun _ => True) (body x)) ->
  ensures (fun _ => True) (for_each l body).
Proof.
  induction l as [| x l IH]; intros Hf; cbn [for_each].
  - now apply ensures_ret.
  - apply ensures_bind with (Q1 := fun _ => True); [apply Hf; now left |].
    intros _ _. apply IH. intros x' Hx'. apply Hf. now right.
Qed.
End Ensures.

Lemma Forall2_Forall_r {A B} (Q : A -> B -> Prop) (R : B -> Prop) (l : list A)
    (l' : list B) :
  (forall x y, In x l -> Q x y -> R y) -> Forall2 Q l l' -> Forall R l'.
Proof.
  intros Himp H. induction H as [| x y l l' Hxy Hrest IH]; constructor.
  - apply (Himp x); [now left | exact Hxy].
  - apply IH. intros x' y' Hin. apply Himp. now right.
Qed.

Lemma Forall2_length_eq {A B} (Q : A -> B -> Prop) (l : list A) (l' : list B) :
  Forall2 Q l l' -> List.length l' = List.length l.
Proof. induction 1; cbn; congruence. Qed.

(** ** adapters.py: spatial grounding *)

Section Grounding.
Variable P : Ports.

Lemma new_tracklet_ensures (clip : Clip) (window : ValidatedWindow)
    (entity_type : EntityType) (label : string) (confidence : Q) :
  ensures (fun t =>
             Tracklet.clip_id t = Clip.clip_id clip
             /\ Tracklet.camera_id t = Clip.camera_id clip
             /\ Tracklet.window_id t = ValidatedWindow.window_id window
             /\ Tracklet.t_start t = ValidatedWindow.t_start window
             /\ Tracklet.t_end t = ValidatedWindow.t_end window
             /\ Tracklet.label t = label
             /\ Tracklet.entity_type t = entity_type
             /\ Tracklet.mask_confidence t = clamp01_round3 confidence)
          (_new_tracklet P clip window entity_type label confidence).
Proof.
  unfold _new_tracklet, artifact_put.
  apply ensures_bind with (Q1 := fun _ => True); [now apply ensures_modify |].
  intros _ _. apply ensures_ret. cbn. repeat split.
Qed.

Lemma ground_window_ensures (window : ValidatedWindow) (clip : Clip)
    (query_variant : string) :
  ensures
    (Forall (fun t =>
       grounded_in window clip t
       /\ match Tracklet.entity_type t with
          | person =>
              startswith (str_lower P (Tracklet.label t)) "person" = true
              /\ (Tracklet.mask_confidence t == float 0.86)%Q
          | object =>
              existsb (fun token => contains token (str_lower P (Tracklet.label t)))
                      ["suv"; "car"; "truck"; "vehicle"] = true
              /\ ((Tracklet.mask_confidence t == float 0.88)%Q
                  \/ (Tracklet.mask_confidence t == float 0.62)%Q
                  \/ (Tracklet.mask_confidence t == float 0.42)%Q)
          end))
    (ground_window P window clip query_variant).
Proof.
  unfold ground_window.
  set (objs := window_objects window clip).
  set (is_vehicle := fun obj =>
         existsb (fun token => contains token (str_lower P obj))
                 ["suv"; "car"; "truck"; "vehicle"]).
  set (is_person_label := fun obj => startswith (str_lower P obj) "person").
  set (object_labels := sorted_set_str (filter is_vehicle objs)).
  set (person_labels := sorted_set_str (filter is_person_label objs)).
  set (good := fun t : Tracklet =>
         grounded_in window clip t
         /\ match Tracklet.entity_type t with
            | person =>
                startswith (str_lower P (Tracklet.label t)) "person" = true
                /\ (Tracklet.mask_confidence t == float 0.86)%Q
            | object =>
                is_vehicle (Tracklet.label t) = true
                /\ ((Tracklet.mask_confidence t == float 0.88)%Q
                    \/ (Tracklet.mask_confidence t == float 0.62)%Q
                    \/ (Tracklet.mask_confidence t == float 0.42)%Q)
            end).
  assert (Hobject : forall label confidence,
            In label object_labels ->
            (clamp01_round3 confidence == float 0.88
             \/ clamp01_round3 confidence == float 0.62
             \/ clamp01_round3 confidence == float 0.42)%Q ->
            ensures good (_new_tracklet P clip window object label confidence)).
  { intros label confidence Hin Hconf.
    apply sorted_set_str_In, filter_In in Hin. destruct Hin as [Hobjs Hveh].
    eapply ensures_weaken; [| apply new_tracklet_ensures].
    intros t [H1 [H2 [H3 [H4 [H5 [H6 [H7 H8]]]]]]].
    unfold good, grounded_in. rewrite H7, H6, H8.
    split; [| split; [exact Hveh | exact Hconf]].
    repeat (split; [assumption |]). apply clamp01_round3_unit. }
  assert (Hperson : forall label,
            In label person_labels ->
            ensures good (_new_tracklet P clip window person label (float 0.86))).
  { intros label Hin.
    apply sorted_set_str_In, filter_In in Hin. destruct Hin as [Hobjs Hper].
    eapply ensures_weaken; [| apply new_tracklet_ensures].
    intros t [H1 [H2 [H3 [H4 [H5 [H6 [H7 H8]]]]]]].
    unfold good, grounded_in. rewrite H7, H6, H8.
    split; [| split; [exact Hper | vm_compute; reflexivity]].
    repeat (split; [assumption |]). apply clamp01_round3_unit. }
  assert (Hmap : forall (f : string -> M PipelineStores Tracklet) labels,
            (forall label, In label labels -> ensures good (f label)) ->
            ensures (Forall good) (map_m f labels)).
  { intros f labels Hf.
    eapply ensures_weaken;
      [| apply (ensures_map_m (fun _ t => good t) f labels Hf)].
    intros ts Hts. eapply Forall2_Forall_r; [| exact Hts]. intros x y _ Hy. exact Hy. }
  apply ensures_bind with (Q1 := Forall good).
  { destruct (_ || _ || _); [| apply ensures_ret; constructor].
    apply Hmap. intros label Hin.
    apply Hobject; [exact Hin |].
    destruct (existsb _ _); [left | right; left]; vm_compute; reflexivity. }
  intros objects Hobjects.
  apply ensures_bind with (Q1 := Forall good).
  { destruct (_ || _); [| apply ensures_ret; constructor].
    apply Hmap. exact Hperson. }
  intros persons Hpersons.
  destruct (objects ++ persons) as [| t ts] eqn:Hall.
  - apply Hmap. intros label Hin. apply Hobject.
    + destruct object_labels as [| l0 ls]; [destruct Hin |].
      cbn in Hin. destruct Hin as [<- | []]. now left.
    + right. right. vm_compute. reflexivity.
  - apply ensures_ret. rewrite <- Hall. apply Forall_app. now split.
Qed.

(** X16: [ground_window] never fails, and every tracklet it returns is
    grounded in the window: it carries the clip's id and camera, the
    window's id and time range, a label among the object labels of the
    frames inside the window, and a mask confidence between 0 and 1.  A
    person tracklet has a label starting with "person" (ignoring case) and
    confidence 0.86; an object tracklet has a label containing one of suv,
    car, truck, vehicle and confidence 0.88, 0.62 or 0.42. *)
Theorem ground_window_grounds (window : ValidatedWindow) (clip : Clip)
    (query_variant : string) :
  ensures
    (Forall (fun t =>
       grounded_in window clip t
       /\ match Tracklet.entity_type t with
          | person =>
              startswith (str_lower P (Tracklet.label t)) "person" = true
              /\ (Tracklet.mask_confidence t == float 0.86)%Q
          | object =>
              existsb (fun token => contains token (str_lower P (Tracklet.label t)))
                      ["suv"; "car"; "truck"; "vehicle"] = true
              /\ ((Tracklet.mask_confidence t == float 0.88)%Q
                  \/ (Tracklet.mask_confidence t == float 0.62)%Q
                  \/ (Tracklet.mask_confidence t == float 0.42)%Q)
          end))
    (ground_window P window clip query_variant).
Proof. apply ground_window_ensures. Qed.

End Grounding.

Lemma NoDup_firstn {A} (n : nat) (l : list A) : NoDup l -> NoDup (firstn n l).
Proof.
  intros H. revert n. induction H as [| x l Hx Hl IH]; intros [| n]; cbn;
    try constructor; [| apply IH].
  intros Hin. apply Hx. clear - Hin. revert n Hin.
  induction l as [| y l IH]; intros [| n]; cbn; try tauto.
  intros [-> | H]; [now left | right; now apply (IH n)].
Qed.

Lemma firstn_In {A} (n : nat) (l : list A) (x : A) : In x (firstn n l) -> In x l.
Proof.
  revert n. induction l as [| y l IH]; intros [| n]; cbn; try tauto.
  intros [-> | H]; [now left | right; now apply (IH n)].
Qed.

Lemma sorted_set_str_NoDup (l : list string) : NoDup (sorted_set_str l).
Proof.
  unfold sorted_set_str.
  apply (Permutation_NoDup (Permutation_sym (sorted_by_perm String.leb _))).
  apply (dedup_NoDup String.eqb String.eqb_spec).
Qed.

Lemma Forall2_map_r {A B C} (f : B -> C) (Q : A -> B -> Prop) (l : list A)
    (l' : list B) :
  Forall2 Q l l' -> Forall2 (fun x z => exists y, Q x y /\ z = f y) l (map f l').
Proof.
  induction 1 as [| x y l l' Hxy _ IH]; cbn; constructor; [| exact IH].
  now exists y.
Qed.

Section Stage3.
Variable P : Ports.
Variable config : RuntimeConfig.

Lemma fallback_ensures (window : ValidatedWindow) (clip : Clip) :
  ensures
    (fun ts =>
       (List.length ts <= 2)%nat
       /\ NoDup (map Tracklet.label ts)
       /\ Forall (fun t =>
                    grounded_in window clip t
                    /\ Tracklet.mask_confidence t = float 0.51
                    /\ fallback_label P (Tracklet.label t) = true
                    /\ Tracklet.entity_type t
                       = if startswith (str_lower P (Tracklet.label t)) "person"
                         then person else object) ts)
    (_detector_tracker_fallback P window clip).
Proof.
  unfold _detector_tracker_fallback.
  set (labels := sorted_set_str _).
  set (make := fun label : string => _).
  assert (Hmake : forall label, In label (firstn 2 labels) ->
            ensures (fun t =>
                       Tracklet.label t = label
                       /\ grounded_in window clip t
                       /\ Tracklet.mask_confidence t = float 0.51
                       /\ fallback_label P (Tracklet.label t) = true
                       /\ Tracklet.entity_type t
                          = if startswith (str_lower P (Tracklet.label t)) "person"
                            then person else object)
                    (make label)).
  { intros label Hin. apply firstn_In in Hin.
    apply sorted_set_str_In, filter_In in Hin. destruct Hin as [Hobjs Hlabel].
    unfold make, artifact_put.
    apply ensures_bind with (Q1 := fun _ => True); [now apply ensures_modify |].
    intros _ _. apply ensures_ret. unfold grounded_in. cbn.
    repeat (split; [reflexivity || assumption |]).
    split; [| split; [reflexivity | split; [exact Hlabel | reflexivity]]].
    repeat (split; [reflexivity || assumption |]).
    split; vm_compute; discriminate. }
  eapply ensures_weaken; [| apply (ensures_map_m _ make (firstn 2 labels) Hmake)].
  intros ts Hts. split; [| split].
  - rewrite (Forall2_length_eq _ _ _ Hts). rewrite length_firstn. lia.
  - assert (Hlabels : map Tracklet.label ts = firstn 2 labels).
    { clear - Hts. induction Hts as [| label t l ts [Hl _] _ IH]; cbn;
        [reflexivity | now rewrite Hl, IH]. }
    rewrite Hlabels. apply NoDup_firstn, sorted_set_str_NoDup.
  - eapply Forall2_Forall_r; [| exact Hts]. intros label t _ [_ H]. exact H.
Qed.

(** X17: the detector/tracker fallback never fails and returns at most two
    tracklets, with distinct labels.  Each is grounded in the window, has
    the fixed mask confidence 0.51 and a label that starts with "person" or
    contains "suv" or "car" (ignoring case), and is a person tracklet
    exactly when its label starts with "person". *)
Theorem fallback_emits_at_most_two (window : ValidatedWindow) (clip : Clip) :
  ensures
    (fun ts =>
       (List.length ts <= 2)%nat
       /\ NoDup (map Tracklet.label ts)
       /\ Forall (fun t =>
                    grounded_in window clip t
                    /\ Tracklet.mask_confidence t = float 0.51
                    /\ fallback_label P (Tracklet.label t) = true
                    /\ Tracklet.entity_type t
                       = if startswith (str_lower P (Tracklet.label t)) "person"
                         then person else object) ts)
    (_detector_tracker_fallback P window clip).
Proof. apply fallback_ensures. Qed.

Lemma variant_at_decompose (query_text : string) (attempt : Z) :
  0 <= attempt ->
  exists variant, variant_at (decompose P query_text) attempt = Some variant.
Proof.
  intros Hattempt. unfold variant_at. apply py_index_in_range.
  destruct (decompose_head P query_text) as [rest ->]. cbn [List.length]. lia.
Qed.

Lemma grounding_attempts_ensures (window : ValidatedWindow) (clip : Clip)
    (query_text : string) (threshold : Q) (attempts : list Z) :
  Forall (fun attempt => 0 <= attempt) attempts ->
  forall best_score best_tracklets,
    Forall (grounded_in window clip) best_tracklets ->
    ensures (fun best => Forall (grounded_in window clip) (snd best))
            (grounding_attempts P window clip (decompose P query_text) threshold
                                attempts best_score best_tracklets).
Proof.
  induction 1 as [| attempt attempts Hattempt _ IH];
    intros best_score best_tracklets Hbest; cbn [grounding_attempts].
  - now apply ensures_ret.
  - destruct (variant_at_decompose query_text attempt Hattempt) as [variant ->].
    apply ensures_bind with (Q1 := Forall (grounded_in window clip)).
    { eapply ensures_weaken; [| apply ground_window_ensures].
      intros ts Hts. eapply Forall_impl; [| exact Hts]. now intros t [Ht _]. }
    intros candidates Hcandidates.
    destruct candidates as [| c cs]; [now apply IH |].
    destruct (Qgtb _ best_score);
      (destruct (Qgeb _ threshold); [now apply ensures_ret | now apply IH]).
Qed.

Lemma range_nonneg (n : Z) : Forall (fun attempt => 0 <= attempt) (range n).
Proof.
  unfold range. apply Forall_forall. intros attempt Hin.
  apply in_map_iff in Hin. destruct Hin as [k [<- _]]. lia.
Qed.

Lemma ground_validated_window_ensures (request : QueryRequest)
    (clips_by_id : dict Clip) (window : ValidatedWindow) (clip : Clip) :
  dict_get (ValidatedWindow.clip_id window) clips_by_id = Some clip ->
  ensures (Forall (grounded_in window clip))
          (ground_validated_window P config request clips_by_id window).
Proof.
  intros Hclip. unfold ground_validated_window. rewrite Hclip.
  apply ensures_bind with (Q1 := fun best => Forall (grounded_in window clip) (snd best)).
  { apply grounding_attempts_ensures; [apply range_nonneg | constructor]. }
  intros [best_score best_tracklets] Hbest. cbn [snd] in Hbest.
  apply ensures_bind with (Q1 := Forall (grounded_in window clip)).
  { destruct (Qltb best_score _); [| now apply ensures_ret].
    apply ensures_bind
      with (Q1 := Forall (grounded_in window clip)).
    - eapply ensures_weaken; [| apply fallback_ensures].
      intros ts [_ [_ Hts]]. eapply Forall_impl; [| exact Hts]. now intros t [Ht _].
    - intros fallback Hfallback.
      destruct fallback; now apply ensures_ret. }
  intros tracklets Htracklets.
  apply ensures_bind with (Q1 := fun _ => True).
  { apply ensures_for_each. intros t _.
    destruct (Qgeb _ _); [now apply ensures_modify | now apply ensures_ret]. }
  intros _ _. now apply ensures_ret.
Qed.

Lemma stage_3_ensures (request : QueryRequest)
    (validated_windows : list ValidatedWindow) (clips_by_id : dict Clip) :
  Forall (fun window =>
            exists clip, dict_get (ValidatedWindow.clip_id window) clips_by_id = Some clip)
         validated_windows ->
  ensures (Forall (grounded_in_some validated_windows clips_by_id))
          (_stage_3_spatial_grounding P config request validated_windows clips_by_id).
Proof.
  intros Hclips. unfold _stage_3_spatial_grounding.
  apply ensures_bind
    with (Q1 := Forall2 (fun window ts =>
                           Forall (grounded_in_some validated_windows clips_by_id) ts)
                        validated_windows).
  - apply ensures_map_m. intros window Hin.
    destruct (proj1 (Forall_forall _ _) Hclips window Hin) as [clip Hclip].
    eapply ensures_weaken; [| apply (ground_validated_window_ensures _ _ _ _ Hclip)].
    intros ts Hts. eapply Forall_impl; [| exact Hts].
    intros t Ht. exists window, clip.
    split; [exact Hin | split; [exact Hclip | exact Ht]].
  - intros per_window Hper. apply ensures_ret.
    apply Forall_concat. eapply Forall2_Forall_r; [| exact Hper].
    intros window ts _ Hts. exact Hts.
Qed.

(** X18: stage 3 fails only for a window whose clip is unknown.  When the
    clip id of every validated window is a key of [clips_by_id], the stage
    returns, whatever the stores hold (the variant lookup of the retry loop
    and the fallback never raise), and every tracklet it returns is
    grounded in one of the validated windows: it has the id and camera of
    the window's clip, the window's id and time range, a label among the
    object labels seen in the window, and a confidence between 0 and 1. *)
Theorem stage_3_grounds_every_tracklet (request : QueryRequest)
    (validated_windows : list ValidatedWindow) (clips_by_id : dict Clip) :
  Forall (fun window =>
            exists clip, dict_get (ValidatedWindow.clip_id window) clips_by_id = Some clip)
         validated_windows ->
  ensures (Forall (grounded_in_some validated_windows clips_by_id))
          (_stage_3_spatial_grounding P config request validated_windows clips_by_id).
Proof. apply stage_3_ensures. Qed.
End Stage3.

(** X18, instance: the window over the one frame of the exterior clip. *)
Lemma stage_3_grounds_suv_window :
  ensures (Forall (grounded_in_some [suv_window] (dict_of Clip.clip_id [suv_clip])))
          (_stage_3_spatial_grounding demo_ports demo_config suv_request [suv_window]
             (dict_of Clip.clip_id [suv_clip])).
Proof.
  apply (stage_3_grounds_every_tracklet demo_ports demo_config suv_request
           [suv_window] (dict_of Clip.clip_id [suv_clip])).
  constructor; [| constructor]. exists suv_clip. reflexivity.
Defined.

(** ** adapters.py: entity resolution, continued *)

Lemma NoDup_map_injective {A B} (f : A -> B) (l : list A) :
  (forall a b, f a = f b -> a = b) -> NoDup l -> NoDup (map f l).
Proof.
  intros Hinj. induction 1 as [| x l Hx Hl IH]; cbn; constructor; [| exact IH].
  intros Hin. apply in_map_iff in Hin. destruct Hin as [y [Heq Hy]].
  apply Hinj in Heq. now subst.
Qed.

Section ResolutionCoverage.
Variable P : Ports.

Lemma resolve_by_labels (tracklets : list Tracklet)
    (camera_topology : dict (list string)) (max_travel : Z) :
  resolve P tracklets camera_topology max_travel =
    map (object_link P tracklets) (labels_of P object tracklets)
    ++ map (fun label =>
              person_link P camera_topology max_travel label
                          (members P person label tracklets))
           (labels_of P person tracklets).
Proof.
  unfold resolve, _resolve_object_links, _resolve_person_links.
  rewrite !group_by_label_members, !map_map. reflexivity.
Qed.

Lemma person_link_fields (camera_topology : dict (list string)) (max_travel : Z)
    (label : string) (items : list Tracklet) :
  let link := person_link P camera_topology max_travel label items in
  EntityLink.entity_type link = person
  /\ EntityLink.label link = label
  /\ EntityLink.track_ids link = sorted_track_ids (sorted_by track_order items).
Proof.
  cbv zeta. unfold person_link.
  destruct (walk_pairs camera_topology max_travel _) as [resolved confidence].
  repeat split.
Qed.

Lemma sorted_track_ids_In (items : list Tracklet) (id : string) :
  In id (sorted_track_ids items) <-> exists t, In t items /\ Tracklet.track_id t = id.
Proof.
  unfold sorted_track_ids. split.
  - intros Hin.
    apply (Permutation_in _ (sorted_by_perm String.leb _)) in Hin.
    apply in_map_iff in Hin. destruct Hin as [t [Ht Hin]]. now exists t.
  - intros [t [Hin <-]].
    apply (Permutation_in _ (Permutation_sym (sorted_by_perm String.leb _))).
    now apply in_map.
Qed.

Lemma members_In (kind : EntityType) (label : string) (tracklets : list Tracklet)
    (t : Tracklet) :
  In t (members P kind label tracklets) <->
  In t tracklets /\ Tracklet.entity_type t = kind /\ lowered_label P t = label.
Proof.
  unfold members, of_kind. rewrite filter_In, andb_true_iff, String.eqb_eq.
  assert (Hkind : EntityType_eqb (Tracklet.entity_type t) kind = true
                  <-> Tracklet.entity_type t = kind)
    by (destruct (Tracklet.entity_type t), kind; cbn; split; congruence).
  rewrite Hkind. tauto.
Qed.

Lemma labels_of_In (kind : EntityType) (tracklets : list Tracklet) (label : string) :
  In label (labels_of P kind tracklets) <->
  exists t, In t tracklets /\ Tracklet.entity_type t = kind /\ lowered_label P t = label.
Proof.
  unfold labels_of. rewrite (dedup_In String.eqb String.eqb_spec), in_map_iff.
  split.
  - intros [t [Hl Hin]]. apply filter_In in Hin. destruct Hin as [Hin Hkind].
    exists t. split; [exact Hin |]. split; [| exact Hl].
    unfold of_kind in Hkind.
    destruct (Tracklet.entity_type t), kind; cbn in Hkind; congruence.
  - intros [t [Hin [Hkind Hl]]]. exists t. split; [exact Hl |].
    apply filter_In. split; [exact Hin |]. unfold of_kind. rewrite Hkind.
    now destruct kind.
Qed.

(** The links of [resolve], one per kind and lowercased label, each with
    the ids of the tracklets of that kind and label. *)
Lemma resolve_links (tracklets : list Tracklet) (camera_topology : dict (list string))
    (max_travel : Z) (link : EntityLink) :
  In link (resolve P tracklets camera_topology max_travel) ->
  In (EntityLink.label link) (labels_of P (EntityLink.entity_type link) tracklets)
  /\ forall id, In id (EntityLink.track_ids link) <->
                exists t, In t (members P (EntityLink.entity_type link)
                                        (EntityLink.label link) tracklets)
                          /\ Tracklet.track_id t = id.
Proof.
  rewrite resolve_by_labels, in_app_iff, !in_map_iff.
  intros [[label [<- Hlabel]] | [label [<- Hlabel]]].
  - cbn [object_link EntityLink.label EntityLink.entity_type EntityLink.track_ids].
    split; [exact Hlabel |]. intros id. apply sorted_track_ids_In.
  - destruct (person_link_fields camera_topology max_travel label
                (members P person label tracklets)) as [-> [-> ->]].
    split; [exact Hlabel |]. intros id. rewrite sorted_track_ids_In.
    split; intros [t [Hin Hid]]; exists t; (split; [| exact Hid]).
    + now apply (Permutation_in _ (sorted_by_perm track_order _)).
    + now apply (Permutation_in _ (Permutation_sym (sorted_by_perm track_order _))).
Qed.

(** X19: [resolve] loses no tracklet and invents none.  Every tracklet is
    listed in a link of its own kind whose label is the tracklet's
    lowercased label; every track id listed in a link is the id of a
    tracklet of the link's kind and label; and there is one link per kind
    and label, no two links sharing both. *)
Theorem resolve_links_every_tracklet (tracklets : list Tracklet)
    (camera_topology : dict (list string)) (max_travel : Z) :
  let links := resolve P tracklets camera_topology max_travel in
  (forall t, In t tracklets ->
     exists link,
       In link links
       /\ EntityLink.entity_type link = Tracklet.entity_type t
       /\ EntityLink.label link = str_lower P (Tracklet.label t)
       /\ In (Tracklet.track_id t) (EntityLink.track_ids link))
  /\ (forall link id, In link links -> In id (EntityLink.track_ids link) ->
        exists t,
          In t tracklets
          /\ Tracklet.track_id t = id
          /\ Tracklet.entity_type t = EntityLink.entity_type link
          /\ str_lower P (Tracklet.label t) = EntityLink.label link)
  /\ NoDup (map (fun link => (EntityLink.entity_type link, EntityLink.label link)) links).
Proof.
  cbv zeta. split; [| split].
  - intros t Hin.
    assert (Hlabel : In (lowered_label P t)
                        (labels_of P (Tracklet.entity_type t) tracklets)).
    { apply labels_of_In. exists t. repeat split. exact Hin. }
    assert (Hmember : In t (members P (Tracklet.entity_type t) (lowered_label P t)
                                    tracklets)).
    { apply members_In. repeat split. exact Hin. }
    rewrite resolve_by_labels.
    destruct (Tracklet.entity_type t) eqn:Hkind.
    + exists (object_link P tracklets (lowered_label P t)).
      split; [apply in_or_app; left; now apply in_map |].
      split; [reflexivity |]. split; [reflexivity |].
      cbn [object_link EntityLink.track_ids]. apply sorted_track_ids_In. now exists t.
    + exists (person_link P camera_topology max_travel (lowered_label P t)
                (members P person (lowered_label P t) tracklets)).
      split.
      { apply in_or_app. right.
        apply (in_map (fun label =>
                         person_link P camera_topology max_travel label
                                     (members P person label tracklets))).
        exact Hlabel. }
      destruct (person_link_fields camera_topology max_travel (lowered_label P t)
                  (members P person (lowered_label P t) tracklets)) as [-> [-> ->]].
      split; [reflexivity |]. split; [reflexivity |].
      apply sorted_track_ids_In. exists t. split; [| reflexivity].
      now apply (Permutation_in _ (Permutation_sym (sorted_by_perm track_order _))).
  - intros link id Hlink Hid.
    destruct (resolve_links _ _ _ _ Hlink) as [_ Hids].
    apply Hids in Hid. destruct Hid as [t [Hmember Ht]].
    apply members_In in Hmember. destruct Hmember as [Hin [Hkind Hlabel]].
    exists t. now repeat split.
  - rewrite resolve_by_labels, map_app, !map_map.
    apply NoDup_app.
    + cbn [object_link EntityLink.entity_type EntityLink.label].
      apply NoDup_map_injective;
        [intros a b [= ->]; reflexivity
        | apply (dedup_NoDup String.eqb String.eqb_spec)].
    + replace (map _ (labels_of P person tracklets))
        with (map (fun label => (person, label)) (labels_of P person tracklets)).
      * apply NoDup_map_injective;
          [intros a b [= ->]; reflexivity
          | apply (dedup_NoDup String.eqb String.eqb_spec)].
      * apply map_ext. intros label.
        now destruct (person_link_fields camera_topology max_travel label
                        (members P person label tracklets)) as [-> [-> _]].
    + intros key Hobj Hper.
      apply in_map_iff in Hobj. destruct Hobj as [label [<- _]].
      apply in_map_iff in Hper. destruct Hper as [label' [Heq _]].
      destruct (person_link_fields camera_topology max_travel label'
                  (members P person label' tracklets)) as [Hkind _].
      cbn [object_link EntityLink.entity_type] in Heq. rewrite Hkind in Heq.
      discriminate Heq.
Qed.
End ResolutionCoverage.

(** ** adapters.py: temporal localization, continued *)

Section SpanBounds.
Variables high low lo hi clo chi : Q.
Variable timestamps : list Z.
Hypothesis mean_between : forall values,
  values <> [] -> within lo hi values -> (clo <= mean values /\ mean values <= chi)%Q.

Lemma span_step_within (st : SpanState) (ts : Z) (score : Q) :
  In ts timestamps ->
  ((low <= score \/ high <= score)%Q -> (lo <= score /\ score <= hi)%Q) ->
  span_state_within timestamps lo hi clo chi st ->
  span_state_within timestamps lo hi clo chi (span_step high low st (ts, score)).
Proof.
  intros Hts Hscore [Hspans Hopen]. unfold span_step.
  destruct (in_span st) eqn:Hin; cbn [negb andb].
  - destruct (Hopen eq_refl) as [Hstart [Hne Hscores]].
    destruct (Qgeb score low) eqn:Hlow.
    + split; [exact Hspans |]. intros _. cbn.
      split; [exact Hstart |]. split; [now destruct (current_scores st) |].
      apply Forall_app. split; [exact Hscores |].
      constructor; [| constructor]. apply Hscore. left. now apply Qgeb_le.
    + split; [| intros H; discriminate H]. cbn.
      apply Forall_app. split; [exact Hspans |].
      constructor; [| constructor]. unfold span_within. cbn.
      split; [exact Hstart |]. split; [exact Hts |]. now apply mean_between.
  - destruct (Qgeb score high) eqn:Hhigh.
    + split; [exact Hspans |]. intros _. cbn.
      split; [exact Hts |]. split; [discriminate |].
      constructor; [| constructor]. apply Hscore. right. now apply Qgeb_le.
    + split; [exact Hspans |]. intros H. congruence.
Qed.

Lemma span_loop_within (samples : list (Z * Q)) : forall st,
  Forall (fun sample =>
            In (fst sample) timestamps
            /\ ((low <= snd sample \/ high <= snd sample)%Q ->
                (lo <= snd sample /\ snd sample <= hi)%Q)) samples ->
  span_state_within timestamps lo hi clo chi st ->
  span_state_within timestamps lo hi clo chi (span_loop high low samples st).
Proof.
  unfold span_loop.
  induction samples as [| [ts score] samples IH]; intros st Hall Hst; cbn [fold_left];
    [exact Hst |].
  inversion Hall as [| ? ? [Hts Hscore] Hall']; subst. cbn [fst snd] in *.
  apply IH; [exact Hall' |]. now apply span_step_within.
Qed.
End SpanBounds.

Lemma last_In {A} (l : list A) (d : A) : l <> [] -> In (last l d) l.
Proof.
  induction l as [| x l IH]; [contradiction |]. intros _.
  destruct l as [| y l]; [now left |].
  right. apply IH. discriminate.
Qed.

Lemma in_combine_both {A B} (l : list A) (l' : list B) (x : A) (y : B) :
  In (x, y) (combine l l') -> In x l /\ In y l'.
Proof.
  intros H. split; [now apply in_combine_l in H | now apply in_combine_r in H].
Qed.

(** The spans of [_extract_spans] begin and end at timestamps of the
    series, and their confidence lies between any two bounds that hold of
    the mean of scores that can open or extend a span. *)
Lemma extract_spans_within (timestamps : list Z) (scores : list Q)
    (high low lo hi clo chi : Q) :
  (forall values, values <> [] -> within lo hi values ->
                  (clo <= mean values /\ mean values <= chi)%Q) ->
  (forall score, In score scores -> (low <= score \/ high <= score)%Q ->
                 (lo <= score /\ score <= hi)%Q) ->
  Forall (span_within timestamps clo chi) (_extract_spans timestamps scores high low).
Proof.
  intros Hmean Hscores. unfold _extract_spans.
  destruct timestamps as [| first rest] eqn:Hts; [constructor |].
  destruct scores as [| score0 scores'] eqn:Hsc; [constructor |].
  rewrite <- Hts, <- Hsc in *.
  set (st0 := {| in_span := false; current_start := first;
                 current_scores := []; spans := [] |}).
  assert (Hloop : span_state_within timestamps lo hi clo chi
                    (span_loop high low (combine timestamps scores) st0)).
  { apply span_loop_within; [exact Hmean | |].
    - apply Forall_forall. intros [ts score] Hin.
      apply in_combine_both in Hin. destruct Hin as [Hin1 Hin2]. cbn [fst snd].
      split; [exact Hin1 | now apply Hscores].
    - split; [constructor | intros H; discriminate H]. }
  destruct Hloop as [Hspans Hopen]. unfold span_finish.
  destruct (in_span _) eqn:Hin; [| exact Hspans].
  destruct (Hopen eq_refl) as [Hstart [Hne Hwithin]].
  apply Forall_app. split; [exact Hspans |].
  constructor; [| constructor]. unfold span_within. cbn [fst snd].
  split; [exact Hstart |]. split; [| now apply Hmean].
  apply last_In. rewrite Hts. discriminate.
Qed.



Lemma Qltb_lt (x y : Q) : Qltb x y = true <-> (x < y)%Q.
Proof.
  unfold Qltb. rewrite negb_true_iff. split.
  - intros H. apply Qnot_le_lt. intros Hle. apply Qle_bool_iff in Hle. congruence.
  - intros H. destruct (Qle_bool y x) eqn:E; [| reflexivity].
    apply Qle_bool_iff in E. exfalso. now apply (Qlt_not_le x y).
Qed.

(** The list up to its first element that fails the test. *)
Lemma split_at_first_failure {A} (p : A -> bool) (l : list A) :
  Forall (fun x => p x = true) l
  \/ exists pre x post,
       l = pre ++ x :: post /\ Forall (fun x => p x = true) pre /\ p x = false.
Proof.
  induction l as [| a l IH]; [left; constructor |].
  destruct (p a) eqn:Ha.
  - destruct IH as [Hall | [pre [x [post [-> [Hpre Hx]]]]]].
    + left. now constructor.
    + right. exists (a :: pre), x, post. split; [reflexivity |].
      split; [now constructor | exact Hx].
  - right. exists [], a, l. split; [reflexivity |]. split; [constructor | exact Ha].
Qed.

(** [_extract_spans] finds no span exactly when no score reaches [high]. *)
Lemma extract_spans_nil_iff (high low : Q) (samples : list (Z * Q)) :
  _extract_spans (map fst samples) (map snd samples) high low = []
  <-> Forall (fun sample => (snd sample < high)%Q) samples.
Proof.
  split; [| apply extract_spans_none].
  intros Hnil.
  destruct (split_at_first_failure (fun sample => Qltb (snd sample) high) samples)
    as [Hall | [pre [[ti si] [rest [Heq [Hpre Hsi]]]]]].
  - revert Hall. apply Forall_impl. intros sample. apply Qltb_lt.
  - exfalso.
    assert (Hpre' : Forall (fun sample => (snd sample < high)%Q) pre).
    { revert Hpre. apply Forall_impl. intros sample. apply Qltb_lt. }
    assert (Hsi' : (high <= si)%Q).
    { cbn [snd] in Hsi. apply Qnot_lt_le. intros Hlt. apply Qltb_lt in Hlt. congruence. }
    destruct (split_at_first_failure (fun sample => Qgeb (snd sample) low) rest)
      as [Hmid | [mid [[tj sj] [rest' [Heq' [Hmid Hsj]]]]]].
    + assert (Hmid' : Forall (fun sample => (low <= snd sample)%Q) rest).
      { revert Hmid. apply Forall_impl. intros sample. apply Qgeb_le. }
      pose proof (extract_spans_open_end high low pre rest ti si Hpre' Hsi' Hmid') as H.
      cbn zeta in H. rewrite <- Heq in H. rewrite H in Hnil. discriminate Hnil.
    + assert (Hmid' : Forall (fun sample => (low <= snd sample)%Q) mid).
      { revert Hmid. apply Forall_impl. intros sample. apply Qgeb_le. }
      assert (Hsj' : (sj < low)%Q) by (apply Qgeb_lt; exact Hsj).
      destruct (extract_spans_closed high low pre mid rest' ti tj si sj
                  Hpre' Hsi' Hmid' Hsj') as [more H].
      cbn zeta in H. rewrite <- Heq', <- Heq in H. rewrite H in Hnil. discriminate Hnil.
Qed.

Lemma round_half_even_above (a : Z) (y : Q) :
  (inject_Z a - (1 # 2) < y)%Q -> a <= round_half_even y.
Proof.
  intros Hy. pose proof (round_half_even_near y) as [Hlo _].
  assert (H : (inject_Z (a - 1) < inject_Z (round_half_even y))%Q).
  { unfold Z.sub. rewrite inject_Z_plus. change (inject_Z (- (1))) with (- (1))%Q. lra. }
  rewrite <- Zlt_Qlt in H. lia.
Qed.

Lemma round_half_even_below (b : Z) (y : Q) :
  (y <= inject_Z b)%Q -> round_half_even y <= b.
Proof.
  intros Hy. rewrite <- (round_half_even_Z b). now apply round_half_even_le.
Qed.

Section SegmentBounds.
Variable P : Ports.

Lemma frame_score_within (query_tokens : list string) (frames : list FrameObservation) :
  within (float 0.1) 1 (map (frame_score P query_tokens) frames).
Proof.
  unfold within. apply Forall_forall. intros v Hv.
  apply in_map_iff in Hv. destruct Hv as [frame [<- _]]. unfold frame_score.
  destruct (Qgtb _ 0); [| destruct (FrameObservation.actions frame)];
    split; vm_compute; discriminate.
Qed.

(** The scores [localize] hands to [_extract_spans] are means of relevance
    scores, and the confidence of a span is a mean of these. *)
Lemma localize_spans_within (tracklet : Tracklet) (clip : Clip) (query_text : string)
    (window : Z) (high low : Q) :
  Forall (span_within
            (map FrameObservation.timestamp (tracklet_frames tracklet clip))
            (lowered (lowered (float 0.1))) 1)
         (localize_spans P tracklet clip query_text window high low).
Proof.
  unfold localize_spans.
  apply (extract_spans_within _ _ _ _ (lowered (float 0.1)) 1).
  - intros values Hne Hin. split.
    + apply (mean_bounds _ 1); [vm_compute; discriminate | exact Hne | exact Hin].
    + now apply (mean_le_1 (lowered (float 0.1))).
  - intros score Hin _.
    pose proof (frame_score_within (dedup String.eqb (tokenize P query_text))
                  (tracklet_frames tracklet clip)) as Hscores.
    split.
    + pose proof (smooth_curve_within (float 0.1) 1 _ window
                    ltac:(vm_compute; discriminate) Hscores) as Hsmooth.
      exact (proj1 (proj1 (Forall_forall _ _) Hsmooth score Hin)).
    + pose proof (smooth_curve_le_1 (float 0.1) _ window Hscores) as Hsmooth.
      exact (proj1 (Forall_forall _ _) Hsmooth score Hin).
Qed.

Lemma tracklet_frames_in_range (tracklet : Tracklet) (clip : Clip) (ts : Z) :
  In ts (map FrameObservation.timestamp (tracklet_frames tracklet clip)) ->
  Tracklet.t_start tracklet <= ts <= Tracklet.t_end tracklet.
Proof.
  intros Hin. apply in_map_iff in Hin. destruct Hin as [frame [<- Hin]].
  unfold tracklet_frames in Hin. apply filter_In in Hin. destruct Hin as [_ Hin].
  unfold in_window in Hin. apply andb_true_iff in Hin. lia.
Qed.

(** X21: the segment that [localize] returns stays with its tracklet.  It
    carries the tracklet's id and the clip's id and camera; its time range
    lies inside the tracklet's time range; its confidence, rounded to three
    decimals, is between 0.1 and 1, although the means it comes from may
    fall below 0.1 by a rounding error; it is flagged
    "low_mask_confidence" exactly when the tracklet's mask confidence is
    below the floor and "low_similarity" exactly when no smoothed score of
    the tracklet's frames reaches [high], and it carries no other flag. *)
Theorem localize_segment_within_tracklet (tracklet : Tracklet) (clip : Clip)
    (query_text : string) (window : Z) (high low floor : Q) :
  let segment := localize P tracklet clip query_text window high low floor in
  TemporalSegment.track_id segment = Tracklet.track_id tracklet
  /\ TemporalSegment.clip_id segment = Clip.clip_id clip
  /\ TemporalSegment.camera_id segment = Clip.camera_id clip
  /\ Tracklet.t_start tracklet <= TemporalSegment.t_start segment
  /\ TemporalSegment.t_end segment <= Tracklet.t_end tracklet
  /\ (float 0.1 <= TemporalSegment.confidence segment
      /\ TemporalSegment.confidence segment <= 1)%Q
  /\ (In "low_mask_confidence"%string (TemporalSegment.failure_flags segment)
      <-> (Tracklet.mask_confidence tracklet < floor)%Q)
  /\ (In "low_similarity"%string (TemporalSegment.failure_flags segment)
      <-> Forall (fun sample => (snd sample < high)%Q)
                 (localize_samples P tracklet clip query_text window))
  /\ (forall flag, In flag (TemporalSegment.failure_flags segment) ->
        flag = "low_mask_confidence"%string \/ flag = "low_similarity"%string).
Proof.
  cbv zeta.
  pose proof (localize_spans_within tracklet clip query_text window high low) as Hspans.
  pose proof (localize_spans_samples P tracklet clip query_text window high low) as Hsamples.
  cbv zeta in Hsamples.
  rewrite <- extract_spans_nil_iff with (low := low). rewrite <- Hsamples.
  unfold localize.
  assert (Hmask : forall flag,
            In flag (if Qltb (Tracklet.mask_confidence tracklet) floor
                     then ["low_mask_confidence"%string] else [])
            <-> flag = "low_mask_confidence"%string
                /\ (Tracklet.mask_confidence tracklet < floor)%Q).
  { intros flag. rewrite <- Qltb_lt.
    destruct (Qltb (Tracklet.mask_confidence tracklet) floor); cbn;
      intuition congruence. }
  destruct (localize_spans P tracklet clip query_text window high low)
    as [| [[a b] c] more].
  - cbn [TemporalSegment.track_id TemporalSegment.clip_id TemporalSegment.camera_id
         TemporalSegment.t_start TemporalSegment.t_end TemporalSegment.confidence
         TemporalSegment.failure_flags].
    repeat (split; [reflexivity || lia |]).
    split; [split; vm_compute; discriminate |].
    split; [| split].
    + rewrite sorted_set_str_In, in_app_iff, Hmask. cbn. intuition congruence.
    + rewrite sorted_set_str_In, in_app_iff. cbn. intuition.
    + intros flag. rewrite sorted_set_str_In, in_app_iff, Hmask. cbn. intuition.
  - cbn [TemporalSegment.track_id TemporalSegment.clip_id TemporalSegment.camera_id
         TemporalSegment.t_start TemporalSegment.t_end TemporalSegment.confidence
         TemporalSegment.failure_flags].
    apply Forall_inv in Hspans. destruct Hspans as [Ha [Hb [Hlo Hhi]]].
    cbn [fst snd] in *.
    apply tracklet_frames_in_range in Ha, Hb.
    split; [reflexivity |]. split; [reflexivity |]. split; [reflexivity |].
    split; [lia |]. split; [lia |].
    split.
    { unfold round3.
      assert (Hk : 100 <= round_half_even (c * 1000) <= 1000).
      { split.
        - apply round_half_even_above.
          assert (Hc : (0.0996 < lowered (lowered (float 0.1)))%Q) by reflexivity.
          change (inject_Z 100) with 100%Q. lra.
        - apply round_half_even_below. change (inject_Z 1000) with 1000%Q. lra. }
      split.
      - rewrite (float_compat 0.1 (100 # 1000)) by reflexivity.
        apply float_le. unfold Qle. cbn. lia.
      - apply float_le_1. unfold Qle. cbn. lia. }
    split; [| split].
    + rewrite sorted_set_str_In, Hmask. intuition congruence.
    + rewrite sorted_set_str_In, Hmask. split; [| discriminate].
      intros [H _]. discriminate H.
    + intros flag. rewrite sorted_set_str_In, Hmask. intuition.
Qed.
End SegmentBounds.

(** ** pipeline.py: stage 5 *)

Lemma seg_overlaps_sym (a b : TemporalSegment) : seg_overlaps a b = seg_overlaps b a.
Proof.
  unfold seg_overlaps.
  rewrite (String.eqb_sym (TemporalSegment.segment_id b)),
          (String.eqb_sym (TemporalSegment.clip_id b)).
  f_equal. f_equal.
  destruct (Z.ltb_spec (TemporalSegment.t_end b) (TemporalSegment.t_start a)),
           (Z.gtb_spec (TemporalSegment.t_start b) (TemporalSegment.t_end a)),
           (Z.ltb_spec (TemporalSegment.t_end a) (TemporalSegment.t_start b)),
           (Z.gtb_spec (TemporalSegment.t_start a) (TemporalSegment.t_end b));
    cbn; try reflexivity; lia.
Qed.

Lemma seg_overlaps_flags (segments : list TemporalSegment) (a b : TemporalSegment) :
  seg_overlaps a (flag_ambiguity segments b) = seg_overlaps a b.
Proof. unfold flag_ambiguity. now destruct (existsb _ segments). Qed.

Lemma existsb_map_same {A} (p : A -> bool) (f : A -> A) (l : list A) :
  (forall x, p (f x) = p x) -> existsb p (map f l) = existsb p l.
Proof.
  intros H. induction l as [| x l IH]; cbn; [reflexivity | now rewrite H, IH].
Qed.

Lemma filter_nil_existsb {A} (p : A -> bool) (l : list A) :
  filter p l = [] <-> existsb p l = false.
Proof.
  induction l as [| x l IH]; cbn; [tauto |].
  destruct (p x); cbn; [split; discriminate | exact IH].
Qed.

Lemma list_set_middle {A} (pre post : list A) (x v : A) :
  list_set (List.length pre) v (pre ++ x :: post) = pre ++ v :: post.
Proof. induction pre as [| y pre IH]; cbn; [reflexivity | now rewrite IH]. Qed.

Lemma nth_error_middle {A} (pre post : list A) (x : A) :
  nth_error (pre ++ x :: post) (List.length pre) = Some x.
Proof. induction pre as [| y pre IH]; cbn; [reflexivity | exact IH]. Qed.

(** The ambiguity pass processed up to position [k]. *)
Lemma ambiguity_pass_prefix (segments : list TemporalSegment) (k : nat) :
  (k <= List.length segments)%nat ->
  fold_left ambiguity_step (seq 0 k) segments
  = map (flag_ambiguity segments) (firstn k segments) ++ skipn k segments.
Proof.
  induction k as [| k IH]; intros Hk; [reflexivity |].
  rewrite seq_S, fold_left_app, IH by lia. cbn [fold_left Nat.add].
  destruct (nth_error segments k) as [segment |] eqn:Hnth;
    [| apply nth_error_None in Hnth; lia].
  apply nth_error_split in Hnth. destruct Hnth as [pre [post [Hsplit Hlen]]].
  assert (Hfirst : firstn k segments = pre).
  { rewrite Hsplit, <- Hlen. rewrite firstn_app, firstn_all, Nat.sub_diag.
    cbn. apply app_nil_r. }
  assert (Hskip : skipn k segments = segment :: post).
  { rewrite Hsplit, <- Hlen. rewrite skipn_app, skipn_all, Nat.sub_diag.
    reflexivity. }
  assert (Hfirst' : firstn (S k) segments = pre ++ [segment]).
  { rewrite Hsplit, <- Hlen. rewrite firstn_app, firstn_all2 by lia.
    replace (S (List.length pre) - List.length pre)%nat with 1%nat by lia.
    reflexivity. }
  assert (Hskip' : skipn (S k) segments = post).
  { rewrite Hsplit, <- Hlen. rewrite skipn_app, skipn_all2 by lia.
    replace (S (List.length pre) - List.length pre)%nat with 1%nat by lia.
    reflexivity. }
  rewrite Hfirst, Hskip, Hfirst', Hskip'.
  rewrite map_app. cbn [map]. rewrite <- app_assoc. cbn [app].
  set (done := map (flag_ambiguity segments) pre).
  assert (Hdone : List.length done = k) by (unfold done; now rewrite length_map).
  unfold ambiguity_step. rewrite <- Hdone, nth_error_middle.
  assert (Hsame : existsb (seg_overlaps segment) (done ++ segment :: post)
                  = existsb (seg_overlaps segment) segments).
  { rewrite Hsplit at 1. rewrite !existsb_app. f_equal.
    unfold done. apply existsb_map_same. intros x. apply seg_overlaps_flags. }
  destruct (filter (seg_overlaps segment) (done ++ segment :: post)) as [| o os] eqn:Hf.
  - apply filter_nil_existsb in Hf. rewrite Hsame in Hf.
    unfold flag_ambiguity at 1. now rewrite Hf.
  - assert (Hex : existsb (seg_overlaps segment) segments = true).
    { rewrite <- Hsame. destruct (existsb _ _) eqn:E; [reflexivity |].
      apply filter_nil_existsb in E. congruence. }
    rewrite list_set_middle. unfold flag_ambiguity at 1. now rewrite Hex.
Qed.

Lemma ambiguity_pass_map (segments : list TemporalSegment) :
  fold_left ambiguity_step (seq 0 (List.length segments)) segments
  = map (flag_ambiguity segments) segments.
Proof.
  rewrite ambiguity_pass_prefix by lia.
  rewrite firstn_all, skipn_all. apply app_nil_r.
Qed.

(** X22: the ambiguity pass of stage 5, which rewrites the list of segments
    in place position by position, amounts to one simultaneous update: a
    segment receives the flag "multi_actor_ambiguity" (its flags staying a
    sorted set) exactly when some other segment, one with a different
    segment id, lies in the same clip and overlaps its time range, and
    nothing else about it changes.  Overlapping is symmetric, so both
    segments of an overlapping pair are flagged. *)
Theorem ambiguity_pass_flags_overlapping_pairs (segments : list TemporalSegment) :
  fold_left ambiguity_step (seq 0 (List.length segments)) segments
    = map (flag_ambiguity segments) segments
  /\ (forall a b, seg_overlaps a b = seg_overlaps b a)
  /\ (forall a,
        In "multi_actor_ambiguity"%string
           (TemporalSegment.failure_flags (flag_ambiguity segments a))
        <-> (exists b, In b segments /\ seg_overlaps a b = true)
            \/ In "multi_actor_ambiguity"%string (TemporalSegment.failure_flags a))
  /\ (forall a, with_flags (flag_ambiguity segments a) (TemporalSegment.failure_flags a)
                = with_flags a (TemporalSegment.failure_flags a)).
Proof.
  split; [apply ambiguity_pass_map |]. split; [apply seg_overlaps_sym |].
  split.
  - intros a. unfold flag_ambiguity.
    destruct (existsb (seg_overlaps a) segments) eqn:Hex.
    + apply existsb_exists in Hex. cbn [with_flags TemporalSegment.failure_flags].
      rewrite sorted_set_str_In, in_app_iff. cbn. split; [| tauto].
      intros _. left. exact Hex.
    + split; [tauto |]. intros [[b [Hb Hab]] | H]; [| exact H].
      assert (Hex' : existsb (seg_overlaps a) segments = true)
        by (apply existsb_exists; now exists b).
      congruence.
  - intros a. unfold flag_ambiguity.
    now destruct (existsb (seg_overlaps a) segments).
Qed.

Section Stage5.
Variable P : Ports.
Variable config : RuntimeConfig.

Lemma stage_5_spec (request : QueryRequest) (tracklets : list Tracklet)
    (clips_by_id : dict Clip) :
  let candidates := stage_5_candidates tracklets in
  let segment_of (entry : Tracklet * Clip) :=
    localize P (fst entry) (snd entry) (QueryRequest.query_text request)
             (smoothing_window_size config) (hysteresis_high config)
             (hysteresis_low config) (sam3_min_mask_confidence config) in
  match _stage_5_temporal_localization P config request tracklets clips_by_id with
  | Ok segments =>
      exists clips,
        Forall2 (fun t clip => dict_get (Tracklet.clip_id t) clips_by_id = Some clip)
                candidates clips
        /\ segments
           = map (flag_ambiguity (map segment_of (combine candidates clips)))
                 (map segment_of (combine candidates clips))
        /\ map TemporalSegment.track_id segments = map Tracklet.track_id candidates
  | Raise e =>
      exists pre t post,
        candidates = pre ++ t :: post
        /\ Forall (clip_known clips_by_id) pre
        /\ dict_get (Tracklet.clip_id t) clips_by_id = None
        /\ e = KeyError (Tracklet.clip_id t)
  end.
Proof.
  cbv zeta. unfold _stage_5_temporal_localization.
  fold (stage_5_candidates tracklets).
  set (segment_of := fun entry : Tracklet * Clip =>
         localize P (fst entry) (snd entry) (QueryRequest.query_text request)
                  (smoothing_window_size config) (hysteresis_high config)
                  (hysteresis_low config) (sam3_min_mask_confidence config)).
  set (localize_all := fix localize_all (l : list Tracklet) := _).
  assert (Hall : forall l,
    match localize_all l with
    | Ok segments =>
        exists clips,
          Forall2 (fun t clip => dict_get (Tracklet.clip_id t) clips_by_id = Some clip)
                  l clips
          /\ segments = map segment_of (combine l clips)
    | Raise e =>
        exists pre t post,
          l = pre ++ t :: post
          /\ Forall (clip_known clips_by_id) pre
          /\ dict_get (Tracklet.clip_id t) clips_by_id = None
          /\ e = KeyError (Tracklet.clip_id t)
    end).
  { induction l as [| t l IH]; cbn [localize_all].
    - exists []. split; [constructor | reflexivity].
    - destruct (dict_get (Tracklet.clip_id t) clips_by_id) as [clip |] eqn:Hclip.
      + destruct (localize_all l) as [segments | e].
        * destruct IH as [clips [Hclips ->]]. exists (clip :: clips).
          split; [now constructor | reflexivity].
        * destruct IH as [pre [t' [post [-> [Hpre [Hnone ->]]]]]].
          exists (t :: pre), t', post. split; [reflexivity |].
          split; [constructor; [now exists clip | exact Hpre] |]. now split.
      + exists [], t, l. split; [reflexivity |]. split; [constructor |]. now split. }
  specialize (Hall (stage_5_candidates tracklets)).
  destruct (localize_all (stage_5_candidates tracklets)) as [segments | e];
    [| exact Hall].
  destruct Hall as [clips [Hclips ->]]. exists clips.
  split; [exact Hclips |]. split; [apply ambiguity_pass_map |].
  rewrite ambiguity_pass_map, map_map.
  rewrite (map_ext _ TemporalSegment.track_id)
    by (intros x; unfold flag_ambiguity; now destruct (existsb _ _)).
  rewrite map_map.
  clear - Hclips. induction Hclips as [| t clip l clips _ _ IH]; cbn [combine map];
    [reflexivity |].
  f_equal; [| exact IH].
  unfold segment_of; cbn [fst snd]; unfold localize;
    destruct (localize_spans _ _ _ _ _ _ _) as [| [[a b] c] more]; reflexivity.
Qed.

(** X23: stage 5 localizes the person tracklets when there are any and all
    tracklets otherwise, one segment per tracklet in the same order.  It
    fails exactly when one of these tracklets names a clip that is not in
    [clips_by_id], with the [KeyError] of the first such tracklet;
    otherwise its result is the list of the segments [localize] returns
    for each tracklet and its clip, after the ambiguity pass. *)
Theorem stage_5_outcome (request : QueryRequest) (tracklets : list Tracklet)
    (clips_by_id : dict Clip) :
  let candidates := stage_5_candidates tracklets in
  let segment_of (entry : Tracklet * Clip) :=
    localize P (fst entry) (snd entry) (QueryRequest.query_text request)
             (smoothing_window_size config) (hysteresis_high config)
             (hysteresis_low config) (sam3_min_mask_confidence config) in
  match _stage_5_temporal_localization P config request tracklets clips_by_id with
  | Ok segments =>
      exists clips,
        Forall2 (fun t clip => dict_get (Tracklet.clip_id t) clips_by_id = Some clip)
                candidates clips
        /\ segments
           = map (flag_ambiguity (map segment_of (combine candidates clips)))
                 (map segment_of (combine candidates clips))
        /\ map TemporalSegment.track_id segments = map Tracklet.track_id candidates
  | Raise e =>
      exists pre t post,
        candidates = pre ++ t :: post
        /\ Forall (clip_known clips_by_id) pre
        /\ dict_get (Tracklet.clip_id t) clips_by_id = None
        /\ e = KeyError (Tracklet.clip_id t)
  end.
Proof. apply stage_5_spec. Qed.
End Stage5.

(** ** pipeline.py: the final selection of stage 2 *)

Lemma dict_set_Forall {V} (Q : string * V -> Prop) (d : dict V) (k : string) (v : V) :
  Q (k, v) -> Forall Q d -> Forall Q (dict_set k v d).
Proof.
  intros Hkv. induction 1 as [| [k0 v0] d H0 Hd IH]; cbn.
  - repeat constructor. exact Hkv.
  - destruct (String.eqb_spec k k0) as [-> | Hne]; constructor; assumption.
Qed.

Lemma dict_get_values {V} (d : dict V) (k : string) (v : V) :
  dict_get k d = Some v -> In v (dict_values d).
Proof.
  intros H. apply assoc_get_In in H. unfold dict_values.
  now apply (in_map snd) in H.
Qed.

Lemma unique_step_entries (validated : list ValidatedWindow)
    (unique : dict ValidatedWindow) (item : ValidatedWindow) :
  In item validated ->
  NoDup (dict_keys unique) /\ Forall (unique_entry validated) unique ->
  NoDup (dict_keys (unique_step unique item))
  /\ Forall (unique_entry validated) (unique_step unique item).
Proof.
  intros Hitem [Hnd Hall]. unfold unique_step.
  assert (Hset : NoDup (dict_keys (dict_set (ValidatedWindow.window_id item) item unique))
                 /\ Forall (unique_entry validated)
                           (dict_set (ValidatedWindow.window_id item) item unique)).
  { split; [now apply dict_keys_set_NoDup |].
    apply dict_set_Forall; [now split | exact Hall]. }
  destruct (dict_get _ unique) as [existing |]; [| exact Hset].
  destruct (Qgtb _ _); [exact Hset | now split].
Qed.

Lemma unique_fold_entries (validated items : list ValidatedWindow) : forall unique,
  incl items validated ->
  NoDup (dict_keys unique) /\ Forall (unique_entry validated) unique ->
  NoDup (dict_keys (fold_left unique_step items unique))
  /\ Forall (unique_entry validated) (fold_left unique_step items unique).
Proof.
  induction items as [| item items IH]; intros unique Hincl Hunique; cbn [fold_left];
    [exact Hunique |].
  apply IH; [intros x Hx; apply Hincl; now right |].
  apply unique_step_entries; [apply Hincl; now left | exact Hunique].
Qed.

Lemma unique_step_covers (unique : dict ValidatedWindow) (item v : ValidatedWindow) :
  v = item \/ covered unique v -> covered (unique_step unique item) v.
Proof.
  unfold unique_step, covered.
  destruct (dict_get (ValidatedWindow.window_id item) unique) as [existing |] eqn:Hget.
  - destruct (Qgtb _ _) eqn:Hgt.
    + apply Qgtb_lt in Hgt. intros [-> | [kept [Hkept Hle]]].
      * exists item. rewrite dict_get_set, String.eqb_refl. split; [reflexivity | lra].
      * rewrite dict_get_set.
        destruct (String.eqb_spec (ValidatedWindow.window_id v)
                                  (ValidatedWindow.window_id item)) as [Heq | Hne].
        -- exists item. split; [reflexivity |].
           rewrite Heq, Hget in Hkept. injection Hkept as <-. lra.
        -- now exists kept.
    + intros [-> | H]; [| exact H].
      exists existing. split; [exact Hget |].
      unfold Qgtb in Hgt. apply negb_false_iff, Qle_bool_iff in Hgt. exact Hgt.
  - intros [-> | [kept [Hkept Hle]]].
    + exists item. rewrite dict_get_set, String.eqb_refl. split; [reflexivity | lra].
    + rewrite dict_get_set.
      destruct (String.eqb_spec (ValidatedWindow.window_id v)
                                (ValidatedWindow.window_id item)) as [Heq | Hne].
      * rewrite Heq, Hget in Hkept. discriminate.
      * now exists kept.
Qed.

Lemma unique_fold_covers (items : list ValidatedWindow) : forall unique v,
  In v items \/ covered unique v -> covered (fold_left unique_step items unique) v.
Proof.
  induction items as [| item items IH]; intros unique v Hv; cbn [fold_left].
  - destruct Hv as [[] | H]; exact H.
  - apply IH. destruct Hv as [[<- | Hin] | Hcov].
    + right. apply unique_step_covers. now left.
    + now left.
    + right. apply unique_step_covers. now right.
Qed.

Lemma diversity_pass_shape (top_k : Z) (ranked : list ValidatedWindow) :
  forall selected seen_clips,
    exists picks,
      diversity_pass top_k ranked selected seen_clips = selected ++ picks
      /\ (forall (f : ValidatedWindow -> string),
            NoDup (map f (selected ++ ranked)) -> NoDup (map f (selected ++ picks)))
      /\ incl picks ranked
      /\ Z.of_nat (List.length (selected ++ picks))
         <= Z.max (Z.of_nat (List.length selected) + 1) top_k
      /\ (forall item rest, ranked = item :: rest ->
            mem_string (ValidatedWindow.clip_id item) seen_clips = false ->
            exists more, picks = item :: more).
Proof.
  induction ranked as [| item ranked IH]; intros selected seen_clips;
    cbn [diversity_pass].
  - exists []. rewrite app_nil_r. split; [reflexivity |]. split; [auto |].
    split; [intros x [] |]. split; [lia | intros item rest H; discriminate H].
  - destruct (mem_string (ValidatedWindow.clip_id item) seen_clips) eqn:Hseen.
    + destruct (IH selected seen_clips) as [picks [Heq [Hnd [Hincl [Hlen _]]]]].
      exists picks. split; [exact Heq |]. split.
      { intros f H. apply Hnd. rewrite map_app in *. cbn [map] in H.
        now apply NoDup_remove_1 in H. }
      split; [intros x Hx; right; now apply Hincl |].
      split; [exact Hlen |].
      intros item' rest [= <- <-] Hfalse. congruence.
    + destruct (Z.of_nat (List.length (selected ++ [item])) >=? top_k) eqn:Hfull.
      * exists [item]. split; [reflexivity |]. split.
        { intros f H. rewrite map_app in *. cbn [map] in *.
          apply NoDup_app_remove_r with (l' := map f ranked).
          now rewrite <- app_assoc. }
        split; [intros x [<- | []]; now left |].
        split; [rewrite length_app; cbn; lia |].
        intros item' rest [= <- <-] _. now exists [].
      * destruct (IH (selected ++ [item]) (ValidatedWindow.clip_id item :: seen_clips))
          as [picks [Heq [Hnd [Hincl [Hlen _]]]]].
        exists (item :: picks). rewrite Heq, <- app_assoc. split; [reflexivity |].
        split.
        { intros f H. specialize (Hnd f). rewrite <- !app_assoc in Hnd.
          now apply Hnd. }
        split; [intros x [<- | Hx]; [now left | right; now apply Hincl] |].
        split.
        { rewrite <- app_assoc in Hlen. cbn [app] in Hlen.
          rewrite Z.geb_leb in Hfull. apply Z.leb_gt in Hfull.
          rewrite (length_app selected [item]) in Hlen, Hfull.
          cbn [List.length] in Hlen, Hfull. lia. }
        intros item' rest [= <- <-] _. now exists picks.
Qed.

Lemma fill_pass_shape (top_k : Z) (ranked : list ValidatedWindow) : forall selected,
  exists more,
    fill_pass top_k ranked selected = selected ++ more
    /\ (NoDup (map ValidatedWindow.window_id selected) ->
        NoDup (map ValidatedWindow.window_id (selected ++ more)))
    /\ incl more ranked
    /\ Z.of_nat (List.length (selected ++ more))
       <= Z.max (Z.of_nat (List.length selected)) top_k.
Proof.
  induction ranked as [| item ranked IH]; intros selected; cbn [fill_pass].
  - exists []. rewrite app_nil_r. split; [reflexivity |]. split; [auto |].
    split; [intros x [] | lia].
  - destruct (Z.of_nat (List.length selected) >=? top_k) eqn:Hfull.
    + exists []. rewrite app_nil_r. split; [reflexivity |]. split; [auto |].
      split; [intros x [] | lia].
    + destruct (mem_string _ _) eqn:Hmem.
      * destruct (IH selected) as [more [Heq [Hnd [Hincl Hlen]]]].
        exists more. split; [exact Heq |]. split; [exact Hnd |].
        split; [intros x Hx; right; now apply Hincl | exact Hlen].
      * destruct (IH (selected ++ [item])) as [more [Heq [Hnd [Hincl Hlen]]]].
        exists (item :: more). rewrite Heq, <- app_assoc. split; [reflexivity |].
        split.
        { intros H. rewrite <- app_assoc in Hnd. apply Hnd.
          rewrite map_app. cbn [map].
          apply NoDup_app; [exact H | repeat constructor; intros [] |].
          intros x Hx [<- | []]. apply mem_string_false in Hmem. contradiction. }
        split; [intros x [<- | Hx]; [now left | right; now apply Hincl] |].
        rewrite <- app_assoc in Hlen. cbn [app] in Hlen.
        rewrite Z.geb_leb in Hfull. apply Z.leb_gt in Hfull.
        rewrite (length_app selected [item]) in Hlen. cbn [List.length] in Hlen. lia.
Qed.

Lemma take_short {A} (top_k : Z) (l : list A) :
  Z.of_nat (List.length l) <= Z.max 1 top_k ->
  (List.length (take top_k l) <= Z.to_nat top_k)%nat
  /\ (top_k <= 0 -> take top_k l = []).
Proof.
  intros Hlen. rewrite take_firstn.
  destruct (Z.ltb_spec top_k 0) as [Hneg | Hpos].
  - replace (List.length l - Z.to_nat (- top_k))%nat with 0%nat by lia.
    cbn. split; [lia | reflexivity].
  - split; [apply firstn_le_length |].
    intros H0. replace top_k with 0 by lia. reflexivity.
Qed.

(** The selection of stage 2 unfolded: the ranking, its best item first,
    and the selected windows. *)
Lemma select_windows_shape (top_k : Z) (validated : list ValidatedWindow) :
  let unique := fold_left unique_step validated [] in
  let ranked := sorted_by vw_order (dict_values unique) in
  exists selected,
    select_windows top_k validated = take top_k selected
    /\ NoDup (map ValidatedWindow.window_id selected)
    /\ incl selected validated
    /\ Z.of_nat (List.length selected) <= Z.max 1 top_k
    /\ (forall item rest, ranked = item :: rest -> exists more, selected = item :: more).
Proof.
  cbv zeta. unfold select_windows.
  set (unique := fold_left unique_step validated []).
  set (ranked := sorted_by vw_order (dict_values unique)).
  destruct (unique_fold_entries validated validated [] (incl_refl _))
    as [Hkeys Hentries]; [split; constructor |].
  fold unique in Hkeys, Hentries.
  assert (Hperm : Permutation ranked (dict_values unique)) by apply sorted_by_perm.
  assert (Hids : map ValidatedWindow.window_id (dict_values unique) = dict_keys unique).
  { unfold dict_values, dict_keys. rewrite map_map. apply map_ext_in.
    intros entry Hin. exact (proj1 (proj1 (Forall_forall _ _) Hentries entry Hin)). }
  assert (Hranked_nd : NoDup (map ValidatedWindow.window_id ranked)).
  { apply (Permutation_NoDup (Permutation_sym (Permutation_map _ Hperm))).
    now rewrite Hids. }
  assert (Hranked_in : incl ranked validated).
  { intros x Hx. apply (Permutation_in _ Hperm) in Hx.
    unfold dict_values in Hx. apply in_map_iff in Hx. destruct Hx as [entry [<- Hin]].
    exact (proj2 (proj1 (Forall_forall _ _) Hentries entry Hin)). }
  destruct (diversity_pass_shape top_k ranked [] []) as [picks [Hd [Hdn [Hdi [Hdl Hdh]]]]].
  cbn [app] in Hd, Hdn, Hdl. rewrite Hd.
  destruct (fill_pass_shape top_k ranked picks) as [more [Hf [Hfn [Hfi Hfl]]]].
  rewrite Hf. exists (picks ++ more).
  split; [reflexivity |]. split; [apply Hfn, Hdn, Hranked_nd |].
  split.
  { intros x Hx. apply Hranked_in. apply in_app_or in Hx.
    destruct Hx as [Hx | Hx]; [now apply Hdi | now apply Hfi]. }
  split; [cbn [List.length] in Hdl; lia |].
  intros item rest Hr. destruct (Hdh item rest Hr eq_refl) as [more' ->].
  now exists (more' ++ more).
Qed.

(** X24: the final selection of stage 2 returns at most [top_k] windows
    (none for a [top_k] that is not positive), no two with the same window
    id, and every one of them an item of the validated list. *)
Theorem selection_is_capped_and_distinct (top_k : Z) (validated : list ValidatedWindow) :
  let selected := select_windows top_k validated in
  (List.length selected <= Z.to_nat top_k)%nat
  /\ NoDup (map ValidatedWindow.window_id selected)
  /\ incl selected validated.
Proof.
  cbv zeta.
  destruct (select_windows_shape top_k validated) as [selected [-> [Hnd [Hincl [Hlen _]]]]].
  split; [apply take_short, Hlen |].
  rewrite take_firstn. split.
  - rewrite <- firstn_map. now apply NoDup_firstn.
  - intros x Hx. apply Hincl. now apply firstn_In in Hx.
Qed.

(** X25: the final selection of stage 2 keeps the best.  When it returns a
    window at all, the first one is at least as confident as every item of
    the validated list; it returns none only when nothing was validated or
    [top_k] is not positive. *)
Theorem selection_keeps_the_best (top_k : Z) (validated : list ValidatedWindow) :
  match select_windows top_k validated with
  | best :: _ =>
      Forall (fun item =>
                (ValidatedWindow.confidence item <= ValidatedWindow.confidence best)%Q)
             validated
  | [] => validated = [] \/ top_k <= 0
  end.
Proof.
  destruct (select_windows_shape top_k validated)
    as [selected [-> [_ [_ [Hlen Hhead]]]]].
  cbv zeta in Hhead.
  set (unique := fold_left unique_step validated []) in *.
  set (ranked := sorted_by vw_order (dict_values unique)) in *.
  assert (Hcovered : forall v, In v validated ->
            exists kept, In kept ranked
              /\ (ValidatedWindow.confidence v <= ValidatedWindow.confidence kept)%Q).
  { intros v Hv.
    destruct (unique_fold_covers validated [] v (or_introl Hv)) as [kept [Hget Hle]].
    exists kept. split; [| exact Hle].
    apply (Permutation_in _ (Permutation_sym (sorted_by_perm vw_order _))).
    now apply dict_get_values in Hget. }
  destruct (Z.leb_spec top_k 0) as [Hk | Hk].
  { rewrite (proj2 (take_short top_k selected Hlen) Hk). now right. }
  destruct ranked as [| best rest] eqn:Hranked.
  { destruct validated as [| v vs]; [destruct (take _ _); [now left | constructor] |].
    destruct (Hcovered v (or_introl eq_refl)) as [kept [[] _]]. }
  destruct (Hhead best rest eq_refl) as [more ->].
  rewrite take_firstn. destruct (Z.ltb_spec top_k 0) as [Hneg | _]; [lia |].
  destruct (Z.to_nat top_k) as [| n] eqn:Hn; [lia |]. cbn [firstn].
  pose proof (sorted_by_vw_order (dict_values unique)) as Hsorted.
  fold ranked in Hsorted. rewrite Hranked in Hsorted.
  apply StronglySorted_inv in Hsorted. destruct Hsorted as [_ Hbest].
  apply Forall_forall. intros v Hv.
  destruct (Hcovered v Hv) as [kept [[<- | Hin] Hle]]; [exact Hle |].
  apply Qle_trans with (ValidatedWindow.confidence kept); [exact Hle |].
  exact (proj1 (Forall_forall _ _) Hbest kept Hin).
Qed.

(** ** pipeline.py: the stages never fail on a request *)

Section DictOf.
Context {V : Type} (key : V -> string).

Lemma dict_of_fold (l : list V) : forall d k,
  (forall v, dict_get k (fold_left (fun d x => dict_set (key x) x d) l d) = Some v ->
             (In v l /\ key v = k) \/ dict_get k d = Some v)
  /\ ((exists x, In x l /\ key x = k) \/ dict_get k d <> None ->
      dict_get k (fold_left (fun d x => dict_set (key x) x d) l d) <> None).
Proof.
  induction l as [| x l IH]; intros d k; cbn [fold_left].
  - split; [intros v H; now right |].
    intros [[x [[] _]] | H]; exact H.
  - destruct (IH (dict_set (key x) x d) k) as [IH1 IH2]. split.
    + intros v Hv. destruct (IH1 v Hv) as [[Hin Hk] | Hset].
      * left. split; [now right | exact Hk].
      * rewrite dict_get_set in Hset.
        destruct (String.eqb_spec k (key x)) as [-> | Hne]; [| now right].
        injection Hset as <-. left. split; [now left | reflexivity].
    + intros H. apply IH2. destruct H as [[y [[<- | Hin] Hk]] | Hd].
      * right. rewrite dict_get_set, <- Hk, String.eqb_refl. discriminate.
      * left. now exists y.
      * right. rewrite dict_get_set. now destruct (String.eqb k (key x)).
Qed.

Lemma dict_of_get_inv (l : list V) (k : string) (v : V) :
  dict_get k (dict_of key l) = Some v -> In v l /\ key v = k.
Proof.
  intros H. destruct (proj1 (dict_of_fold l [] k) v H) as [H' | H']; [exact H' |].
  discriminate H'.
Qed.

End DictOf.






Section StagesReturn.
Variable P : Ports.
Variable config : RuntimeConfig.

(** *** Stage 1 *)



(** *** Stage 2 *)



End StagesReturn.

Lemma entity_by_track_inv (entity_links : list EntityLink) (track_id : string)
    (link : EntityLink) :
  dict_get track_id (entity_by_track_of entity_links) = Some link ->
  In link entity_links /\ In track_id (EntityLink.track_ids link).
Proof.
  unfold entity_by_track_of.
  assert (Hinner : forall (link0 : EntityLink) ids d,
            dict_get track_id (fold_left (fun d id => dict_set id link0 d) ids d)
              = Some link ->
            (link = link0 /\ In track_id ids) \/ dict_get track_id d = Some link).
  { intros link0. induction ids as [| id ids IH]; intros d H; cbn [fold_left] in H;
      [now right |].
    destruct (IH _ H) as [[Heq Hin] | Hset]; [left; split; [exact Heq | now right] |].
    rewrite dict_get_set in Hset.
    destruct (String.eqb_spec track_id id) as [-> | Hne]; [| now right].
    injection Hset as <-. left. split; [reflexivity | now left]. }
  assert (Houter : forall links d,
            dict_get track_id
              (fold_left (fun d link0 =>
                            fold_left (fun d id => dict_set id link0 d)
                                      (EntityLink.track_ids link0) d) links d)
              = Some link ->
            (In link links /\ In track_id (EntityLink.track_ids link))
            \/ dict_get track_id d = Some link).
  { induction links as [| link0 links IH]; intros d H; cbn [fold_left] in H;
      [now right |].
    destruct (IH _ H) as [[Hin Hid] | Hset]; [left; split; [now right | exact Hid] |].
    destruct (Hinner _ _ _ Hset) as [[-> Hid] | Hd]; [| now right].
    left. split; [now left | exact Hid]. }
  intros H. destruct (Houter _ _ H) as [H' | H']; [exact H' | discriminate H'].
Qed.

Section Stage6Returns.
Variable P : Ports.
Variable config : RuntimeConfig.

Lemma build_evidence_ensures (request : QueryRequest) (track : Tracklet)
    (segment : TemporalSegment) :
  ensures (fun _ => True) (_build_evidence_refs_for_track P config request track segment).
Proof.
  intros s.
  destruct (build_evidence_nonempty P config request track segment s)
    as [refs [s' [H _]]].
  now exists refs, s'.
Qed.

Lemma same_window_object_entities_ok (track_by_id : dict Tracklet)
    (entity_by_track : dict EntityLink) (segment : TemporalSegment) (own : Tracklet)
    (tracklets : list Tracklet) :
  dict_get (TemporalSegment.track_id segment) track_by_id = Some own ->
  exists entities,
    same_window_object_entities track_by_id entity_by_track segment tracklets
      = Ok entities
    /\ Forall (fun o => exists track, o = dict_get (Tracklet.track_id track) entity_by_track)
              entities.
Proof.
  intros Hown.
  induction tracklets as [| track tracklets [entities [IH Hall]]];
    cbn [same_window_object_entities].
  - exists []. split; [reflexivity | constructor].
  - rewrite IH, Hown.
    destruct (String.eqb _ _); [| now exists entities].
    destruct (_ && _); [| now exists entities].
    eexists. split; [reflexivity |]. constructor; [now exists track | exact Hall].
Qed.

Lemma exits_edge_ensures (request : QueryRequest) (tracklets : list Tracklet)
    (entity_links : list EntityLink) (temporal_segments : list TemporalSegment)
    (segment : TemporalSegment) :
  In segment temporal_segments ->
  track_known tracklets segment ->
  ensures (Forall (edge_of_links entity_links tracklets temporal_segments))
          (exits_edge P config request tracklets (dict_of Tracklet.track_id tracklets)
                      (entity_by_track_of entity_links) segment).
Proof.
  intros Hsegment [own Hown]. unfold exits_edge.
  destruct (dict_get _ (entity_by_track_of entity_links)) as [person_link |] eqn:Hperson;
    [| apply ensures_ret; constructor].
  apply entity_by_track_inv in Hperson. destruct Hperson as [Hpin Hpid].
  destruct (EntityLink.entity_type person_link) eqn:Hptype; cbn [EntityType_eqb negb];
    [apply ensures_ret; constructor |].
  destruct (same_window_object_entities_ok _ (entity_by_track_of entity_links)
              segment own tracklets Hown) as [entities [-> Hentities]].
  destruct (first_such is_object_link entities) as [[object_link |] |] eqn:Hfirst;
    try (apply ensures_ret; constructor).
  unfold first_such in Hfirst. apply find_some in Hfirst.
  destruct Hfirst as [Hin Hobject].
  destruct (proj1 (Forall_forall _ _) Hentities _ Hin) as [track Htrack].
  symmetry in Htrack. apply entity_by_track_inv in Htrack. destruct Htrack as [Hoin _].
  rewrite Hown.
  apply ensures_bind with (Q1 := fun _ => True); [apply build_evidence_ensures |].
  intros refs _.
  apply ensures_bind with (Q1 := fun _ => True); [now apply ensures_modify |].
  intros _ _. apply ensures_ret. constructor; [| constructor].
  unfold edge_of_links. cbn.
  exists person_link, object_link, segment.
  repeat (split; [assumption || reflexivity |]).
  split.
  { unfold is_object_link in Hobject.
    destruct (EntityLink.entity_type object_link); [reflexivity | discriminate]. }
  repeat (split; [assumption || reflexivity |]). reflexivity.
Qed.

Lemma moves_to_edges_ensures (request : QueryRequest) (tracklets : list Tracklet)
    (entity_links : list EntityLink) (temporal_segments : list TemporalSegment)
    (link : EntityLink) :
  In link entity_links ->
  ensures (Forall (edge_of_links entity_links tracklets temporal_segments))
          (moves_to_edges P config request (dict_of Tracklet.track_id tracklets) link).
Proof.
  intros Hlink. unfold moves_to_edges.
  destruct (EntityLink.entity_type link) eqn:Htype; [apply ensures_ret; constructor |].
  set (linked := sorted_by track_order _).
  assert (Hlinked : forall curr, In curr (tl linked) ->
            In curr tracklets /\ In (Tracklet.track_id curr) (EntityLink.track_ids link)).
  { intros curr Hcurr.
    assert (Hin : In curr linked) by (destruct linked; [destruct Hcurr | now right]).
    apply (Permutation_in _ (sorted_by_perm track_order _)) in Hin.
    unfold somes in Hin. apply in_flat_map in Hin. destruct Hin as [o [Ho Hin]].
    apply in_map_iff in Ho. destruct Ho as [id [<- Hid]].
    destruct (dict_get id _) as [track |] eqn:Hget; [| destruct Hin].
    destruct Hin as [<- | []].
    apply dict_of_get_inv in Hget. destruct Hget as [Htrack ->].
    now split. }
  eapply ensures_weaken;
    [| apply (ensures_map_m
                (fun _ edge => edge_of_links entity_links tracklets temporal_segments edge)
                (moves_to_edge P config request link) (tl linked))].
  - intros edges Hedges. eapply Forall2_Forall_r; [| exact Hedges].
    intros x y _ H. exact H.
  - intros curr Hcurr. destruct (Hlinked curr Hcurr) as [Htrack Hid].
    unfold moves_to_edge.
    apply ensures_bind with (Q1 := fun _ => True); [apply build_evidence_ensures |].
    intros refs _.
    apply ensures_bind with (Q1 := fun _ => True); [now apply ensures_modify |].
    intros _ _. apply ensures_ret. unfold edge_of_links. cbn.
    exists link, curr. repeat (split; [assumption || reflexivity |]). reflexivity.
Qed.

Lemma stage_6_ensures (request : QueryRequest) (tracklets : list Tracklet)
    (entity_links : list EntityLink) (temporal_segments : list TemporalSegment) :
  Forall (track_known tracklets) temporal_segments ->
  ensures (fun graph =>
             Forall (edge_of_links entity_links tracklets temporal_segments) (snd graph))
          (_stage_6_graph_memory P config request tracklets entity_links
                                 temporal_segments).
Proof.
  intros Hknown. unfold _stage_6_graph_memory.
  apply ensures_bind with (Q1 := fun _ => True).
  { apply ensures_for_each. intros link _. now apply ensures_modify. }
  intros _ _.
  apply ensures_bind with (Q1 := fun _ => True).
  { apply ensures_for_each. intros track _. unfold upsert_track_nodes.
    apply ensures_bind with (Q1 := fun _ => True);
      [now apply ensures_modify | intros _ _; now apply ensures_modify]. }
  intros _ _.
  apply ensures_bind
    with (Q1 := Forall2 (fun _ edges =>
                           Forall (edge_of_links entity_links tracklets temporal_segments)
                                  edges) temporal_segments).
  { apply ensures_map_m. intros segment Hin.
    apply exits_edge_ensures; [exact Hin |].
    exact (proj1 (Forall_forall _ _) Hknown segment Hin). }
  intros exits Hexits.
  apply ensures_bind
    with (Q1 := Forall2 (fun _ edges =>
                           Forall (edge_of_links entity_links tracklets temporal_segments)
                                  edges) entity_links).
  { apply ensures_map_m. intros link Hin. now apply moves_to_edges_ensures. }
  intros moves Hmoves.
  apply ensures_bind with (Q1 := fun _ => True); [now apply ensures_get |].
  intros stores _. apply ensures_ret. cbn [snd].
  apply Forall_app. split; apply Forall_concat;
    (eapply Forall2_Forall_r; [| eassumption]); intros x y _ H; exact H.
Qed.

(** X26: stage 6 fails only for a segment whose track is unknown.  When
    every temporal segment names a track of the tracklet list, the stage
    returns, and every edge connects what it was given: an EXITS edge runs
    from a person link to an object link and takes its time range, camera
    and confidence from a segment of one of the person's tracks; a
    MOVES_TO edge runs from a person link to the camera of one of the
    tracks the link lists, with that track's time range and confidence 0.8
    for a resolved link, 0.45 otherwise. *)
Theorem stage_6_connects_what_it_was_given (request : QueryRequest)
    (tracklets : list Tracklet) (entity_links : list EntityLink)
    (temporal_segments : list TemporalSegment) :
  Forall (track_known tracklets) temporal_segments ->
  ensures (fun graph =>
             Forall (edge_of_links entity_links tracklets temporal_segments) (snd graph))
          (_stage_6_graph_memory P config request tracklets entity_links
                                 temporal_segments).
Proof. apply stage_6_ensures. Qed.
End Stage6Returns.

(** X26, instance: a person tracklet and an object tracklet of one window,
    with the segment of the person. *)
Lemma stage_6_connects_walker_and_suv :
  ensures (fun graph =>
             Forall (edge_of_links (resolve demo_ports [parked_suv; walker] [] 30)
                       [parked_suv; walker]
                       [localize demo_ports walker walk_sit_clip "walk" 1 (float 0.6) (float 0.2) (float 0.5)])
                    (snd graph))
          (_stage_6_graph_memory demo_ports demo_config suv_request
             [parked_suv; walker] (resolve demo_ports [parked_suv; walker] [] 30)
             [localize demo_ports walker walk_sit_clip "walk" 1 (float 0.6) (float 0.2) (float 0.5)]).
Proof.
  apply (stage_6_connects_what_it_was_given demo_ports demo_config suv_request
           [parked_suv; walker] (resolve demo_ports [parked_suv; walker] [] 30)
           [localize demo_ports walker walk_sit_clip "walk" 1 (float 0.6) (float 0.2) (float 0.5)]).
  constructor; [| constructor]. exists walker. vm_compute. reflexivity.
Defined.

(** ** pipeline.py: the engine *)

Section Outcome.
Context {S : Type}.

End Outcome.


Section Engine.
Variable P : Ports.
Variable config : RuntimeConfig.





End Engine.

(** ** pipeline.py: stages 1 and 2 *)



Section Stages1And2.
Variable P : Ports.
Variable config : RuntimeConfig.




(** X30: scoring a window leaves its features in the L1 cache, so scoring
    it again, under the same or another query, is a cache hit: the second
    call returns a validated window too, adds one hit and no miss, and for
    the same query it returns the same validated window. *)
Theorem rescoring_hits_the_cache (windows_by_id : dict ActiveWindow)
    (clip_map : dict Clip) (query_text query_text' : string)
    (tokens tokens' : list string) (embedding embedding' : Vec) (window_id : string)
    (s s1 : PipelineStores) (v : ValidatedWindow) :
  score_window P windows_by_id clip_map query_text tokens embedding window_id s
    = (Ok (Some v), s1) ->
  exists v' s2,
    score_window P windows_by_id clip_map query_text' tokens' embedding' window_id s1
      = (Ok (Some v'), s2)
    /\ cache_hits s2 = cache_hits s1 + 1
    /\ cache_misses s2 = cache_misses s1
    /\ (query_text' = query_text -> tokens' = tokens -> embedding' = embedding ->
        v' = v).
Proof.
  unfold score_window.
  destruct (dict_get window_id windows_by_id) as [window |]; [| discriminate].
  set (key := ("l1:" ++ ActiveWindow.window_id window)%string).
  assert (Hsecond : forall features s1,
    dict_get key (FeatureCacheStore.l1 (PipelineStores.feature_cache s1))
      = Some features ->
    exists s2,
      (cached_features <- get_l1 key ;;
       features <-
         match cached_features with
         | None =>
             match dict_get (ActiveWindow.clip_id window) clip_map with
             | None => raise (KeyError (ActiveWindow.clip_id window))
             | Some clip =>
                 let features := extract_window_features P window clip in
                 set_l1 key features ;;; ret features
             end
         | Some features => ret features
         end ;;
       window_index_upsert (ActiveWindow.window_id window)
                           (WindowFeatures.pooled_embedding features) ;;;
       ret (Some
         {| ValidatedWindow.window_id := ActiveWindow.window_id window;
            ValidatedWindow.clip_id := ActiveWindow.clip_id window;
            ValidatedWindow.camera_id := ActiveWindow.camera_id window;
            ValidatedWindow.t_start := ActiveWindow.t_start window;
            ValidatedWindow.t_end := ActiveWindow.t_end window;
            ValidatedWindow.confidence :=
              window_confidence P tokens' embedding' features;
            ValidatedWindow.query_text := query_text' |})) s1
      = (Ok (Some
           {| ValidatedWindow.window_id := ActiveWindow.window_id window;
              ValidatedWindow.clip_id := ActiveWindow.clip_id window;
              ValidatedWindow.camera_id := ActiveWindow.camera_id window;
              ValidatedWindow.t_start := ActiveWindow.t_start window;
              ValidatedWindow.t_end := ActiveWindow.t_end window;
              ValidatedWindow.confidence :=
                window_confidence P tokens' embedding' features;
              ValidatedWindow.query_text := query_text' |}), s2)
      /\ cache_hits s2 = cache_hits s1 + 1
      /\ cache_misses s2 = cache_misses s1).
  { intros features s0 Hcached. unfold bind at 1. unfold get_l1. rewrite Hcached.
    eexists. split; [reflexivity |]. split; reflexivity. }
  unfold bind at 1. unfold get_l1.
  destruct (dict_get key (FeatureCacheStore.l1 (PipelineStores.feature_cache s)))
    as [features |] eqn:Hcached.
  - intros H. cbn in H. injection H as <- <-.
    destruct (Hsecond features
                (state_after
                   (window_index_upsert (ActiveWindow.window_id window)
                      (WindowFeatures.pooled_embedding features))
                   (with_feature_cache
                      (FeatureCacheStore.mk
                         (FeatureCacheStore.l1 (PipelineStores.feature_cache s))
                         (FeatureCacheStore.l2 (PipelineStores.feature_cache s))
                         (FeatureCacheStore.hits (PipelineStores.feature_cache s) + 1)
                         (FeatureCacheStore.misses (PipelineStores.feature_cache s)))
                      s))) as [s2 [H2 [Hh Hm]]]; [exact Hcached |].
    eexists. exists s2. split; [exact H2 |]. split; [exact Hh |]. split; [exact Hm |].
    now intros -> -> ->.
  - destruct (dict_get (ActiveWindow.clip_id window) clip_map) as [clip |];
      [| discriminate].
    intros H. cbn in H. injection H as <- <-.
    destruct (Hsecond (extract_window_features P window clip)
                (state_after
                   (set_l1 key (extract_window_features P window clip) ;;;
                    window_index_upsert (ActiveWindow.window_id window)
                      (WindowFeatures.pooled_embedding
                         (extract_window_features P window clip)))
                   (with_feature_cache
                      (FeatureCacheStore.mk
                         (FeatureCacheStore.l1 (PipelineStores.feature_cache s))
                         (FeatureCacheStore.l2 (PipelineStores.feature_cache s))
                         (FeatureCacheStore.hits (PipelineStores.feature_cache s))
                         (FeatureCacheStore.misses (PipelineStores.feature_cache s) + 1))
                      s))) as [s2 [H2 [Hh Hm]]].
    { cbn. rewrite dict_get_set. now rewrite String.eqb_refl. }
    eexists. exists s2. split; [exact H2 |]. split; [exact Hh |]. split; [exact Hm |].
    now intros -> -> ->.
Qed.
End Stages1And2.


(** X30, instance: the window of the exterior clip scored twice on a new
    engine. *)
Lemma rescoring_suv_window :
  let windows_by_id := dict_of ActiveWindow.window_id [suv_active_window] in
  let clip_map := dict_of Clip.clip_id [suv_clip] in
  let score :=
    score_window demo_ports windows_by_id clip_map "who exits the suv"
                 ["who"; "exits"; "the"; "suv"] [] "WIN_ext" in
  exists v s1 v' s2,
    score PipelineStores.fresh = (Ok (Some v), s1)
    /\ score s1 = (Ok (Some v'), s2)
    /\ cache_hits s2 = cache_hits s1 + 1
    /\ cache_misses s2 = cache_misses s1
    /\ v' = v.
Proof.
  cbv zeta.
  destruct (score_window demo_ports (dict_of ActiveWindow.window_id [suv_active_window])
              (dict_of Clip.clip_id [suv_clip]) "who exits the suv"
              ["who"; "exits"; "the"; "suv"] [] "WIN_ext" PipelineStores.fresh)
    as [[[v |] | e] s1] eqn:E1;
    [| vm_compute in E1; discriminate | vm_compute in E1; discriminate].
  destruct (rescoring_hits_the_cache demo_ports _ _ _ "who exits the suv"
              _ ["who"; "exits"; "the"; "suv"] _ [] _ _ _ _ E1)
    as [v' [s2 [E2 [Hh [Hm Hsame]]]]].
  exists v, s1, v', s2.
  split; [reflexivity |]. split; [exact E2 |]. split; [exact Hh |].
  split; [exact Hm |]. now apply Hsame.
Defined.

(** X6, instance: a label with an underscore, a hyphen and capitals. *)
Lemma tokens_of_a_label :
  "suv"%string <> EmptyString
  /\ Forall (fun c => is_lower_alnum c = true) (chars "suv").
Proof.
  apply (tokens_are_lower_alphanumeric demo_ports "Red_SUV-2 exits" "suv").
  vm_compute. right. left. reflexivity.
Defined.
